(** * threadables: the enqueuer / worker protocol of [threadables.py]

    A shallow embedding of the two thread targets [enqueuer] and [worker]
    and of the [queue.Queue] calls they make, followed by the properties of
    the termination protocol (sentinels threaded through the queue, plus an
    external kill event).

    The two functions are loops around blocking calls, so each one is
    embedded as a step function on its control point: one step runs the code
    between two calls into the outside world ([Event.is_set], [Queue.put],
    [Queue.get]).  What the outside world answers is an input of the step
    (a [view]); a whole pipeline is obtained by computing the views from a
    shared queue and a shared store of events under a schedule. *)

From Stdlib Require Import String ZArith Bool List Lia.
Import ListNotations.
Local Open Scope Z_scope.

(** ** Python values, exceptions and outcomes *)

(** The objects an iterator may yield.  [PyNone] is Python's [None]. *)
Inductive pyobj : Type :=
| PyNone
| PyBool (b : bool)
| PyInt (z : Z)
| PyStr (s : string).

(** Truth value testing, as done by [if filter_func(file):]. *)
Definition truthy (o : pyobj) : bool :=
  match o with
  | PyNone => false
  | PyBool b => b
  | PyInt z => negb (z =? 0)
  | PyStr s => negb (String.eqb s EmptyString)
  end.

(** [result is None] *)
Definition is_None (o : pyobj) : bool :=
  match o with PyNone => true | _ => false end.

Inductive pyexn : Type :=
| StopIteration
| Full
| Empty
| Exception (name : string).

(** The outcome of calling a user supplied callable. *)
Inductive outcome : Type :=
| Return (v : pyobj)
| Raise (e : pyexn).

(** How a thread target ends: the two [print]ed outcomes, or an exception
    that leaves the function. *)
Inductive status : Type :=
| Killed
| Graceful
| Uncaught (e : pyexn).

(** ** The calls into the outside world *)

(** [timeout=10] of both timed calls. *)
Definition TIMEOUT : Z := 10.

(** What a component has done, in program order.  A queue call is logged
    with the arguments it was made with when it comes back; [done] and [res]
    are its result ([done = false]: [Full] was raised; [res = None]:
    [Empty] was raised). *)
Inductive event : Type :=
| QPut (item : pyobj) (timeout : option Z) (done : bool)
| QGet (timeout : option Z) (res : option pyobj)
| CallFunc (item : pyobj)
| TaskDone
| CallExit.

(** What a component sees of the shared objects when it makes a call:
    which events are set, whether the queue is full, and the item at the
    head of the queue (if any). *)
Record view : Type := View {
  is_set : nat -> bool;
  q_full : bool;
  q_head : option pyobj
}.

(** [Queue.put(item, block=True, timeout)] seen from the caller. *)
Inductive put_result : Type :=
| PutReturns
| PutRaisesFull          (* the queue stayed full for [timeout] seconds *)
| PutBlocks.             (* no timeout: the caller stays in the call *)

Definition Queue_put (v : view) (timeout : option Z) : put_result :=
  if q_full v then
    match timeout with
    | Some _ => PutRaisesFull
    | None => PutBlocks
    end
  else PutReturns.

(** [Queue.get(block=True, timeout)] seen from the caller. *)
Inductive get_result : Type :=
| GetReturns (item : pyobj)
| GetRaisesEmpty
| GetBlocks.

Definition Queue_get (v : view) (timeout : option Z) : get_result :=
  match q_head v with
  | Some item => GetReturns item
  | None =>
      match timeout with
      | Some _ => GetRaisesEmpty
      | None => GetBlocks
      end
  end.

(** [kill_event and kill_event.is_set()] *)
Definition kill_requested (kill_event : option nat) (v : view) : bool :=
  match kill_event with
  | None => false
  | Some ev => is_set v ev
  end.

(** ** [enqueuer] *)

Record enq_args : Type := EnqArgs {
  iterator : list pyobj;
  filter_func : pyobj -> outcome;
  n_workers : Z;
  n : option Z;
  kill_event : option nat
}.

(** Control points of [enqueuer]. *)
Inductive enq_pc : Type :=
| EStart                      (* line 51: file = next(iterator) *)
| ELoop (file : pyobj)        (* line 52: top of [while True] *)
| EPut (file : pyobj)         (* line 58: queue.put(file, timeout=10) *)
| ESentinels (todo : nat)     (* line 67: [todo] rounds of the for loop left *)
| EExit (st : status).

Record enq_state : Type := EnqState {
  e_pc : enq_pc;
  e_iter : list pyobj;        (* what the iterator has not yielded yet *)
  e_i : Z                     (* the counter [i] *)
}.

Definition enq_init (a : enq_args) : enq_state :=
  EnqState EStart (iterator a) 0.

(** [n is not None and i >= n] *)
Definition limit_reached (n : option Z) (i : Z) : bool :=
  match n with
  | None => false
  | Some m => m <=? i
  end.

(** Lines 63-66: the next element, or leave the loop on [StopIteration]. *)
Definition enq_advance (a : enq_args) (it : list pyobj) (i : Z) : enq_state :=
  match it with
  | file :: it' => EnqState (ELoop file) it' i
  | [] => EnqState (ESentinels (Z.to_nat (n_workers a))) [] i
  end.

Definition enq_step (a : enq_args) (v : view) (s : enq_state)
  : enq_state * list event :=
  match e_pc s with
  | EStart =>
      match e_iter s with
      | file :: it' => (EnqState (ELoop file) it' (e_i s), [])
      | [] => (EnqState (EExit (Uncaught StopIteration)) [] (e_i s), [])
      end
  | ELoop file =>
      match filter_func a file with
      | Raise e => (EnqState (EExit (Uncaught e)) (e_iter s) (e_i s), [])
      | Return r =>
          if truthy r then
            if kill_requested (kill_event a) v
            then (EnqState (EExit Killed) (e_iter s) (e_i s), [])
            else (EnqState (EPut file) (e_iter s) (e_i s), [])
          else (enq_advance a (e_iter s) (e_i s), [])
      end
  | EPut file =>
      match Queue_put v (Some TIMEOUT) with
      | PutRaisesFull =>                                    (* continue *)
          (EnqState (ELoop file) (e_iter s) (e_i s),
           [QPut file (Some TIMEOUT) false])
      | PutReturns =>
          let i' := e_i s + 1 in
          (if limit_reached (n a) i'
           then EnqState (ESentinels (Z.to_nat (n_workers a))) (e_iter s) i'
           else enq_advance a (e_iter s) i',
           [QPut file (Some TIMEOUT) true])
      | PutBlocks => (s, [])
      end
  | ESentinels O => (EnqState (EExit Graceful) (e_iter s) (e_i s), [])
  | ESentinels (S todo) =>
      match Queue_put v None with
      | PutReturns =>
          (EnqState (ESentinels todo) (e_iter s) (e_i s),
           [QPut PyNone None true])
      | PutRaisesFull | PutBlocks => (s, [])
      end
  | EExit _ => (s, [])
  end.

(** The enqueuer against a sequence of views, one per step; the log of all
    steps is returned with the state reached. *)
Fixpoint enq_run (a : enq_args) (vs : list view) (s : enq_state)
  : enq_state * list event :=
  match vs with
  | [] => (s, [])
  | v :: vs' =>
      let '(s1, l1) := enq_step a v s in
      let '(s2, l2) := enq_run a vs' s1 in
      (s2, l1 ++ l2)
  end.

Definition enqueuer (a : enq_args) (vs : list view) : enq_state * list event :=
  enq_run a vs (enq_init a).

(** ** [worker] *)

Record worker_args : Type := WorkerArgs {
  func : pyobj -> outcome;
  exit_func : option outcome;          (* what calling [exit_func()] does *)
  w_kill_event : option nat
}.

Inductive worker_pc : Type :=
| WLoop                       (* line 86: top of [while True] *)
| WGet                        (* line 91: queue.get(timeout=10) *)
| WExit (st : status).

Definition worker_step (a : worker_args) (v : view) (pc : worker_pc)
  : worker_pc * list event :=
  match pc with
  | WLoop =>
      if kill_requested (w_kill_event a) v
      then (WExit Killed, [])
      else (WGet, [])
  | WGet =>
      match Queue_get v (Some TIMEOUT) with
      | GetRaisesEmpty => (WLoop, [QGet (Some TIMEOUT) None])   (* continue *)
      | GetBlocks => (WGet, [])
      | GetReturns result =>
          if is_None result then
            match exit_func a with
            | None => (WExit Graceful, [QGet (Some TIMEOUT) (Some result)])
            | Some (Return _) =>
                (WExit Graceful, [QGet (Some TIMEOUT) (Some result); CallExit])
            | Some (Raise e) =>
                (WExit (Uncaught e),
                 [QGet (Some TIMEOUT) (Some result); CallExit])
            end
          else
            match func a result with
            | Return _ =>
                (WLoop,
                 [QGet (Some TIMEOUT) (Some result); CallFunc result; TaskDone])
            | Raise e =>
                (WExit (Uncaught e),
                 [QGet (Some TIMEOUT) (Some result); CallFunc result])
            end
      end
  | WExit _ => (pc, [])
  end.

Fixpoint worker_run (a : worker_args) (vs : list view) (pc : worker_pc)
  : worker_pc * list event :=
  match vs with
  | [] => (pc, [])
  | v :: vs' =>
      let '(pc1, l1) := worker_step a v pc in
      let '(pc2, l2) := worker_run a vs' pc1 in
      (pc2, l1 ++ l2)
  end.

Definition worker (a : worker_args) (vs : list view) : worker_pc * list event :=
  worker_run a vs WLoop.

(** ** Reading a log *)

(** The items that went into the queue. *)
Fixpoint enqueued (l : list event) : list pyobj :=
  match l with
  | [] => []
  | QPut item _ true :: l' => item :: enqueued l'
  | _ :: l' => enqueued l'
  end.

(** The items that went in through line 58, with the timeout. *)
Fixpoint items_put (l : list event) : list pyobj :=
  match l with
  | [] => []
  | QPut item (Some _) true :: l' => item :: items_put l'
  | _ :: l' => items_put l'
  end.

(** The sentinels of line 68: the puts made without a timeout. *)
Fixpoint sentinels_put (l : list event) : nat :=
  match l with
  | [] => O
  | QPut _ None true :: l' => S (sentinels_put l')
  | _ :: l' => sentinels_put l'
  end.

(** The items that came out of the queue. *)
Fixpoint dequeued (l : list event) : list pyobj :=
  match l with
  | [] => []
  | QGet _ (Some item) :: l' => item :: dequeued l'
  | _ :: l' => dequeued l'
  end.

(** The items [func] was called on. *)
Fixpoint processed (l : list event) : list pyobj :=
  match l with
  | [] => []
  | CallFunc item :: l' => item :: processed l'
  | _ :: l' => processed l'
  end.

(** How often [exit_func] was called. *)
Fixpoint exit_calls (l : list event) : nat :=
  match l with
  | [] => O
  | CallExit :: l' => S (exit_calls l')
  | _ :: l' => exit_calls l'
  end.

(** The calls on the queue. *)
Definition is_queue_call (ev : event) : bool :=
  match ev with
  | QPut _ _ _ | QGet _ _ => true
  | _ => false
  end.

(** The timeout a queue call was made with; [None] for a call without one
    (and for the events that are no queue calls). *)
Definition call_timeout (ev : event) : option Z :=
  match ev with
  | QPut _ timeout _ => timeout
  | QGet timeout _ => timeout
  | _ => None
  end.

(** The queue calls of the source loop and of a worker. *)
Definition timed_put (ev : event) : Prop :=
  exists file done, ev = QPut file (Some TIMEOUT) done.

Definition timed_get (ev : event) : Prop :=
  exists res, ev = QGet (Some TIMEOUT) res.

(** A queue call is bounded when it carries a timeout. *)
Definition bounded_call (ev : event) : bool :=
  match call_timeout ev with
  | Some _ => true
  | None => negb (is_queue_call ev)
  end.

(** The elements of the source [filter_func] returns a true value on. *)
Definition accepts (a : enq_args) (file : pyobj) : bool :=
  match filter_func a file with
  | Return r => truthy r
  | Raise _ => false
  end.

(** [filter_func] returns a false value on [file]. *)
Definition rejects (a : enq_args) (file : pyobj) : Prop :=
  exists r, filter_func a file = Return r /\ truthy r = false.

(** [filter_func] returns (a true or a false value) on [file]. *)
Definition returns (a : enq_args) (file : pyobj) : Prop :=
  exists r, filter_func a file = Return r.

(** ** What [enqueuer] has put, at each control point *)

Definition item_put (file : pyobj) : event := QPut file (Some TIMEOUT) true.
Definition sentinel_put : event := QPut PyNone None true.

(** The puts of a log that went through. *)
Definition done_puts (l : list event) : list event :=
  filter (fun ev => match ev with QPut _ _ true => true | _ => false end) l.

(** The limit [n] as the loop applies it: the test comes after a put, so the
    loop is left once [i] reaches [n] and at least one item has gone in. *)
Definition limited (n : option Z) (l : list pyobj) : list pyobj :=
  match n with
  | None => l
  | Some m => firstn (Z.to_nat (Z.max m 1)) l
  end.

Definition filtered (a : enq_args) : list pyobj :=
  filter (accepts a) (iterator a).

(** The loop holds [file]; the elements before it are [before]. *)
Definition at_element (a : enq_args) (s : enq_state) (L : list event)
  (file : pyobj) : Prop :=
  exists before,
    iterator a = before ++ file :: e_iter s /\
    Forall (returns a) before /\
    done_puts L = map item_put (filter (accepts a) before) /\
    e_i s = Z.of_nat (length (filter (accepts a) before)) /\
    (limit_reached (n a) (e_i s) = false \/ e_i s = 0).

Definition enq_inv (a : enq_args) (s : enq_state) (L : list event) : Prop :=
  match e_pc s with
  | EStart => e_iter s = iterator a /\ e_i s = 0 /\ L = []
  | ELoop file => at_element a s L file
  | EPut file => at_element a s L file /\ accepts a file = true
  | ESentinels todo =>
      (todo <= Z.to_nat (n_workers a))%nat /\
      iterator a <> [] /\
      done_puts L =
        map item_put (limited (n a) (filtered a))
        ++ repeat sentinel_put (Z.to_nat (n_workers a) - todo)
  | EExit Graceful =>
      iterator a <> [] /\
      done_puts L =
        map item_put (limited (n a) (filtered a))
        ++ repeat sentinel_put (Z.to_nat (n_workers a))
  | EExit Killed =>
      exists file,
        at_element a s L file /\ accepts a file = true /\ kill_event a <> None
  | EExit (Uncaught e) =>
      (iterator a = [] /\ e = StopIteration /\ L = []) \/
      (exists file, at_element a s L file /\ filter_func a file = Raise e)
  end.

(** ** The pipeline: one enqueuer and its workers on one queue *)

Record worker_thread : Type := WorkerThread {
  w_args : worker_args;
  w_pc : worker_pc;
  w_log : list event
}.

Record pipeline : Type := Pipeline {
  maxsize : Z;                       (* Queue(maxsize) *)
  queue : list pyobj;                (* head first *)
  flags : nat -> bool;               (* the events that are set *)
  feeder : enq_state;
  feeder_log : list event;
  workers : list worker_thread
}.

(** [Queue.full()]: [0 < maxsize <= qsize]; a queue made with
    [maxsize <= 0] is never full. *)
Definition Queue_full (maxsize : Z) (q : list pyobj) : bool :=
  (0 <? maxsize) && (maxsize <=? Z.of_nat (length q)).

Definition view_of (p : pipeline) : view :=
  View (flags p) (Queue_full (maxsize p) (queue p)) (hd_error (queue p)).

(** What the scheduler, or the owner of the kill events, does next. *)
Inductive action : Type :=
| Feed                       (* the enqueuer thread takes a step *)
| Work (w : nat)             (* worker thread number [w] takes a step *)
| SetEvent (ev : nat).       (* somebody calls [ev.set()] *)

Definition pipeline_step (ea : enq_args) (act : action) (p : pipeline)
  : pipeline :=
  match act with
  | Feed =>
      let '(s', l) := enq_step ea (view_of p) (feeder p) in
      Pipeline (maxsize p) (queue p ++ enqueued l) (flags p)
               s' (feeder_log p ++ l) (workers p)
  | Work w =>
      match nth_error (workers p) w with
      | None => p
      | Some t =>
          let '(pc', l) := worker_step (w_args t) (view_of p) (w_pc t) in
          Pipeline (maxsize p) (skipn (length (dequeued l)) (queue p))
                   (flags p) (feeder p) (feeder_log p)
                   (firstn w (workers p)
                    ++ WorkerThread (w_args t) pc' (w_log t ++ l)
                    :: skipn (S w) (workers p))
      end
  | SetEvent ev =>
      Pipeline (maxsize p) (queue p)
               (fun ev' => if Nat.eqb ev' ev then true else flags p ev')
               (feeder p) (feeder_log p) (workers p)
  end.

Fixpoint pipeline_run (ea : enq_args) (sched : list action) (p : pipeline)
  : pipeline :=
  match sched with
  | [] => p
  | act :: sched' => pipeline_run ea sched' (pipeline_step ea act p)
  end.

(** All threads about to start, an empty queue, no event set. *)
Definition pipeline_init (ea : enq_args) (was : list worker_args)
  (maxsize : Z) : pipeline :=
  Pipeline maxsize [] (fun _ => false) (enq_init ea) []
           (map (fun wa => WorkerThread wa WLoop []) was).

Definition threadables (ea : enq_args) (was : list worker_args)
  (maxsize : Z) (sched : list action) : pipeline :=
  pipeline_run ea sched (pipeline_init ea was maxsize).

(** Nobody sets an event. *)
Definition no_cancellation (sched : list action) : bool :=
  forallb (fun act => match act with SetEvent _ => false | _ => true end)
          sched.

(** ** Small runs *)

Definition is_even (o : pyobj) : outcome :=
  match o with
  | PyInt z => Return (PyBool (Z.even z))
  | _ => Raise (Exception "TypeError")
  end.

Definition always (b : bool) (_ : pyobj) : outcome := Return (PyBool b).

Definition quiet : view := View (fun _ => false) false None.
Definition kill_set : view := View (fun _ => true) false None.

Definition scenario_A : enq_args :=
  EnqArgs [PyInt 1; PyInt 2; PyInt 3; PyInt 4; PyInt 5] is_even 1 None None.

(** ** What a worker has done, at each control point *)

(** How often a worker with these arguments calls [exit_func] on a
    sentinel: once if it was given one. *)
Definition exit_calls_due (wa : worker_args) : nat :=
  match exit_func wa with
  | Some _ => 1%nat
  | None => 0%nat
  end.

Definition worker_inv (wa : worker_args) (pc : worker_pc) (L : list event)
  : Prop :=
  Forall (fun item => item <> PyNone) (processed L) /\
  match pc with
  | WExit Graceful =>
      dequeued L = processed L ++ [PyNone] /\ exit_calls L = exit_calls_due wa
  | WExit (Uncaught _) =>
      (dequeued L = processed L /\ exit_calls L = 0%nat) \/
      (dequeued L = processed L ++ [PyNone] /\ exit_calls L = 1%nat)
  | WLoop | WGet | WExit Killed =>
      dequeued L = processed L /\ exit_calls L = 0%nat
  end.

(** One worker on the queue: what went in is what came out followed by what
    is still in the queue. *)
Definition fifo_inv (p : pipeline) : Prop :=
  match workers p with
  | [t] => enqueued (feeder_log p) = dequeued (w_log t) ++ queue p
  | _ => True
  end.

Definition pipeline_inv (ea : enq_args) (p : pipeline) : Prop :=
  enq_inv ea (feeder p) (feeder_log p) /\
  Forall (fun t => worker_inv (w_args t) (w_pc t) (w_log t)) (workers p) /\
  fifo_inv p.

(** ** The control state of a pipeline *)

(** The control state of a pipeline nobody cancels: queue, enqueuer state
    and the control points of the workers with arguments [was], around a
    queue made with [maxsize = m]. *)
Definition at_state (was : list worker_args) (m : Z) (p : pipeline)
  (q : list pyobj) (s : enq_state) (pcs : list worker_pc) : Prop :=
  maxsize p = m /\
  queue p = q /\
  (forall ev, flags p ev = false) /\
  feeder p = s /\
  map w_pc (workers p) = pcs /\
  map w_args (workers p) = was.

Definition quiet_view (maxsize : Z) (q : list pyobj) : view :=
  View (fun _ => false) (Queue_full maxsize q) (hd_error q).

(** A view in which a put goes through and the kill event of the enqueuer
    is not set. *)
Definition roomy (a : enq_args) (v : view) : Prop :=
  q_full v = false /\ kill_requested (kill_event a) v = false.

(** A worker whose [func] returns on every accepted item of the source and
    whose [exit_func] returns. *)
Definition worker_returns (ea : enq_args) (wa : worker_args) : Prop :=
  (forall item, In item (filtered ea) -> exists r, func wa item = Return r) /\
  (forall e, exit_func wa <> Some (Raise e)).

(** A [func] that returns on everything. *)
Definition noop : worker_args :=
  WorkerArgs (fun _ => Return PyNone) (Some (Return PyNone)) None.

(** ** Fair schedules *)

(** The control state of a pipeline nobody cancels: the queue, the state of
    the enqueuer and the control points of the workers. *)
Record control : Type := Control {
  c_queue : list pyobj;
  c_feeder : enq_state;
  c_pcs : list worker_pc
}.

(** [pipeline_step] on the control state, no event being set. *)
Definition control_step (ea : enq_args) (was : list worker_args) (m : Z)
  (act : action) (c : control) : control :=
  match act with
  | Feed =>
      let r := enq_step ea (quiet_view m (c_queue c)) (c_feeder c) in
      Control (c_queue c ++ enqueued (snd r)) (fst r) (c_pcs c)
  | Work w =>
      match nth_error was w, nth_error (c_pcs c) w with
      | Some wa, Some pc =>
          let r := worker_step wa (quiet_view m (c_queue c)) pc in
          Control (skipn (length (dequeued (snd r))) (c_queue c)) (c_feeder c)
                  (firstn w (c_pcs c) ++ fst r :: skipn (S w) (c_pcs c))
      | _, _ => c
      end
  | SetEvent _ => c
  end.

Fixpoint control_run (ea : enq_args) (was : list worker_args) (m : Z)
  (sched : list action) (c : control) : control :=
  match sched with
  | [] => c
  | act :: sched' => control_run ea was m sched' (control_step ea was m act c)
  end.

Definition at_control (was : list worker_args) (m : Z) (p : pipeline)
  (c : control) : Prop :=
  at_state was m p (c_queue c) (c_feeder c) (c_pcs c).

Definition control_init (ea : enq_args) (was : list worker_args) : control :=
  Control [] (enq_init ea) (repeat WLoop (length was)).

(** In a round every thread gets to run at least once and no event is
    set. *)
Definition fair_round (k : nat) (r : list action) : Prop :=
  no_cancellation r = true /\
  In Feed r /\
  forall w, (w < k)%nat -> In (Work w) r.

Definition is_running (pc : worker_pc) : bool :=
  match pc with
  | WLoop | WGet => true
  | WExit _ => false
  end.

Definition is_waiting (pc : worker_pc) : bool :=
  match pc with
  | WLoop => true
  | _ => false
  end.

Definition running (pcs : list worker_pc) : nat :=
  length (filter is_running pcs).

Definition feeder_exited (s : enq_state) : bool :=
  match e_pc s with
  | EExit _ => true
  | _ => false
  end.

Definition in_source (s : enq_state) : bool :=
  match e_pc s with
  | EStart | ELoop _ | EPut _ => true
  | _ => false
  end.

(** The sentinels the enqueuer has still to put. *)
Definition sentinels_todo (k : nat) (s : enq_state) : nat :=
  match e_pc s with
  | EStart | ELoop _ | EPut _ => k
  | ESentinels todo => todo
  | EExit _ => 0
  end.

(** A bound on the puts and moves the enqueuer has still to make. *)
Definition feeder_left (k : nat) (s : enq_state) : nat :=
  match e_pc s with
  | EStart | ELoop _ | EPut _ => length (e_iter s) + k + 2
  | ESentinels todo => todo + 1
  | EExit _ => 0
  end.

Definition work_left (k : nat) (c : control) : nat :=
  2 * feeder_left k (c_feeder c) + length (c_queue c).

(** The enqueuer is one step away from a put that would go through. *)
Definition feeder_bit (m : Z) (c : control) : nat :=
  match e_pc (c_feeder c) with
  | ELoop _ => if Queue_full m (c_queue c) then 0 else 1
  | _ => 0
  end.

(** The workers that are one step away from a get that would return. *)
Definition waiting_bit (c : control) : nat :=
  match c_queue c with
  | [] => 0
  | _ :: _ => length (filter is_waiting (c_pcs c))
  end.

(** The measure of a fair schedule: what is left to do, then the steps that
    only bring a thread from the top of its loop to its queue call. *)
Definition potential (m : Z) (k : nat) (c : control) : nat :=
  (k + 2) * work_left k c + feeder_bit m c + waiting_bit c.

(** An item every worker can process. *)
Definition item_ok (was : list worker_args) (item : pyobj) : Prop :=
  item <> PyNone /\
  Forall (fun wa => exists r, func wa item = Return r) was.

(** A rest of the source the enqueuer gets through. *)
Definition source_ok (ea : enq_args) (was : list worker_args)
  (l : list pyobj) : Prop :=
  Forall (fun file => returns ea file /\
                      (accepts ea file = true -> item_ok was file)) l.

Definition feeder_ok (ea : enq_args) (was : list worker_args)
  (s : enq_state) : Prop :=
  match e_pc s with
  | EStart => e_iter s <> [] /\ source_ok ea was (e_iter s)
  | ELoop file => source_ok ea was (file :: e_iter s)
  | EPut file => source_ok ea was (file :: e_iter s) /\ accepts ea file = true
  | ESentinels todo => (todo <= Z.to_nat (n_workers ea))%nat
  | EExit Graceful => True
  | EExit _ => False
  end.

(** The control states a pipeline nobody cancels goes through, when its
    workers are as many as [n_workers] says and return on every item: the
    queue holds items then sentinels, and there is one worker running for
    each sentinel that is still to be put or still in the queue. *)
Definition control_ok (ea : enq_args) (was : list worker_args) (c : control)
  : Prop :=
  length (c_pcs c) = length was /\
  length was = Z.to_nat (n_workers ea) /\
  Forall (fun wa => forall e, exit_func wa <> Some (Raise e)) was /\
  Forall (fun pc => pc = WLoop \/ pc = WGet \/ pc = WExit Graceful) (c_pcs c) /\
  feeder_ok ea was (c_feeder c) /\
  exists items j,
    c_queue c = items ++ repeat PyNone j /\
    Forall (item_ok was) items /\
    running (c_pcs c) = (sentinels_todo (length was) (c_feeder c) + j)%nat /\
    (in_source (c_feeder c) = true -> j = 0%nat) /\
    ((running (c_pcs c) < length was)%nat -> items = []).

(** What a step that does not lower [potential] leaves as it is. *)
Definition standing (c : control) : list pyobj * bool * list bool :=
  (c_queue c, feeder_exited (c_feeder c), map is_running (c_pcs c)).

(** What a step that left [potential] as it was has seen: the enqueuer, if
    it has not exited, a full queue; a running worker, an empty queue. *)
Definition stuck (m : Z) (act : action)
  (st : list pyobj * bool * list bool) : Prop :=
  let '(q, exited, runs) := st in
  match act with
  | Feed => exited = false -> Queue_full m q = true
  | Work w => nth_error runs w = Some true -> q = []
  | SetEvent _ => True
  end.

(** The number of fair rounds that is enough. *)
Definition rounds_bound (ea : enq_args) (was : list worker_args) : nat :=
  (length was + 2) * (2 * (length (iterator ea) + length was + 2)).

(** ** What [enqueuer] has read of its iterator *)

(** Where the iterator stands: the elements [consumed] have been dealt
    with, and what the iterator has not yielded is [e_iter].  After the
    loop the iterator is exhausted, or the loop was left by the limit right
    after an accepted element was put. *)
Definition cursor_inv (a : enq_args) (s : enq_state) (L : list event) : Prop :=
  match e_pc s with
  | EStart => e_iter s = iterator a /\ L = [] /\ e_i s = 0
  | ELoop file =>
      exists consumed,
        iterator a = consumed ++ file :: e_iter s /\
        items_put L = filter (accepts a) consumed /\
        e_i s = Z.of_nat (length (items_put L))
  | EPut file =>
      accepts a file = true /\
      exists consumed,
        iterator a = consumed ++ file :: e_iter s /\
        items_put L = filter (accepts a) consumed /\
        e_i s = Z.of_nat (length (items_put L))
  | ESentinels _ | EExit Graceful =>
      exists consumed,
        iterator a = consumed ++ e_iter s /\
        items_put L = filter (accepts a) consumed /\
        e_i s = Z.of_nat (length (items_put L)) /\
        (e_iter s = [] \/
         (limit_reached (n a) (e_i s) = true /\
          exists before file,
            consumed = before ++ [file] /\ accepts a file = true))
  | EExit _ => True
  end.

(** The enqueuer is not inside the put of line 58. *)
Definition not_putting (s : enq_state) : Prop :=
  match e_pc s with
  | EPut _ => False
  | _ => True
  end.

(** The source loop has been left. *)
Definition left_source (s : enq_state) : Prop :=
  match e_pc s with
  | ESentinels _ | EExit _ => True
  | _ => False
  end.

(** ** [worker] between its calls *)

(** How often [queue.task_done()] (line 98) was called. *)
Fixpoint task_done_calls (l : list event) : nat :=
  match l with
  | [] => O
  | TaskDone :: l' => S (task_done_calls l')
  | _ :: l' => task_done_calls l'
  end.

Definition has_exited (pc : worker_pc) : Prop :=
  match pc with
  | WExit _ => True
  | WLoop | WGet => False
  end.

(** The control points of [worker] when the other threads may also run
    between its [get] of line 91 and its [task_done] of line 98, that is
    while [func] or [exit_func] runs. *)
Inductive fine_pc : Type :=
| FLoop                       (* line 86: top of [while True] *)
| FGet                        (* line 91: queue.get(timeout=10) *)
| FGot (result : pyobj)       (* line 94: [result] is bound; [func], or
                                 [exit_func], has not returned yet *)
| FDone                       (* line 98: queue.task_done() *)
| FExit (st : status).

Definition fine_step (a : worker_args) (v : view) (pc : fine_pc)
  : fine_pc * list event :=
  match pc with
  | FLoop =>
      if kill_requested (w_kill_event a) v
      then (FExit Killed, [])
      else (FGet, [])
  | FGet =>
      match Queue_get v (Some TIMEOUT) with
      | GetRaisesEmpty => (FLoop, [QGet (Some TIMEOUT) None])   (* continue *)
      | GetBlocks => (FGet, [])
      | GetReturns result =>
          (FGot result, [QGet (Some TIMEOUT) (Some result)])
      end
  | FGot result =>
      if is_None result then
        match exit_func a with
        | None => (FExit Graceful, [])
        | Some (Return _) => (FExit Graceful, [CallExit])
        | Some (Raise e) => (FExit (Uncaught e), [CallExit])
        end
      else
        match func a result with
        | Return _ => (FDone, [CallFunc result])
        | Raise e => (FExit (Uncaught e), [CallFunc result])
        end
  | FDone => (FLoop, [TaskDone])
  | FExit _ => (pc, [])
  end.

Fixpoint fine_run (a : worker_args) (vs : list view) (pc : fine_pc)
  : fine_pc * list event :=
  match vs with
  | [] => (pc, [])
  | v :: vs' =>
      let '(pc1, l1) := fine_step a v pc in
      let '(pc2, l2) := fine_run a vs' pc1 in
      (pc2, l1 ++ l2)
  end.

Definition worker_fine (a : worker_args) (vs : list view)
  : fine_pc * list event :=
  fine_run a vs FLoop.

(** The control points [worker_step] stops at. *)
Definition fine_of (pc : worker_pc) : fine_pc :=
  match pc with
  | WLoop => FLoop
  | WGet => FGet
  | WExit st => FExit st
  end.

(** The item a worker has taken from the queue and has not called
    [task_done] for: the one it is busy with, between line 91 and line 98,
    or the one it stopped on, when it left its loop at line 96 or by an
    exception. *)
Definition in_hand (pc : fine_pc) : nat :=
  match pc with
  | FGot _ | FDone | FExit Graceful | FExit (Uncaught _) => 1%nat
  | FLoop | FGet | FExit Killed => 0%nat
  end.

(** The pipeline, with the workers taking these steps. *)
Record fine_thread : Type := FineThread {
  f_args : worker_args;
  f_pc : fine_pc;
  f_log : list event
}.

Record fine_pipeline : Type := FinePipeline {
  f_maxsize : Z;
  f_queue : list pyobj;
  f_flags : nat -> bool;
  f_feeder : enq_state;
  f_feeder_log : list event;
  f_workers : list fine_thread
}.

Definition fine_view_of (p : fine_pipeline) : view :=
  View (f_flags p) (Queue_full (f_maxsize p) (f_queue p))
       (hd_error (f_queue p)).

Definition fine_pipeline_step (ea : enq_args) (act : action)
  (p : fine_pipeline) : fine_pipeline :=
  match act with
  | Feed =>
      let '(s', l) := enq_step ea (fine_view_of p) (f_feeder p) in
      FinePipeline (f_maxsize p) (f_queue p ++ enqueued l) (f_flags p)
                   s' (f_feeder_log p ++ l) (f_workers p)
  | Work w =>
      match nth_error (f_workers p) w with
      | None => p
      | Some t =>
          let '(pc', l) := fine_step (f_args t) (fine_view_of p) (f_pc t) in
          FinePipeline (f_maxsize p)
                       (skipn (length (dequeued l)) (f_queue p))
                       (f_flags p) (f_feeder p) (f_feeder_log p)
                       (firstn w (f_workers p)
                        ++ FineThread (f_args t) pc' (f_log t ++ l)
                        :: skipn (S w) (f_workers p))
      end
  | SetEvent ev =>
      FinePipeline (f_maxsize p) (f_queue p)
                   (fun ev' => if Nat.eqb ev' ev then true else f_flags p ev')
                   (f_feeder p) (f_feeder_log p) (f_workers p)
  end.

Fixpoint fine_pipeline_run (ea : enq_args) (sched : list action)
  (p : fine_pipeline) : fine_pipeline :=
  match sched with
  | [] => p
  | act :: sched' =>
      fine_pipeline_run ea sched' (fine_pipeline_step ea act p)
  end.

Definition fine_pipeline_init (ea : enq_args) (was : list worker_args)
  (maxsize : Z) : fine_pipeline :=
  FinePipeline maxsize [] (fun _ => false) (enq_init ea) []
               (map (fun wa => FineThread wa FLoop []) was).

Definition fine_threadables (ea : enq_args) (was : list worker_args)
  (maxsize : Z) (sched : list action) : fine_pipeline :=
  fine_pipeline_run ea sched (fine_pipeline_init ea was maxsize).

(** The calls of [task_done] by all the workers, and the items the workers
    have in hand. *)
Definition acknowledged (p : fine_pipeline) : nat :=
  list_sum (map (fun t => task_done_calls (f_log t)) (f_workers p)).

Definition items_in_hand (p : fine_pipeline) : nat :=
  list_sum (map (fun t => in_hand (f_pc t)) (f_workers p)).

(** ** Several workers on one queue *)

From Stdlib Require Import Permutation.

(** [l] is [g] with some of its elements left out: the elements of [l] are
    elements of [g], in the order they have in [g]. *)
Inductive subseq {A : Type} : list A -> list A -> Prop :=
| subseq_nil : subseq [] []
| subseq_skip (x : A) (l g : list A) : subseq l g -> subseq l (x :: g)
| subseq_take (x : A) (l g : list A) : subseq l g -> subseq (x :: l) (x :: g).

Definition not_None (o : pyobj) : bool := negb (is_None o).

(** What each worker has taken from the queue. *)
Definition handed_out (p : pipeline) : list (list pyobj) :=
  map (fun t => dequeued (w_log t)) (workers p).

(** The items [func] was called on, by all the workers. *)
Definition all_processed (p : pipeline) : list pyobj :=
  concat (map (fun t => processed (w_log t)) (workers p)).

(** The queue hands out what was put into it, first in first out, each
    item to one worker: [G] is the sequence of the items handed out. *)
Definition history_inv (p : pipeline) : Prop :=
  exists G,
    enqueued (feeder_log p) = G ++ queue p /\
    Permutation (concat (handed_out p)) G /\
    Forall (fun d => subseq d G) (handed_out p).

Definition exited_gracefully (t : worker_thread) : bool :=
  match w_pc t with
  | WExit Graceful => true
  | _ => false
  end.

(** No worker is left to take anything from the queue. *)
Definition no_consumer (p : pipeline) : Prop :=
  Forall (fun t => has_exited (w_pc t)) (workers p).

(** ** Console output: [__clrd] and the [print]s *)

From Stdlib Require Import Ascii.

(** [str.upper], on ASCII letters. *)
Definition upper_char (c : ascii) : ascii :=
  let k := nat_of_ascii c in
  if ((97 <=? k) && (k <=? 122))%nat then ascii_of_nat (k - 32) else c.

Fixpoint upper (s : string) : string :=
  match s with
  | EmptyString => EmptyString
  | String c s' => String (upper_char c) (upper s')
  end.

(** The attributes of an object, by name, as the strings they format to;
    [None]: [getattr] raises [AttributeError]. *)
Definition attributes : Type := string -> option string.

(** The module globals [Fore] and [Style]: bound by the import of line 18,
    not bound when that import raised [ImportError] (lines 19-20). *)
Record globals : Type := Globals {
  Fore : option attributes;
  Style : option attributes
}.

Definition NameError : pyexn := Exception "NameError".
Definition AttributeError : pyexn := Exception "AttributeError".
Definition TypeError : pyexn := Exception "TypeError".
Definition AssertionError : pyexn := Exception "AssertionError".

Inductive result (A : Type) : Type :=
| Ok (a : A)
| Error (e : pyexn).

Arguments Ok {A} a.
Arguments Error {A} e.

(** Lines 22-28.  The two [getattr] are inside the [try]; looking up an
    unbound global raises [NameError], which the [except] clause does not
    catch; [Style.RESET_ALL] is outside the [try]. *)
Definition __clrd (g : globals) (text color style : string) : result string :=
  match Fore g with
  | None => Error NameError
  | Some fore =>
      match fore (upper color) with
      | None => Ok text
      | Some c =>
          match Style g with
          | None => Error NameError
          | Some sty =>
              match sty (upper style) with
              | None => Ok text
              | Some s =>
                  match sty "RESET_ALL"%string with
                  | None => Error AttributeError
                  | Some reset => Ok (c ++ s ++ text ++ reset)%string
                  end
              end
          end
      end
  end.

(** Lines 55 and 69: the line printed, or the exception that leaves the
    f-string.  [style] has its default ["normal"]. *)
Definition enqueuer_print (g : globals) (what color : string)
  : result string :=
  match __clrd g "Enqueuer" "magenta" "normal" with
  | Error e => Error e
  | Ok a =>
      match __clrd g what color "normal" with
      | Error e => Error e
      | Ok b => Ok (a ++ " " ++ b)%string
      end
  end.

(** How a call of [enqueuer] that has left its loop ends: with the line it
    prints before it returns, or with an exception. *)
Definition enqueuer_end (g : globals) (st : status) : result string :=
  match st with
  | Killed => enqueuer_print g "killed" "red"
  | Graceful => enqueuer_print g "exited gracefully" "green"
  | Uncaught e => Error e
  end.

(** Lines 88 and 99; [name] is [func.__name__], [None] when [func] has no
    such attribute. *)
Definition worker_print (g : globals) (name : option string)
  (what color : string) : result string :=
  match __clrd g "Worker" "yellow" "normal" with
  | Error e => Error e
  | Ok a =>
      match name with
      | None => Error AttributeError
      | Some nm =>
          match __clrd g ("<" ++ nm ++ ">") "yellow" "dim" with
          | Error e => Error e
          | Ok b =>
              match __clrd g what color "normal" with
              | Error e => Error e
              | Ok c => Ok (a ++ b ++ " " ++ c)%string
              end
          end
      end
  end.

Definition worker_end (g : globals) (name : option string) (st : status)
  : result string :=
  match st with
  | Killed => worker_print g name "killed" "red"
  | Graceful => worker_print g name "exited gracefully" "green"
  | Uncaught e => Error e
  end.

(** The escape sequences of the colours and styles the module uses. *)
Definition CSI (code : string) : string :=
  String (ascii_of_nat 27) ("[" ++ code ++ "m")%string.

Definition colorama : globals :=
  Globals
    (Some (fun name =>
             if String.eqb name "RED" then Some (CSI "31")
             else if String.eqb name "GREEN" then Some (CSI "32")
             else if String.eqb name "YELLOW" then Some (CSI "33")
             else if String.eqb name "MAGENTA" then Some (CSI "35")
             else None))
    (Some (fun name =>
             if String.eqb name "RESET_ALL" then Some (CSI "0")
             else if String.eqb name "DIM" then Some (CSI "2")
             else if String.eqb name "NORMAL" then Some (CSI "22")
             else None)).

Definition no_colorama : globals := Globals None None.

(** ** The classes [Enqueuer] and [Worker] *)

Section Threads.

Variable value : Type.

(** The function objects [enqueuer] and [worker], and the tuple made of a
    list of values. *)
Variable fn_enqueuer fn_worker : value.
Variable tuple : list value -> value.

(** The parameters of [threading.Thread.__init__] that can only be given
    by keyword ([daemon], and what a version of Python adds to it). *)
Variable keyword_only : list string.

(** [v is None] *)
Variable is_none : value -> bool.

(** [d.pop(key, None)], on a dictionary kept as the list of its items. *)
Definition dict_pop (key : string) (d : list (string * value))
  : list (string * value) :=
  filter (fun kv => negb (String.eqb (fst kv) key)) d.

(** [d.get(key)] *)
Definition dict_get (key : string) (d : list (string * value))
  : option value :=
  match find (fun kv => String.eqb (fst kv) key) d with
  | Some kv => Some (snd kv)
  | None => None
  end.

(** The arguments of a call. *)
Record call : Type := Call {
  positional : list value;
  keywords : list (string * value)
}.

(** [f(k1=v1, ..., *args, **kwargs)]: a keyword that is given and is also
    a key of [kwargs] is a [TypeError]. *)
Definition call_args (given : list (string * value)) (args : list value)
  (kwargs : list (string * value)) : result call :=
  if existsb (fun kv => existsb (String.eqb (fst kv)) (map fst given)) kwargs
  then Error TypeError
  else Ok (Call args (given ++ kwargs)).

(** The parameters of [threading.Thread.__init__] after [self] that take
    a positional argument, in their order. *)
Definition Thread_parameters : list string :=
  ["group"; "target"; "name"; "args"; "kwargs"]%string.

(** The arguments of a call bound to the parameters of the function
    called: the positional arguments go to [parameters] in order, the
    keywords to the parameter they name.  More positional arguments than
    [parameters], a parameter given by position and by keyword, and a
    keyword that names no parameter are a [TypeError]. *)
Definition bind_args (parameters : list string) (c : call)
  : result (list (string * value)) :=
  if (length parameters <? length (positional c))%nat then Error TypeError
  else
    let by_position := combine parameters (positional c) in
    if existsb (fun kv => existsb (String.eqb (fst kv))
                                  (map fst by_position)) (keywords c)
    then Error TypeError
    else if existsb (fun kv => negb (existsb (String.eqb (fst kv))
                                             (parameters ++ keyword_only)))
                    (keywords c)
    then Error TypeError
    else Ok (by_position ++ keywords c).

(** [threading.Thread.__init__] as far as its arguments go: they are bound
    to its parameters, and its first statement is [assert group is None]. *)
Definition Thread_init (c : call) : result (list (string * value)) :=
  match bind_args Thread_parameters c with
  | Error e => Error e
  | Ok bound =>
      match dict_get "group" bound with
      | Some g => if is_none g then Ok bound else Error AssertionError
      | None => Ok bound
      end
  end.

(** Lines 123-125: the call of [Thread.__init__] that [Enqueuer.__init__]
    makes. *)
Definition Enqueuer_init (queue iterator filter_func n_workers n kill_event
                          : value)
  (args : list value) (kwargs : list (string * value))
  : result (list (string * value)) :=
  let kwargs := dict_pop "target" kwargs in
  let kwargs := dict_pop "args" kwargs in
  match call_args [("target"%string, fn_enqueuer);
                   ("args"%string,
                    tuple [queue; iterator; filter_func; n_workers; n;
                           kill_event])]
                  args kwargs with
  | Error e => Error e
  | Ok c => Thread_init c
  end.

(** Lines 141-143. *)
Definition Worker_init (queue func exit_func kill_event : value)
  (args : list value) (kwargs : list (string * value))
  : result (list (string * value)) :=
  let kwargs := dict_pop "target" kwargs in
  let kwargs := dict_pop "args" kwargs in
  match call_args [("target"%string, fn_worker);
                   ("args"%string,
                    tuple [queue; func; exit_func; kill_event])]
                  args kwargs with
  | Error e => Error e
  | Ok c => Thread_init c
  end.

End Threads.

Arguments dict_pop {value} key d.
Arguments dict_get {value} key d.
Arguments positional {value} c.
Arguments keywords {value} c.
Arguments call_args {value} given args kwargs.
Arguments bind_args {value} keyword_only parameters c.
Arguments Thread_init {value} keyword_only is_none c.

(** ** Counting the steps of a schedule *)

(** How often the enqueuer, and worker [w], are scheduled. *)
Definition feeds (sched : list action) : nat :=
  length (filter (fun act => match act with Feed => true | _ => false end)
                 sched).

Definition steps_of (w : nat) (sched : list action) : nat :=
  length (filter (fun act => match act with
                             | Work w' => Nat.eqb w' w
                             | _ => false
                             end) sched).

(** The steps a worker needs to reach the test of line 87 and leave. *)
Definition steps_to_kill (pc : worker_pc) : nat :=
  match pc with
  | WGet => 2
  | WLoop => 1
  | WExit _ => 0
  end.

(** The items a worker may still take before it gets to that test. *)
Definition gets_to_kill (pc : worker_pc) : nat :=
  match pc with
  | WGet => 1
  | WLoop | WExit _ => 0
  end.

(** ** A predicate that raises *)

(** A predicate that lets everything through, [None] included, and raises
    on a string. *)
Definition not_a_string (o : pyobj) : outcome :=
  match o with
  | PyStr _ => Raise (Exception "TypeError")
  | _ => Return (PyBool true)
  end.

Section ListFacts.

Lemma done_puts_app (l1 l2 : list event) :
  done_puts (l1 ++ l2) = done_puts l1 ++ done_puts l2.
Proof. apply filter_app. Qed.

Lemma enqueued_app (l1 l2 : list event) :
  enqueued (l1 ++ l2) = enqueued l1 ++ enqueued l2.
Proof.
  induction l1 as [|ev l1 IH]; simpl; [reflexivity|].
  destruct ev as [item t [|]| | | |]; simpl; now rewrite IH.
Qed.

Lemma dequeued_app (l1 l2 : list event) :
  dequeued (l1 ++ l2) = dequeued l1 ++ dequeued l2.
Proof.
  induction l1 as [|ev l1 IH]; simpl; [reflexivity|].
  destruct ev as [| t [item|] | | |]; simpl; now rewrite IH.
Qed.

Lemma processed_app (l1 l2 : list event) :
  processed (l1 ++ l2) = processed l1 ++ processed l2.
Proof.
  induction l1 as [|ev l1 IH]; simpl; [reflexivity|].
  destruct ev; simpl; now rewrite IH.
Qed.

Lemma exit_calls_app (l1 l2 : list event) :
  exit_calls (l1 ++ l2) = (exit_calls l1 + exit_calls l2)%nat.
Proof.
  induction l1 as [|ev l1 IH]; simpl; [reflexivity|].
  destruct ev; simpl; now rewrite IH.
Qed.

Lemma enqueued_done_puts (l : list event) :
  enqueued (done_puts l) = enqueued l.
Proof.
  induction l as [|ev l IH]; simpl; [reflexivity|].
  destruct ev as [item t [|]| | | |]; simpl; now rewrite ?IH.
Qed.

Lemma items_put_done_puts (l : list event) :
  items_put (done_puts l) = items_put l.
Proof.
  induction l as [|ev l IH]; simpl; [reflexivity|].
  destruct ev as [item [t|] [|]| | | |]; simpl; now rewrite ?IH.
Qed.

Lemma sentinels_put_done_puts (l : list event) :
  sentinels_put (done_puts l) = sentinels_put l.
Proof.
  induction l as [|ev l IH]; simpl; [reflexivity|].
  destruct ev as [item [t|] [|]| | | |]; simpl; now rewrite ?IH.
Qed.

(** The three readings of a log made of item puts followed by sentinels. *)
Lemma enqueued_shape (items : list pyobj) (k : nat) :
  enqueued (map item_put items ++ repeat sentinel_put k)
  = items ++ repeat PyNone k.
Proof.
  induction items as [|x items IH]; simpl.
  - induction k as [|k IHk]; simpl; [reflexivity | now rewrite IHk].
  - now rewrite IH.
Qed.

Lemma items_put_shape (items : list pyobj) (k : nat) :
  items_put (map item_put items ++ repeat sentinel_put k) = items.
Proof.
  induction items as [|x items IH]; simpl.
  - induction k as [|k IHk]; simpl; [reflexivity | exact IHk].
  - now rewrite IH.
Qed.

Lemma sentinels_put_shape (items : list pyobj) (k : nat) :
  sentinels_put (map item_put items ++ repeat sentinel_put k) = k.
Proof.
  induction items as [|x items IH]; simpl.
  - induction k as [|k IHk]; simpl; [reflexivity | now rewrite IHk].
  - exact IH.
Qed.

Lemma map_replace_nth {A B : Type} (f : A -> B) (t t' : A) :
  f t' = f t ->
  forall (l : list A) (w : nat),
    nth_error l w = Some t ->
    map f (firstn w l ++ t' :: skipn (S w) l) = map f l.
Proof.
  intros Hf. induction l as [|x l IH]; intros [|w] Hnth; try discriminate.
  - injection Hnth as ->. simpl. now rewrite Hf.
  - simpl in *. now rewrite IH.
Qed.

Lemma repeat_snoc {A : Type} (x : A) (k : nat) :
  repeat x k ++ [x] = repeat x (S k).
Proof.
  induction k as [|k IH]; simpl; [reflexivity | now rewrite IH].
Qed.

End ListFacts.

Section EnqueuerInvariant.

Variable a : enq_args.

Lemma filter_snoc (before : list pyobj) (file : pyobj) :
  filter (accepts a) (before ++ [file])
  = filter (accepts a) before ++ (if accepts a file then [file] else []).
Proof. rewrite filter_app. simpl. now destruct (accepts a file). Qed.

Lemma limited_all (m : option Z) (l : list pyobj) :
  limit_reached m (Z.of_nat (length l)) = false \/ Z.of_nat (length l) = 0 ->
  limited m l = l.
Proof.
  destruct m as [m|]; simpl; [|reflexivity].
  intros H. apply firstn_all2.
  destruct H as [H|H]; [apply Z.leb_gt in H|]; lia.
Qed.

Lemma limited_cut (m : Z) (l1 l2 : list pyobj) (x : pyobj) :
  limit_reached (Some m) (Z.of_nat (length l1) + 1) = true ->
  limit_reached (Some m) (Z.of_nat (length l1)) = false
  \/ Z.of_nat (length l1) = 0 ->
  limited (Some m) (l1 ++ x :: l2) = l1 ++ [x].
Proof.
  simpl. intros Hr Hn. apply Z.leb_le in Hr.
  assert (Hk : Z.to_nat (Z.max m 1) = S (length l1)).
  { destruct Hn as [Hn|Hn]; [apply Z.leb_gt in Hn|]; lia. }
  rewrite Hk, firstn_app, firstn_all2 by lia.
  replace (S (length l1) - length l1)%nat with 1%nat by lia.
  reflexivity.
Qed.

Lemma accepts_returns (file : pyobj) :
  accepts a file = true -> returns a file.
Proof.
  unfold accepts, returns. destruct (filter_func a file) as [r|e];
    [eauto | discriminate].
Qed.

(** Moving on to the next element after [file] has been dealt with. *)
Lemma enq_advance_inv (before rest : list pyobj) (file : pyobj) (i : Z)
  (L : list event) :
  iterator a = before ++ file :: rest ->
  Forall (returns a) (before ++ [file]) ->
  done_puts L = map item_put (filter (accepts a) (before ++ [file])) ->
  i = Z.of_nat (length (filter (accepts a) (before ++ [file]))) ->
  limit_reached (n a) i = false \/ i = 0 ->
  enq_inv a (enq_advance a rest i) L.
Proof.
  intros Hit Hret Hputs Hi Hlim.
  destruct rest as [|x rest]; unfold enq_inv; simpl.
  - split; [lia|]. split.
    { rewrite Hit. now destruct before. }
    rewrite Nat.sub_diag. simpl. rewrite app_nil_r.
    unfold filtered. rewrite Hit, Hputs. f_equal.
    symmetry. apply limited_all. now rewrite <- Hi.
  - exists (before ++ [file]). simpl.
    rewrite <- app_assoc. simpl. auto.
Qed.

Lemma enq_step_inv (v : view) (s : enq_state) (L : list event) :
  enq_inv a s L ->
  enq_inv a (fst (enq_step a v s)) (L ++ snd (enq_step a v s)).
Proof.
  destruct s as [pc it i]. unfold enq_inv, enq_step. simpl.
  destruct pc as [|file|file|[|todo]|[| |e]]; simpl.
  - (* line 51 *)
    intros (Hit & Hi & HL). subst.
    destruct (iterator a) as [|file it'] eqn:E; simpl.
    + now left.
    + exists []. simpl. rewrite E. repeat split; auto.
  - (* line 53 *)
    intros (before & Hit & Hret & Hputs & Hi & Hlim).
    simpl in Hit, Hi, Hlim.
    destruct (filter_func a file) as [r|e] eqn:Ef; simpl.
    2:{ right. exists file. split; [|assumption].
        exists before. simpl. rewrite app_nil_r. auto. }
    assert (Hacc : accepts a file = truthy r)
      by (unfold accepts; now rewrite Ef).
    destruct (truthy r); simpl.
    + assert (Hat : at_element a (EnqState (EExit Killed) it i) (L ++ [])
                      file)
        by (exists before; simpl; rewrite app_nil_r; auto).
      destruct (kill_requested (kill_event a) v) eqn:Ek; simpl.
      * exists file. repeat split; try assumption.
        intros Hk. rewrite Hk in Ek. discriminate.
      * split; [exact Hat | assumption].
    + rewrite app_nil_r.
      apply enq_advance_inv with (before := before) (file := file);
        try assumption.
      * apply Forall_app. split; [assumption|].
        constructor; [|constructor]. unfold returns. eauto.
      * now rewrite filter_snoc, Hacc, app_nil_r.
      * now rewrite filter_snoc, Hacc, app_nil_r.
  - (* line 58 *)
    intros ((before & Hit & Hret & Hputs & Hi & Hlim) & Hacc).
    simpl in Hit, Hi, Hlim.
    unfold Queue_put. destruct (q_full v); simpl.
    + exists before. simpl. rewrite done_puts_app. simpl.
      rewrite app_nil_r. auto.
    + assert (Hputs' : done_puts (L ++ [QPut file (Some TIMEOUT) true])
                       = map item_put (filter (accepts a) (before ++ [file]))).
      { rewrite done_puts_app, filter_snoc, Hacc, map_app, Hputs.
        reflexivity. }
      assert (Hlen : i + 1
                     = Z.of_nat (length (filter (accepts a)
                                           (before ++ [file])))).
      { rewrite filter_snoc, Hacc, length_app. simpl. lia. }
      destruct (limit_reached (n a) (i + 1)) eqn:El; simpl.
      * split; [lia|]. split.
        { rewrite Hit. now destruct before. }
        rewrite Nat.sub_diag. simpl. rewrite app_nil_r, Hputs'.
        f_equal. unfold filtered. rewrite Hit, !filter_app. simpl.
        rewrite Hacc.
        destruct (n a) as [m|]; [|discriminate].
        symmetry. apply limited_cut; now rewrite <- Hi.
      * apply enq_advance_inv with (before := before) (file := file);
          try assumption; auto.
        apply Forall_app. split; [assumption|].
        constructor; [|constructor]. now apply accepts_returns.
  - (* line 67, no round left *)
    intros (_ & Hne & Hputs). rewrite app_nil_r, Nat.sub_0_r in *. auto.
  - (* line 68 *)
    intros (Hle & Hne & Hputs).
    unfold Queue_put. destruct (q_full v); simpl.
    + rewrite app_nil_r. auto.
    + split; [lia|]. split; [assumption|].
      rewrite done_puts_app, Hputs. simpl.
      rewrite <- app_assoc. f_equal.
      change [QPut PyNone None true] with [sentinel_put].
      rewrite repeat_snoc. f_equal. lia.
  - intros (file & (before & H) & Hacc & Hk).
    exists file. rewrite app_nil_r. split; [exists before|]; auto.
  - rewrite app_nil_r. auto.
  - rewrite app_nil_r. intros [H|(file & (before & H) & Hf)]; [now left|].
    right. exists file. split; [exists before|]; auto.
Qed.

Lemma enq_run_inv (vs : list view) :
  forall (s : enq_state) (L : list event),
    enq_inv a s L ->
    enq_inv a (fst (enq_run a vs s)) (L ++ snd (enq_run a vs s)).
Proof.
  induction vs as [|v vs IH]; intros s L Hinv; simpl.
  - now rewrite app_nil_r.
  - pose proof (enq_step_inv v s L Hinv) as Hstep.
    destruct (enq_step a v s) as [s1 l1]. simpl in Hstep.
    specialize (IH s1 (L ++ l1) Hstep).
    destruct (enq_run a vs s1) as [s2 l2]. simpl in *.
    now rewrite app_assoc.
Qed.

Lemma enqueuer_inv (vs : list view) :
  enq_inv a (fst (enqueuer a vs)) (snd (enqueuer a vs)).
Proof.
  apply (enq_run_inv vs (enq_init a) []).
  unfold enq_inv. simpl. auto.
Qed.

End EnqueuerInvariant.

Example scenario_A_feeder :
  enqueuer scenario_A (repeat quiet 10)
  = (EnqState (EExit Graceful) [] 2,
     [item_put (PyInt 2); item_put (PyInt 4); sentinel_put]).
Proof. reflexivity. Qed.

Example scenario_B_feeder :
  let a := EnqArgs (map PyInt [1; 2; 3; 4; 5; 6; 7; 8; 9; 10]) (always true)
                   2 (Some 3) None in
  enqueued (snd (enqueuer a (repeat quiet 10)))
  = [PyInt 1; PyInt 2; PyInt 3; PyNone; PyNone].
Proof. reflexivity. Qed.

(** ** Runs of one component *)

Section Runs.

Variable a : enq_args.

Lemma enq_run_exit (vs : list view) (st : status) (it : list pyobj) (i : Z) :
  enq_run a vs (EnqState (EExit st) it i) = (EnqState (EExit st) it i, []).
Proof.
  induction vs as [|v vs IH]; simpl; [reflexivity|]. now rewrite IH.
Qed.

Lemma enq_run_app (vs1 vs2 : list view) (s : enq_state) :
  enq_run a (vs1 ++ vs2) s
  = (fst (enq_run a vs2 (fst (enq_run a vs1 s))),
     snd (enq_run a vs1 s) ++ snd (enq_run a vs2 (fst (enq_run a vs1 s)))).
Proof.
  revert s. induction vs1 as [|v vs1 IH]; intros s; simpl.
  - now destruct (enq_run a vs2 s).
  - destruct (enq_step a v s) as [s1 l1]. rewrite IH.
    destruct (enq_run a vs1 s1) as [s2 l2]. simpl.
    destruct (enq_run a vs2 s2) as [s3 l3]. simpl.
    now rewrite app_assoc.
Qed.

Lemma worker_run_exit (wa : worker_args) (vs : list view) (st : status) :
  worker_run wa vs (WExit st) = (WExit st, []).
Proof.
  induction vs as [|v vs IH]; simpl; [reflexivity|]. now rewrite IH.
Qed.

Lemma enq_run_rejected (ev : nat) (file : pyobj) (rest : list pyobj) (i : Z) :
  kill_event a = Some ev ->
  accepts a file = true ->
  forall (before : list pyobj) (vs : list view),
    Forall (rejects a) before ->
    Forall (fun v => is_set v ev = true) vs ->
    (length before < length vs)%nat ->
    enq_run a vs (enq_advance a (before ++ file :: rest) i)
    = (EnqState (EExit Killed) rest i, []).
Proof.
  intros Hk Hacc. unfold accepts in Hacc.
  induction before as [|y before IH]; intros vs Hrej Hset Hlen;
    destruct vs as [|v vs]; simpl in Hlen; try lia;
    inversion Hset as [|? ? Hv Hvs]; subst; simpl.
  - unfold enq_step. simpl.
    destruct (filter_func a file) as [r|]; [|discriminate].
    rewrite Hacc. unfold kill_requested. rewrite Hk, Hv.
    now rewrite enq_run_exit.
  - inversion Hrej as [|? ? (r & Hr & Ht) Hrej']; subst.
    unfold enq_step. simpl. rewrite Hr, Ht.
    rewrite (IH vs Hrej' Hvs) by lia. reflexivity.
Qed.

End Runs.

(** ** Properties of [enqueuer] alone *)

(** C1, at the input where the code leaves it: with [n = 0] the limit test
    of line 61 is only reached after the put of line 58, so one item goes
    into the queue before the sentinel although at most [min(0, 1) = 0]
    should. *)
Theorem enqueuer_limit_zero_enqueues_one :
  let a := EnqArgs [PyInt 1] (always true) 1 (Some 0) None in
  let r := enqueuer a (repeat quiet 5) in
  e_pc (fst r) = EExit Graceful /\
  enqueued (snd r) = [PyInt 1; PyNone] /\
  length (items_put (snd r)) = 1%nat /\
  Z.min 0 (Z.of_nat (length (filter (accepts a) (iterator a)))) = 0.
Proof. vm_compute. repeat split. Qed.

(** For the limits the loop does honour: the number of items is the minimum
    of [max(n, 1)] and of the number of accepted elements. *)
Lemma limited_length (m : Z) (l : list pyobj) :
  length (limited (Some m) l) = Nat.min (Z.to_nat (Z.max m 1)) (length l).
Proof. simpl. apply length_firstn. Qed.

Lemma enqueuer_items_before_sentinels (a : enq_args) (vs : list view) :
  e_pc (fst (enqueuer a vs)) = EExit Graceful ->
  enqueued (snd (enqueuer a vs))
  = limited (n a) (filtered a) ++ repeat PyNone (Z.to_nat (n_workers a)) /\
  items_put (snd (enqueuer a vs)) = limited (n a) (filtered a) /\
  sentinels_put (snd (enqueuer a vs)) = Z.to_nat (n_workers a).
Proof.
  intros Hpc. pose proof (enqueuer_inv a vs) as Hinv.
  unfold enq_inv in Hinv. rewrite Hpc in Hinv. destruct Hinv as (_ & Hputs).
  rewrite <- enqueued_done_puts, <- items_put_done_puts,
    <- sentinels_put_done_puts, Hputs.
  auto using enqueued_shape, items_put_shape, sentinels_put_shape.
Qed.

(** From [n = 1] on the limit is the one the docstring describes. *)
Lemma enqueuer_limit_from_one (a : enq_args) (m : Z) (vs : list view) :
  n a = Some m ->
  1 <= m ->
  e_pc (fst (enqueuer a vs)) = EExit Graceful ->
  Z.of_nat (length (items_put (snd (enqueuer a vs))))
  = Z.min m (Z.of_nat (length (filtered a))).
Proof.
  intros Hn Hm Hpc.
  destruct (enqueuer_items_before_sentinels a vs Hpc) as (_ & Hitems & _).
  rewrite Hitems, Hn, limited_length. lia.
Qed.

(** C2 as stated fails: the kill event is only looked at for an element the
    predicate accepts.  With a predicate that rejects everything the
    enqueuer never looks at it, puts its sentinel and exits gracefully. *)
Lemma kill_set_but_all_rejected :
  let a := EnqArgs [PyInt 1] (always false) 1 None (Some 0%nat) in
  let r := enqueuer a (repeat kill_set 4) in
  e_pc (fst r) = EExit Graceful /\
  e_pc (fst r) <> EExit Killed /\
  sentinels_put (snd r) = 1%nat.
Proof. vm_compute. repeat split. discriminate. Qed.

(** C2, amended: when the kill event is set before the enqueuer starts and
    stays set, and the source has an element the predicate accepts, the
    elements before it being rejected, the enqueuer exits killed at that
    element: nothing at all has been put, neither item nor sentinel. *)
Theorem enqueuer_killed_before_start (a : enq_args) (ev : nat)
  (before rest : list pyobj) (file : pyobj) (vs : list view) :
  kill_event a = Some ev ->
  iterator a = before ++ file :: rest ->
  Forall (rejects a) before ->
  accepts a file = true ->
  Forall (fun v => is_set v ev = true) vs ->
  (length before + 2 <= length vs)%nat ->
  enqueuer a vs = (EnqState (EExit Killed) rest 0, []).
Proof.
  intros Hk Hit Hrej Hacc Hset Hlen.
  destruct vs as [|v vs]; simpl in Hlen; [lia|].
  inversion Hset as [|? ? _ Hvs]; subst.
  unfold enqueuer, enq_init. simpl. unfold enq_step. simpl.
  rewrite Hit.
  pose proof (enq_run_rejected a ev file rest 0 Hk Hacc before vs Hrej Hvs)
    as Hrun.
  destruct before as [|y before]; simpl in *; rewrite Hrun by lia;
    reflexivity.
Qed.

Lemma enqueuer_killed_before_start_witness :
  enqueuer (EnqArgs [PyInt 1; PyInt 2; PyInt 3] is_even 1 None (Some 0%nat))
           (repeat kill_set 3)
  = (EnqState (EExit Killed) [PyInt 3] 0, []).
Proof.
  apply (enqueuer_killed_before_start
           (EnqArgs [PyInt 1; PyInt 2; PyInt 3] is_even 1 None (Some 0%nat))
           0%nat [PyInt 1] [PyInt 3] (PyInt 2) (repeat kill_set 3)).
  - reflexivity.
  - reflexivity.
  - constructor; [|constructor]. exists (PyBool false). split; reflexivity.
  - reflexivity.
  - repeat constructor.
  - simpl. lia.
Defined.

(** C5: on a source that yields nothing the [next] of line 51, which is
    outside any [try], raises [StopIteration] out of [enqueuer] at its first
    step: the log is empty, so no item and no sentinel has been put, and the
    exit is not the graceful one. *)
Theorem enqueuer_empty_source (flt : pyobj -> outcome) (k : Z) (lim : option Z)
  (kill : option nat) (v : view) (vs : list view) :
  let r := enqueuer (EnqArgs [] flt k lim kill) (v :: vs) in
  e_pc (fst r) = EExit (Uncaught StopIteration) /\
  snd r = [] /\
  items_put (snd r) = [] /\
  sentinels_put (snd r) = 0%nat.
Proof.
  unfold enqueuer, enq_init. simpl. unfold enq_step. simpl.
  rewrite enq_run_exit. simpl. auto.
Qed.

(** C4 as stated fails: the put of line 68 is made without a timeout. *)
Lemma sentinel_put_is_unbounded :
  let l := snd (enqueuer scenario_A (repeat quiet 10)) in
  In (QPut PyNone None true) l /\
  call_timeout (QPut PyNone None true) = None /\
  forallb bounded_call l = false.
Proof. vm_compute. intuition. Qed.

Section Calls.

Lemma enq_step_calls (a : enq_args) (v : view) (s : enq_state) :
  Forall (fun ev => timed_put ev \/ ev = sentinel_put) (snd (enq_step a v s)).
Proof.
  destruct s as [pc it i]. unfold enq_step. simpl.
  destruct pc as [|file|file|[|todo]|st]; simpl.
  - destruct it; constructor.
  - destruct (filter_func a file) as [r|e]; [|constructor].
    destruct (truthy r); [|constructor].
    destruct (kill_requested (kill_event a) v); constructor.
  - unfold Queue_put. destruct (q_full v); simpl;
      (constructor; [left; unfold timed_put; eauto | constructor]).
  - constructor.
  - unfold Queue_put. destruct (q_full v); simpl; [constructor|].
    constructor; [now right | constructor].
  - constructor.
Qed.

Lemma worker_step_calls (wa : worker_args) (v : view) (pc : worker_pc) :
  Forall (fun ev => timed_get ev \/ is_queue_call ev = false)
         (snd (worker_step wa v pc)).
Proof.
  assert (Hg : forall res, timed_get (QGet (Some TIMEOUT) res)
                           \/ is_queue_call (QGet (Some TIMEOUT) res) = false)
    by (intros res; left; now exists res).
  destruct pc as [| |st]; simpl.
  - destruct (kill_requested (w_kill_event wa) v); constructor.
  - unfold Queue_get. destruct (q_head v) as [item|]; simpl.
    + destruct (is_None item).
      * destruct (exit_func wa) as [[r|e]|]; simpl;
          repeat (constructor; try discriminate; auto).
      * destruct (func wa item) as [r|e]; simpl;
          repeat (constructor; try discriminate; auto).
    + repeat (constructor; auto).
  - constructor.
Qed.

Lemma enq_run_calls (a : enq_args) (vs : list view) :
  forall s : enq_state,
    Forall (fun ev => timed_put ev \/ ev = sentinel_put)
           (snd (enq_run a vs s)).
Proof.
  induction vs as [|v vs IH]; intros s; simpl; [constructor|].
  pose proof (enq_step_calls a v s) as Hs.
  destruct (enq_step a v s) as [s1 l1]. specialize (IH s1).
  destruct (enq_run a vs s1) as [s2 l2]. simpl in *.
  apply Forall_app. auto.
Qed.

Lemma worker_run_calls (wa : worker_args) (vs : list view) :
  forall pc : worker_pc,
    Forall (fun ev => timed_get ev \/ is_queue_call ev = false)
           (snd (worker_run wa vs pc)).
Proof.
  induction vs as [|v vs IH]; intros pc; simpl; [constructor|].
  pose proof (worker_step_calls wa v pc) as Hs.
  destruct (worker_step wa v pc) as [pc1 l1]. specialize (IH pc1).
  destruct (worker_run wa vs pc1) as [pc2 l2]. simpl in *.
  apply Forall_app. auto.
Qed.

End Calls.

(** C4, amended: every queue call of the source loop of [enqueuer] is a put
    with the timeout of 10 seconds, and every queue call of [worker] is a
    get with that timeout; the puts of the sentinels (line 68) are the
    exception: they carry no timeout, and while the queue is full such a
    put does not come back. *)
Theorem queue_calls_timeouts (a : enq_args) (wa : worker_args)
  (vs ws : list view) :
  Forall (fun ev => timed_put ev \/ ev = sentinel_put) (snd (enqueuer a vs)) /\
  Forall (fun ev => timed_get ev \/ is_queue_call ev = false)
         (snd (worker wa ws)) /\
  call_timeout sentinel_put = None /\
  forall (flg : nat -> bool) (hd : option pyobj) (todo : nat)
         (it : list pyobj) (i : Z),
    enq_step a (View flg true hd) (EnqState (ESentinels (S todo)) it i)
    = (EnqState (ESentinels (S todo)) it i, []).
Proof.
  split; [apply enq_run_calls|]. split; [apply worker_run_calls|].
  split; reflexivity.
Qed.

(** ** Timeouts *)

Section Timeouts.

Variable a : enq_args.
Variable wa : worker_args.

Lemma enq_retry (file : pyobj) (it : list pyobj) (i : Z) :
  accepts a file = true ->
  forall (k : nat) (vs : list view),
    length vs = (2 * k)%nat ->
    Forall (fun v => q_full v = true /\
                     kill_requested (kill_event a) v = false) vs ->
    enq_run a vs (EnqState (EPut file) it i)
    = (EnqState (EPut file) it i, repeat (QPut file (Some TIMEOUT) false) k).
Proof.
  intros Hacc. unfold accepts in Hacc.
  induction k as [|k IH]; intros vs Hlen Hvs.
  - destruct vs; [reflexivity | discriminate].
  - destruct vs as [|v1 [|v2 vs]]; simpl in Hlen; try lia.
    inversion Hvs as [|? ? [Hfull _] Hvs1]; subst.
    inversion Hvs1 as [|? ? [_ Hkill] Hvs2]; subst.
    simpl. unfold enq_step at 1. simpl. unfold Queue_put. rewrite Hfull.
    unfold enq_step at 1. simpl.
    destruct (filter_func a file) as [r|]; [|discriminate].
    rewrite Hacc, Hkill, IH by (auto; lia). reflexivity.
Qed.

Lemma worker_retry :
  forall (k : nat) (ws : list view),
    length ws = (2 * k)%nat ->
    Forall (fun v => q_head v = None /\
                     kill_requested (w_kill_event wa) v = false) ws ->
    worker_run wa ws WGet = (WGet, repeat (QGet (Some TIMEOUT) None) k).
Proof.
  induction k as [|k IH]; intros ws Hlen Hws.
  - destruct ws; [reflexivity | discriminate].
  - destruct ws as [|v1 [|v2 ws]]; simpl in Hlen; try lia.
    inversion Hws as [|? ? [Hempty _] Hws1]; subst.
    inversion Hws1 as [|? ? [_ Hkill] Hws2]; subst.
    simpl. unfold Queue_get. rewrite Hempty. simpl.
    rewrite Hkill, IH by (auto; lia). reflexivity.
Qed.

End Timeouts.

(** C8: a put that times out ([Full]) sends [enqueuer] back to the top of
    the loop with the same element, the same iterator and the same count,
    and a get that times out ([Empty]) sends [worker] back to its kill
    check; neither ends the function.  After any number [k] of timeouts in
    a row the enqueuer stands at the same put with nothing enqueued; when
    there is room the element goes in exactly once and is counted; when the
    kill event is seen at the next check the enqueuer exits killed.
    Whatever the timeouts of a run, a run that ends gracefully has put each
    accepted element (up to the limit) exactly once, in order. *)
Theorem timeouts_are_retried (a : enq_args) (wa : worker_args) (file : pyobj)
  (it : list pyobj) (i : Z) (k : nat) (vs ws : list view) :
  accepts a file = true ->
  length vs = (2 * k)%nat ->
  Forall (fun v => q_full v = true /\
                   kill_requested (kill_event a) v = false) vs ->
  length ws = (2 * k)%nat ->
  Forall (fun v => q_head v = None /\
                   kill_requested (w_kill_event wa) v = false) ws ->
  enq_run a vs (EnqState (EPut file) it i)
  = (EnqState (EPut file) it i, repeat (QPut file (Some TIMEOUT) false) k) /\
  (forall flg hd,
      enq_step a (View flg true hd) (EnqState (EPut file) it i)
      = (EnqState (ELoop file) it i, [QPut file (Some TIMEOUT) false])) /\
  (forall flg hd,
      let r := enq_step a (View flg false hd) (EnqState (EPut file) it i) in
      snd r = [item_put file] /\ e_i (fst r) = i + 1) /\
  (forall v,
      kill_requested (kill_event a) v = true ->
      enq_step a v (EnqState (ELoop file) it i)
      = (EnqState (EExit Killed) it i, [])) /\
  (forall xs,
      e_pc (fst (enqueuer a xs)) = EExit Graceful ->
      items_put (snd (enqueuer a xs)) = limited (n a) (filtered a)) /\
  worker_run wa ws WGet = (WGet, repeat (QGet (Some TIMEOUT) None) k) /\
  (forall flg full,
      worker_step wa (View flg full None) WGet
      = (WLoop, [QGet (Some TIMEOUT) None])).
Proof.
  intros Hacc Hlen Hvs Hlen' Hws.
  split; [now apply enq_retry|].
  split; [reflexivity|].
  split.
  { intros flg hd. unfold enq_step. simpl.
    destruct (limit_reached (n a) (i + 1)); simpl; [auto|].
    destruct it; simpl; auto. }
  split.
  { intros v Hkill. unfold enq_step. simpl. unfold accepts in Hacc.
    destruct (filter_func a file) as [r|]; [|discriminate].
    now rewrite Hacc, Hkill. }
  split; [intros xs Hpc; now apply enqueuer_items_before_sentinels|].
  split; [now apply worker_retry | reflexivity].
Qed.

Lemma timeouts_are_retried_witness :
  let a := EnqArgs [PyInt 2; PyInt 4] is_even 1 None (Some 0%nat) in
  let wa := WorkerArgs (fun _ => Return PyNone) None (Some 0%nat) in
  let busy := View (fun _ => false) true None in
  enq_run a (repeat busy 6) (EnqState (EPut (PyInt 2)) [PyInt 4] 0)
  = (EnqState (EPut (PyInt 2)) [PyInt 4] 0,
     repeat (QPut (PyInt 2) (Some TIMEOUT) false) 3) /\
  worker_run wa (repeat busy 6) WGet
  = (WGet, repeat (QGet (Some TIMEOUT) None) 3).
Proof.
  pose proof (timeouts_are_retried
                (EnqArgs [PyInt 2; PyInt 4] is_even 1 None (Some 0%nat))
                (WorkerArgs (fun _ => Return PyNone) None (Some 0%nat))
                (PyInt 2) [PyInt 4] 0 3%nat
                (repeat (View (fun _ => false) true None) 6)
                (repeat (View (fun _ => false) true None) 6)
                eq_refl eq_refl
                ltac:(repeat constructor) eq_refl ltac:(repeat constructor))
    as H.
  split; [exact (proj1 H) | exact (proj1 (proj2 (proj2 (proj2 (proj2 (proj2 H))))))].
Defined.

(** ** What a worker has done: the invariant *)

Section WorkerInvariant.

Variable wa : worker_args.

Lemma worker_step_inv (v : view) (pc : worker_pc) (L : list event) :
  worker_inv wa pc L ->
  worker_inv wa (fst (worker_step wa v pc)) (L ++ snd (worker_step wa v pc)).
Proof.
  unfold worker_inv. intros (Hproc & Hpc).
  rewrite processed_app, dequeued_app, exit_calls_app.
  destruct pc as [| |st]; simpl.
  - destruct (kill_requested (w_kill_event wa) v); simpl;
      rewrite !app_nil_r, Nat.add_0_r; auto.
  - destruct Hpc as (Hdeq & Hexit). unfold Queue_get.
    destruct (q_head v) as [item|]; simpl.
    + destruct (is_None item) eqn:En.
      * destruct item; try discriminate. unfold exit_calls_due.
        destruct (exit_func wa) as [[r|e]|]; simpl;
          rewrite Hdeq, Hexit, app_nil_r; auto.
      * assert (Hitem : item <> PyNone) by (intros ->; discriminate).
        destruct (func wa item) as [r|e]; simpl; rewrite Hdeq, Hexit;
          (split; [apply Forall_app; auto|]); auto.
    + rewrite !app_nil_r, Nat.add_0_r. auto.
  - rewrite !app_nil_r, Nat.add_0_r. auto.
Qed.

Lemma worker_run_inv (vs : list view) :
  forall (pc : worker_pc) (L : list event),
    worker_inv wa pc L ->
    worker_inv wa (fst (worker_run wa vs pc)) (L ++ snd (worker_run wa vs pc)).
Proof.
  induction vs as [|v vs IH]; intros pc L Hinv; simpl.
  - now rewrite app_nil_r.
  - pose proof (worker_step_inv v pc L Hinv) as Hstep.
    destruct (worker_step wa v pc) as [pc1 l1]. simpl in Hstep.
    specialize (IH pc1 (L ++ l1) Hstep).
    destruct (worker_run wa vs pc1) as [pc2 l2]. simpl in *.
    now rewrite app_assoc.
Qed.

Lemma worker_inv_init : worker_inv wa WLoop [].
Proof. unfold worker_inv. simpl. auto. Qed.

(** A step takes nothing, or the head of the queue it sees. *)
Lemma worker_step_takes (v : view) (pc : worker_pc) :
  dequeued (snd (worker_step wa v pc)) = [] \/
  exists item, q_head v = Some item /\
               dequeued (snd (worker_step wa v pc)) = [item].
Proof.
  destruct pc as [| |st]; simpl.
  - destruct (kill_requested (w_kill_event wa) v); auto.
  - unfold Queue_get. destruct (q_head v) as [item|]; simpl; [|auto].
    right. exists item. split; [reflexivity|].
    destruct (is_None item).
    + destruct (exit_func wa) as [[r|e]|]; reflexivity.
    + destruct (func wa item); reflexivity.
  - auto.
Qed.

(** A step only depends on what the view says of its own kill event and
    of the head of the queue. *)
Lemma worker_step_view (v v' : view) (pc : worker_pc) :
  kill_requested (w_kill_event wa) v = kill_requested (w_kill_event wa) v' ->
  q_head v = q_head v' ->
  worker_step wa v pc = worker_step wa v' pc.
Proof.
  intros Hk Hh. destruct pc; simpl; unfold Queue_get;
    now rewrite ?Hk, ?Hh.
Qed.

End WorkerInvariant.

(** ** Properties of [worker] alone *)

(** C9: when [func] raises on the item just dequeued (an item other than
    [None]: on [None] it is not called), the exception leaves [worker], the
    call of line 97 being outside any [try]: the worker ends with it,
    [task_done] is not called, and whatever the queue holds afterwards
    nothing more is dequeued or processed. *)
Theorem worker_func_raises (wa : worker_args) (item : pyobj) (e : pyexn)
  (v : view) (vs : list view) :
  q_head v = Some item ->
  is_None item = false ->
  func wa item = Raise e ->
  worker_run wa (v :: vs) WGet
  = (WExit (Uncaught e), [QGet (Some TIMEOUT) (Some item); CallFunc item]).
Proof.
  intros Hhd Hnone Hraise. simpl. unfold Queue_get.
  rewrite Hhd, Hnone, Hraise, worker_run_exit. reflexivity.
Qed.

Lemma worker_func_raises_witness :
  worker_run (WorkerArgs is_even None None)
             (View (fun _ => false) false (Some (PyStr "x"))
              :: repeat (View (fun _ => false) false (Some (PyInt 2))) 3)
             WGet
  = (WExit (Uncaught (Exception "TypeError")),
     [QGet (Some TIMEOUT) (Some (PyStr "x")); CallFunc (PyStr "x")]).
Proof.
  apply (worker_func_raises (WorkerArgs is_even None None) (PyStr "x")
           (Exception "TypeError")); reflexivity.
Defined.

(** C3 as stated fails: [None] is a value the iterator may yield and the
    predicate may accept.  It is then enqueued as an item (no sentinel is
    put at all here, [n_workers] being 0), and the worker that dequeues it
    stops as on a sentinel, without calling [func] on it. *)
Lemma none_item_stops_worker :
  let ea := EnqArgs [PyNone; PyInt 7] (always true) 0 None None in
  let wa := WorkerArgs (fun _ => Return PyNone) None None in
  let p := threadables ea [wa] 0 [Feed; Feed; Feed; Work 0; Work 0] in
  accepts ea PyNone = true /\
  items_put (feeder_log p) = [PyNone] /\
  sentinels_put (feeder_log p) = 0%nat /\
  map w_pc (workers p) = [WExit Graceful] /\
  map (fun t => processed (w_log t)) (workers p) = [[]].
Proof. vm_compute. repeat split. Qed.

(** C3, amended: the sentinel is [None], distinct from every item other
    than [None].  A worker that dequeues an item that is not [None] calls
    [func] on it and does not stop as on a sentinel: it goes back to the top
    of its loop, or ends with the exception [func] raised.  So in every run
    of a worker, each item it has dequeued, [None] apart, is one it has
    called [func] on. *)
Theorem worker_calls_func_on_item (wa : worker_args) (item : pyobj) :
  item <> PyNone ->
  (forall v,
      q_head v = Some item ->
      let r := worker_step wa v WGet in
      processed (snd r) = [item] /\
      exit_calls (snd r) = 0%nat /\
      fst r <> WExit Graceful /\
      fst r = match func wa item with
              | Return _ => WLoop
              | Raise e => WExit (Uncaught e)
              end) /\
  (forall vs,
      In item (dequeued (snd (worker wa vs))) ->
      In item (processed (snd (worker wa vs)))).
Proof.
  intros Hitem. split.
  - intros v Hhd. simpl. unfold Queue_get. rewrite Hhd.
    assert (Hn : is_None item = false)
      by (destruct item; [now elim Hitem | reflexivity ..]).
    rewrite Hn. destruct (func wa item); simpl; repeat split; discriminate.
  - intros vs Hin.
    pose proof (worker_run_inv wa vs WLoop [] (worker_inv_init wa)) as Hinv.
    fold (worker wa vs) in Hinv. simpl in Hinv. destruct Hinv as (_ & Hpc).
    assert (Hcases : dequeued (snd (worker wa vs))
                     = processed (snd (worker wa vs)) \/
                     dequeued (snd (worker wa vs))
                     = processed (snd (worker wa vs)) ++ [PyNone]).
    { destruct (fst (worker wa vs)) as [| |[| |e]]; tauto. }
    destruct Hcases as [Hd|Hd]; rewrite Hd in Hin; [assumption|].
    apply in_app_or in Hin. destruct Hin as [Hin|[Hin|[]]]; [assumption|].
    now elim Hitem.
Qed.

Lemma worker_calls_func_on_item_witness :
  let r := worker_step (WorkerArgs is_even (Some (Return PyNone)) None)
                       (View (fun _ => false) false (Some (PyInt 2))) WGet in
  processed (snd r) = [PyInt 2] /\
  exit_calls (snd r) = 0%nat /\
  fst r <> WExit Graceful /\
  fst r = WLoop.
Proof.
  apply (proj1 (worker_calls_func_on_item
                  (WorkerArgs is_even (Some (Return PyNone)) None)
                  (PyInt 2) ltac:(discriminate))
               (View (fun _ => false) false (Some (PyInt 2)))).
  reflexivity.
Defined.

(** ** Invariants of the pipeline *)

Lemma enq_step_view (a : enq_args) (v v' : view) (s : enq_state) :
  kill_requested (kill_event a) v = kill_requested (kill_event a) v' ->
  q_full v = q_full v' ->
  enq_step a v s = enq_step a v' s.
Proof.
  intros Hk Hf. unfold enq_step, Queue_put. now rewrite Hk, Hf.
Qed.

Section PipelineInvariant.

Variable ea : enq_args.

Lemma skipn_taken (q : list pyobj) (taken : list pyobj) :
  taken = [] \/ (exists item, hd_error q = Some item /\ taken = [item]) ->
  taken ++ skipn (length taken) q = q.
Proof.
  intros [->|(item & Hhd & ->)]; [reflexivity|].
  destruct q as [|x q]; [discriminate|]. simpl in *. congruence.
Qed.

Lemma pipeline_step_inv (act : action) (p : pipeline) :
  pipeline_inv ea p -> pipeline_inv ea (pipeline_step ea act p).
Proof.
  intros (Henq & Hws & Hfifo). destruct act as [|w|ev]; simpl.
  - pose proof (enq_step_inv ea (view_of p) (feeder p) (feeder_log p) Henq)
      as Hstep.
    destruct (enq_step ea (view_of p) (feeder p)) as [s' l].
    split; [exact Hstep|]. split; [exact Hws|].
    unfold fifo_inv in *. simpl.
    destruct (workers p) as [|t [|t' ts]]; try exact I.
    now rewrite enqueued_app, Hfifo, app_assoc.
  - destruct (nth_error (workers p) w) as [t|] eqn:Et;
      [|now repeat split].
    pose proof (worker_step_takes (w_args t) (view_of p) (w_pc t)) as Htake.
    assert (Ht : worker_inv (w_args t) (w_pc t) (w_log t)).
    { rewrite Forall_forall in Hws. apply Hws.
      now apply nth_error_In with w. }
    pose proof (worker_step_inv (w_args t) (view_of p) (w_pc t) (w_log t) Ht)
      as Hstep.
    destruct (worker_step (w_args t) (view_of p) (w_pc t)) as [pc' l].
    simpl in *. split; [exact Henq|]. split.
    + apply Forall_app. split.
      * rewrite <- (firstn_skipn w (workers p)) in Hws.
        now apply Forall_app in Hws.
      * constructor; [exact Hstep|].
        rewrite <- (firstn_skipn (S w) (workers p)) in Hws.
        now apply Forall_app in Hws.
    + unfold fifo_inv in *. cbn [workers feeder_log queue].
      destruct (workers p) as [|t0 [|t1 ts]].
      * destruct w; discriminate.
      * destruct w as [|w]; [|destruct w; discriminate].
        injection Et as <-. cbn. rewrite dequeued_app, <- app_assoc.
        now rewrite (skipn_taken (queue p) (dequeued l) Htake).
      * destruct w as [|[|w]]; cbn; exact I.
  - now repeat split.
Qed.

Lemma pipeline_run_inv (sched : list action) :
  forall p : pipeline,
    pipeline_inv ea p -> pipeline_inv ea (pipeline_run ea sched p).
Proof.
  induction sched as [|act sched IH]; intros p Hinv; simpl; [assumption|].
  apply IH. now apply pipeline_step_inv.
Qed.

Lemma pipeline_init_inv (was : list worker_args) (m : Z) :
  pipeline_inv ea (pipeline_init ea was m).
Proof.
  split; [|split].
  - unfold enq_inv. simpl. auto.
  - simpl. apply Forall_map, Forall_forall. intros wa _.
    apply worker_inv_init.
  - unfold fifo_inv. simpl. destruct was as [|wa [|wa' was]]; simpl; auto.
Qed.

Lemma threadables_inv (was : list worker_args) (m : Z)
  (sched : list action) :
  pipeline_inv ea (threadables ea was m sched).
Proof. apply pipeline_run_inv, pipeline_init_inv. Qed.

(** The threads stay the ones the pipeline started with. *)
Lemma pipeline_step_args (act : action) (p : pipeline) :
  map w_args (workers (pipeline_step ea act p)) = map w_args (workers p).
Proof.
  destruct act as [|w|ev]; simpl; [| |reflexivity].
  - now destruct (enq_step ea (view_of p) (feeder p)).
  - destruct (nth_error (workers p) w) as [t|] eqn:Et; [|reflexivity].
    destruct (worker_step (w_args t) (view_of p) (w_pc t)) as [pc' l].
    simpl. now apply map_replace_nth with t.
Qed.

Lemma pipeline_run_args (sched : list action) :
  forall p : pipeline,
    map w_args (workers (pipeline_run ea sched p)) = map w_args (workers p).
Proof.
  induction sched as [|act sched IH]; intros p; simpl; [reflexivity|].
  now rewrite IH, pipeline_step_args.
Qed.

End PipelineInvariant.

(** ** One worker: first in, first out *)

Section Fifo.

Variable ea : enq_args.

Lemma at_element_enqueued (s : enq_state) (L : list event) (file : pyobj) :
  at_element ea s L file ->
  exists rest, enqueued L ++ rest = limited (n ea) (filtered ea).
Proof.
  intros (before & Hit & _ & Hputs & Hi & Hlim).
  assert (He : enqueued L = filter (accepts ea) before).
  { rewrite <- enqueued_done_puts, Hputs.
    rewrite <- (app_nil_r (map item_put _)), (enqueued_shape _ 0).
    apply app_nil_r. }
  unfold filtered. rewrite Hit, filter_app, He.
  destruct (n ea) as [m|]; simpl; [|eauto].
  rewrite firstn_app, firstn_all2; [eauto|].
  rewrite Hi in Hlim. simpl in Hlim.
  destruct Hlim as [Hlim|Hlim]; [apply Z.leb_gt in Hlim|]; lia.
Qed.

(** What is in the log of the enqueuer: a prefix of the items, or all the
    items and some sentinels. *)
Lemma enq_inv_enqueued (s : enq_state) (L : list event) :
  enq_inv ea s L ->
  (exists rest, enqueued L ++ rest = limited (n ea) (filtered ea)) \/
  (exists j, enqueued L = limited (n ea) (filtered ea) ++ repeat PyNone j).
Proof.
  unfold enq_inv.
  destruct (e_pc s) as [|file|file|todo|[| |e]].
  - intros (_ & _ & ->). left. simpl. eauto.
  - intros H. left. eauto using at_element_enqueued.
  - intros (H & _). left. eauto using at_element_enqueued.
  - intros (_ & _ & H). right. eexists.
    rewrite <- enqueued_done_puts, H. apply enqueued_shape.
  - intros (file & H & _). left. eauto using at_element_enqueued.
  - intros (_ & H). right. eexists.
    rewrite <- enqueued_done_puts, H. apply enqueued_shape.
  - intros [(_ & _ & ->)|(file & H & _)]; left;
      [simpl; eauto | eauto using at_element_enqueued].
Qed.

Lemma items_prefix (l1 q f : list pyobj) (j : nat) :
  Forall (fun item => item <> PyNone) l1 ->
  l1 ++ q = f ++ repeat PyNone j ->
  exists rest, l1 ++ rest = f.
Proof.
  revert f. induction l1 as [|x l1 IH]; intros f Hl1 Heq; [now exists f|].
  inversion Hl1 as [|? ? Hx Hl1']; subst.
  destruct f as [|y f]; simpl in Heq.
  - destruct j; simpl in Heq; [discriminate Heq|].
    injection Heq as -> _. now elim Hx.
  - injection Heq as -> Heq. destruct (IH f Hl1' Heq) as (rest & <-).
    now exists rest.
Qed.

Lemma items_before_sentinel (l1 q f r : list pyobj) :
  Forall (fun item => item <> PyNone) l1 ->
  Forall (fun item => item <> PyNone) f ->
  l1 ++ PyNone :: q = f ++ r ->
  (r = [] -> False) /\ (forall j, r = repeat PyNone j -> l1 = f).
Proof.
  revert f. induction l1 as [|x l1 IH]; intros f Hl1 Hf Heq.
  - destruct f as [|y f]; simpl in Heq.
    + split; [intros ->; discriminate Heq | reflexivity].
    + injection Heq as <- _. inversion Hf as [|? ? Hy _]. now elim Hy.
  - inversion Hl1 as [|? ? Hx Hl1']; subst.
    destruct f as [|y f]; simpl in Heq.
    + split; [intros ->; discriminate Heq|].
      intros [|j] ->; simpl in Heq; [discriminate Heq|].
      injection Heq as -> _. now elim Hx.
    + injection Heq as -> Heq. inversion Hf as [|? ? _ Hf']; subst.
      destruct (IH f Hl1' Hf' Heq) as (Hr & Hj).
      split; [assumption|]. intros j Hrj. now rewrite (Hj j Hrj).
Qed.

(** With one worker and no [None] among the accepted elements, what the
    worker has processed is always a prefix of the items, and all of them
    once it has exited gracefully. *)
Lemma single_worker_processed (p : pipeline) (t : worker_thread) :
  pipeline_inv ea p ->
  workers p = [t] ->
  Forall (fun item => item <> PyNone) (limited (n ea) (filtered ea)) ->
  (exists rest, processed (w_log t) ++ rest = limited (n ea) (filtered ea)) /\
  (w_pc t = WExit Graceful ->
   processed (w_log t) = limited (n ea) (filtered ea)).
Proof.
  intros (Henq & Hws & Hfifo) Hw Hitems.
  unfold fifo_inv in Hfifo. rewrite Hw in *.
  inversion Hws as [|? ? (Hproc & Hpc) _]; subst.
  set (items := limited (n ea) (filtered ea)) in *.
  assert (Hnone : forall q rest,
             (processed (w_log t) ++ [PyNone]) ++ q ++ rest = items ->
             False).
  { intros q rest Heq. rewrite <- app_assoc in Heq. simpl in Heq.
    rewrite <- (app_nil_r items) in Heq.
    now apply (items_before_sentinel _ _ _ _ Hproc Hitems Heq). }
  assert (Hall : forall q j,
             (processed (w_log t) ++ [PyNone]) ++ q
             = items ++ repeat PyNone j ->
             processed (w_log t) = items).
  { intros q j Heq. rewrite <- app_assoc in Heq. simpl in Heq.
    now apply (items_before_sentinel _ _ _ _ Hproc Hitems Heq) with j. }
  destruct (enq_inv_enqueued _ _ Henq) as [(rest & Hpre)|(j & Hfull)].
  - (* no sentinel has been put yet *)
    rewrite Hfifo, <- app_assoc in Hpre.
    destruct (w_pc t) as [| |[| |e]]; simpl in Hpc.
    + destruct Hpc as (Hd & _). rewrite Hd in Hpre.
      split; [eauto | discriminate].
    + destruct Hpc as (Hd & _). rewrite Hd in Hpre.
      split; [eauto | discriminate].
    + destruct Hpc as (Hd & _). rewrite Hd in Hpre.
      split; [eauto | discriminate].
    + destruct Hpc as (Hd & _). rewrite Hd in Hpre.
      now elim (Hnone _ _ Hpre).
    + destruct Hpc as [(Hd & _)|(Hd & _)]; rewrite Hd in Hpre.
      * split; [eauto | discriminate].
      * now elim (Hnone _ _ Hpre).
  - rewrite Hfifo in Hfull.
    destruct (w_pc t) as [| |[| |e]]; simpl in Hpc.
    + destruct Hpc as (Hd & _). rewrite Hd in Hfull.
      split; [eauto using items_prefix | discriminate].
    + destruct Hpc as (Hd & _). rewrite Hd in Hfull.
      split; [eauto using items_prefix | discriminate].
    + destruct Hpc as (Hd & _). rewrite Hd in Hfull.
      split; [eauto using items_prefix | discriminate].
    + destruct Hpc as (Hd & _). rewrite Hd in Hfull.
      rewrite (Hall _ _ Hfull). split; [exists []; apply app_nil_r | auto].
    + destruct Hpc as [(Hd & _)|(Hd & _)]; rewrite Hd in Hfull.
      * split; [eauto using items_prefix | discriminate].
      * rewrite (Hall _ _ Hfull).
        split; [exists []; apply app_nil_r | discriminate].
Qed.

End Fifo.

(** ** Steps of a pipeline nobody cancels *)

Section QuietSteps.

Variable ea : enq_args.
Variable was : list worker_args.
Variable m : Z.

Lemma Queue_full_nil : Queue_full m [] = false.
Proof.
  unfold Queue_full. simpl.
  destruct (0 <? m) eqn:E; [|reflexivity].
  apply Z.ltb_lt in E. simpl. apply Z.leb_gt. lia.
Qed.

Lemma kill_requested_quiet (ke : option nat) (q : list pyobj) :
  kill_requested ke (quiet_view m q) = false.
Proof. now destruct ke. Qed.

Lemma feed_at (p : pipeline) (q : list pyobj) (s : enq_state)
  (pcs : list worker_pc) :
  at_state was m p q s pcs ->
  at_state was m (pipeline_step ea Feed p)
           (q ++ enqueued (snd (enq_step ea (quiet_view m q) s)))
           (fst (enq_step ea (quiet_view m q) s)) pcs.
Proof.
  intros (Hm & Hq & Hfl & Hs & Hpcs & Hargs). simpl.
  rewrite (enq_step_view ea (view_of p) (quiet_view m q)).
  - subst. destruct (enq_step ea (quiet_view (maxsize p) (queue p))
                              (feeder p)) as [s' l].
    repeat split; auto.
  - rewrite kill_requested_quiet. unfold kill_requested, view_of. simpl.
    destruct (kill_event ea); auto.
  - subst. reflexivity.
Qed.

Lemma work_at (p : pipeline) (q : list pyobj) (s : enq_state)
  (pcs : list worker_pc) (w : nat) (wa : worker_args) (pc : worker_pc) :
  at_state was m p q s pcs ->
  nth_error was w = Some wa ->
  nth_error pcs w = Some pc ->
  at_state was m (pipeline_step ea (Work w) p)
           (skipn (length (dequeued (snd (worker_step wa (quiet_view m q) pc))))
                  q)
           s
           (firstn w pcs
            ++ fst (worker_step wa (quiet_view m q) pc) :: skipn (S w) pcs).
Proof.
  intros (Hm & Hq & Hfl & Hs & Hpcs & Hargs) Hwa Hpc.
  pose proof (pipeline_step_args ea (Work w) p) as Hargs'.
  rewrite <- Hargs, nth_error_map in Hwa.
  rewrite <- Hpcs, nth_error_map in Hpc.
  unfold pipeline_step in *.
  destruct (nth_error (workers p) w) as [t|]; [|discriminate].
  cbn [option_map] in Hwa, Hpc. injection Hwa as Hwa. injection Hpc as Hpc.
  assert (Hv : worker_step (w_args t) (view_of p) (w_pc t)
               = worker_step wa (quiet_view m q) pc).
  { rewrite <- Hwa, <- Hpc. apply worker_step_view.
    - rewrite kill_requested_quiet. unfold kill_requested, view_of. simpl.
      destruct (w_kill_event (w_args t)); auto.
    - simpl. now rewrite Hq. }
  rewrite Hv in *.
  destruct (worker_step wa (quiet_view m q) pc) as [pc' l].
  unfold at_state. cbn [maxsize queue flags feeder workers fst snd] in *.
  rewrite Hq, <- Hpcs. repeat split; auto; [|congruence].
  rewrite map_app, firstn_map. cbn [map]. now rewrite skipn_map.
Qed.

Lemma replace_middle {A : Type} (l1 l2 : list A) (x y : A) :
  firstn (length l1) (l1 ++ x :: l2)
  ++ y :: skipn (S (length l1)) (l1 ++ x :: l2)
  = l1 ++ y :: l2.
Proof.
  induction l1 as [|z l1 IH]; simpl; [reflexivity|].
  simpl in IH. now rewrite IH.
Qed.

End QuietSteps.

Section Start.

Variable ea : enq_args.

Lemma pipeline_init_at (was : list worker_args) (m : Z) :
  at_state was m (pipeline_init ea was m) [] (enq_init ea)
           (repeat WLoop (length was)).
Proof.
  unfold at_state. simpl. repeat split; auto.
  - induction was as [|wa was IH]; simpl; [reflexivity | now rewrite IH].
  - rewrite map_map. simpl. apply map_id.
Qed.

End Start.

Lemma enq_inv_graceful (a : enq_args) (s : enq_state) (L : list event) :
  enq_inv a s L ->
  e_pc s = EExit Graceful ->
  enqueued L
  = limited (n a) (filtered a) ++ repeat PyNone (Z.to_nat (n_workers a)) /\
  items_put L = limited (n a) (filtered a) /\
  sentinels_put L = Z.to_nat (n_workers a).
Proof.
  unfold enq_inv. intros Hinv Hpc. rewrite Hpc in Hinv.
  destruct Hinv as (_ & Hputs).
  rewrite <- enqueued_done_puts, <- items_put_done_puts,
    <- sentinels_put_done_puts, Hputs.
  auto using enqueued_shape, items_put_shape, sentinels_put_shape.
Qed.

Lemma single_thread (ea : enq_args) (wa : worker_args) (m : Z)
  (sched : list action) :
  exists t, workers (threadables ea [wa] m sched) = [t].
Proof.
  pose proof (pipeline_run_args ea sched (pipeline_init ea [wa] m)) as H.
  fold (threadables ea [wa] m sched) in H. simpl in H.
  destruct (workers (threadables ea [wa] m sched)) as [|t [|t' ts]];
    try discriminate.
  now exists t.
Qed.

(** ** The enqueuer runs to its end when there is room *)

Section EnqueuerTotal.

Variable a : enq_args.

Lemma enq_run_sentinels (it : list pyobj) (i : Z) :
  forall (j : nat) (vs : list view),
    Forall (roomy a) vs ->
    (j < length vs)%nat ->
    e_pc (fst (enq_run a vs (EnqState (ESentinels j) it i))) = EExit Graceful.
Proof.
  induction j as [|j IH]; intros vs Hvs Hlen;
    destruct vs as [|v vs]; simpl in Hlen; try lia;
    inversion Hvs as [|? ? (Hroom & _) Hvs']; subst; simpl.
  - unfold enq_step. simpl. now rewrite enq_run_exit.
  - unfold enq_step. simpl. unfold Queue_put. rewrite Hroom.
    specialize (IH vs Hvs' ltac:(lia)).
    now destruct (enq_run a vs (EnqState (ESentinels j) it i)).
Qed.

Lemma enq_run_source :
  forall (l : list pyobj) (i : Z) (vs : list view),
    Forall (returns a) l ->
    Forall (roomy a) vs ->
    (2 * length l + Z.to_nat (n_workers a) < length vs)%nat ->
    e_pc (fst (enq_run a vs (enq_advance a l i))) = EExit Graceful.
Proof.
  induction l as [|file l IH]; intros i vs Hret Hvs Hlen.
  - apply enq_run_sentinels; [assumption | simpl in Hlen; lia].
  - inversion Hret as [|? ? (r & Hr) Hret']; subst.
    destruct vs as [|v vs]; simpl in Hlen; [lia|].
    inversion Hvs as [|? ? (_ & Hkill) Hvs']; subst.
    cbn [enq_advance enq_run]. unfold enq_step at 1. simpl. rewrite Hr.
    destruct (truthy r).
    + rewrite Hkill.
      destruct vs as [|v' vs]; simpl in Hlen; [lia|].
      inversion Hvs' as [|? ? (Hroom & _) Hvs'']; subst.
      cbn [enq_run]. unfold enq_step at 1. simpl.
      unfold Queue_put. rewrite Hroom.
      destruct (limit_reached (n a) (i + 1)).
      * pose proof (enq_run_sentinels l (i + 1) (Z.to_nat (n_workers a)) vs
                      Hvs'' ltac:(lia)) as H.
        now destruct (enq_run a vs _).
      * specialize (IH (i + 1) vs Hret' Hvs'' ltac:(lia)).
        now destruct (enq_run a vs _).
    + specialize (IH i vs Hret' Hvs' ltac:(lia)).
      now destruct (enq_run a vs _).
Qed.

(** On a source that is not empty, with a predicate that returns on every
    element, room in the queue and no kill, [enqueuer] reaches its graceful
    exit within two steps per element and one per sentinel. *)
Lemma enqueuer_total (vs : list view) :
  iterator a <> [] ->
  Forall (returns a) (iterator a) ->
  Forall (roomy a) vs ->
  (2 * length (iterator a) + Z.to_nat (n_workers a) + 1 < length vs)%nat ->
  e_pc (fst (enqueuer a vs)) = EExit Graceful.
Proof.
  intros Hne Hret Hvs Hlen. unfold enqueuer, enq_init.
  destruct vs as [|v vs]; simpl in Hlen; [lia|].
  inversion Hvs as [|? ? _ Hvs']; subst.
  cbn [enq_run]. unfold enq_step at 1. simpl.
  destruct (iterator a) as [|file l] eqn:E; [now elim Hne|].
  pose proof (enq_run_source (file :: l) 0 vs Hret Hvs') as H.
  cbn [enq_advance] in H. simpl in Hlen. specialize (H ltac:(simpl; lia)).
  now destruct (enq_run a vs _).
Qed.

End EnqueuerTotal.

(** ** Fair schedules reach the end *)

Section Control.

Variable ea : enq_args.
Variable was : list worker_args.
Variable m : Z.

(** The control state follows the pipeline. *)
Lemma control_step_at (act : action) (p : pipeline) (c : control) :
  at_control was m p c ->
  no_cancellation [act] = true ->
  at_control was m (pipeline_step ea act p) (control_step ea was m act c).
Proof.
  intros Hat Hact. destruct act as [|w|ev]; [| |discriminate].
  - apply (feed_at ea) in Hat. exact Hat.
  - unfold control_step.
    destruct (nth_error was w) as [wa|] eqn:Hwa.
    + destruct (nth_error (c_pcs c) w) as [pc|] eqn:Hpc.
      * apply (work_at ea was m _ _ _ _ w wa pc Hat Hwa Hpc).
      * destruct Hat as (_ & _ & _ & _ & Hpcs & Hargs).
        apply nth_error_None in Hpc.
        assert (Hw : (w < length was)%nat)
          by (apply nth_error_Some; congruence).
        rewrite <- Hpcs, <- Hargs, !length_map in *. lia.
    + unfold pipeline_step.
      destruct (nth_error (workers p) w) as [t|] eqn:Ht; [|exact Hat].
      destruct Hat as (_ & _ & _ & _ & _ & Hargs).
      apply nth_error_None in Hwa.
      assert (Hw : (w < length (workers p))%nat)
        by (apply nth_error_Some; congruence).
      rewrite <- Hargs, length_map in Hwa. lia.
Qed.

Lemma control_run_at (sched : list action) :
  forall (p : pipeline) (c : control),
    at_control was m p c ->
    no_cancellation sched = true ->
    at_control was m (pipeline_run ea sched p) (control_run ea was m sched c).
Proof.
  induction sched as [|act sched IH]; intros p c Hat Hsched; [exact Hat|].
  simpl in Hsched. apply andb_prop in Hsched. destruct Hsched as (Hact & Hs).
  simpl. apply IH; [|assumption].
  apply control_step_at; [assumption|]. simpl. now rewrite Hact.
Qed.

End Control.

Section FairSteps.

Variable ea : enq_args.
Variable was : list worker_args.
Variable m : Z.

Lemma queue_head (items : list pyobj) (j : nat) :
  Forall (item_ok was) items ->
  match items ++ repeat PyNone j with
  | [] => items = [] /\ j = 0%nat
  | x :: q0 =>
      (x = PyNone /\ items = [] /\
       exists j', j = S j' /\ q0 = repeat PyNone j') \/
      (item_ok was x /\
       exists items', items = x :: items' /\ q0 = items' ++ repeat PyNone j)
  end.
Proof.
  intros Hitems. destruct items as [|x items]; simpl.
  - destruct j as [|j]; simpl; [auto|]. left. eauto.
  - inversion Hitems; subst. right. eauto.
Qed.

Lemma bits_bound (c : control) :
  (feeder_bit m c + waiting_bit c <= length (c_pcs c) + 1)%nat.
Proof.
  unfold feeder_bit, waiting_bit.
  pose proof (filter_length_le is_waiting (c_pcs c)) as Hw.
  destruct (e_pc (c_feeder c)); destruct (c_queue c);
    try destruct (Queue_full m _); lia.
Qed.

(** A step that lowers [work_left] lowers [potential]. *)
Lemma potential_real (c c' : control) :
  length (c_pcs c') = length was ->
  (work_left (length was) c' < work_left (length was) c)%nat ->
  (potential m (length was) c' < potential m (length was) c)%nat.
Proof.
  intros Hlen Hwork. unfold potential.
  pose proof (bits_bound c') as Hb. rewrite Hlen in Hb. nia.
Qed.

Lemma update_split (pcs : list worker_pc) (w : nat) (pc pc' : worker_pc) :
  nth_error pcs w = Some pc ->
  exists l1 l2,
    pcs = l1 ++ pc :: l2 /\
    firstn w pcs ++ pc' :: skipn (S w) pcs = l1 ++ pc' :: l2.
Proof.
  intros Hnth. destruct (nth_error_split pcs w Hnth) as (l1 & l2 & Hp & Hl).
  exists l1, l2. split; [assumption|].
  rewrite Hp, <- Hl. apply replace_middle.
Qed.

Lemma running_app (l1 l2 : list worker_pc) :
  running (l1 ++ l2) = (running l1 + running l2)%nat.
Proof. unfold running. now rewrite filter_app, length_app. Qed.

Ltac simp_ctl :=
  unfold work_left, feeder_left, sentinels_todo, in_source, feeder_ok,
    feeder_exited, feeder_bit in *;
  simpl in *.

(** One step of the enqueuer: the state stays a good one, and either work
    gets done or nothing changes but the place of the enqueuer in its
    retry, which then has seen the queue full. *)
Lemma feed_step_ok (c : control) :
  control_ok ea was c ->
  let c' := control_step ea was m Feed c in
  control_ok ea was c' /\
  ((work_left (length was) c' < work_left (length was) c)%nat \/
   (work_left (length was) c' = work_left (length was) c /\
    c_queue c' = c_queue c /\
    c_pcs c' = c_pcs c /\
    feeder_exited (c_feeder c') = feeder_exited (c_feeder c) /\
    (feeder_bit m c' <= feeder_bit m c)%nat /\
    (feeder_bit m c' = feeder_bit m c ->
     feeder_exited (c_feeder c) = false ->
     Queue_full m (c_queue c) = true))).
Proof.
  intros (Hlen & Hk & Hexit & Hpcs & Hfeed & items & j & Hq & Hitems & Hrun
          & Hsrc & Hlate).
  destruct c as [q [pc it i] pcs]. simpl in *.
  unfold control_step, control_ok. simpl. unfold enq_step. simpl.
  destruct pc as [|file|file|[|todo]|st]; simp_ctl.
  - (* line 51 *)
    destruct Hfeed as (Hne & Hsok).
    destruct it as [|file l]; [now elim Hne|]. simp_ctl.
    rewrite app_nil_r. split; [|left; lia].
    repeat split; auto. exists items, j. auto.
  - (* line 53 *)
    pose proof (Forall_inv Hfeed) as ((r & Hr) & Hacc).
    pose proof (Forall_inv_tail Hfeed) as Hrest.
    rewrite Hr. unfold accepts in Hacc. rewrite Hr in Hacc.
    destruct (truthy r) eqn:Ht; simp_ctl.
    + rewrite kill_requested_quiet. simp_ctl. rewrite app_nil_r.
      split.
      * repeat split; auto.
        -- unfold accepts. now rewrite Hr.
        -- exists items, j. auto.
      * right. repeat split; auto.
        -- destruct (Queue_full m q); lia.
        -- destruct (Queue_full m q); [reflexivity | discriminate].
    + rewrite app_nil_r. destruct it as [|y l]; simp_ctl.
      * split; [|left; lia].
        repeat split; auto; try lia.
        exists items, j.
        repeat split; auto; try discriminate; try (now rewrite <- Hk).
      * split; [|left; lia].
        repeat split; auto. exists items, j. auto.
  - (* line 58 *)
    destruct Hfeed as (Hsok & Hacc).
    pose proof (Forall_inv Hsok) as (_ & Hok).
    pose proof (Forall_inv_tail Hsok) as Hrest.
    unfold Queue_put. simpl. destruct (Queue_full m q) eqn:Hfull; simp_ctl.
    + rewrite app_nil_r. split.
      * repeat split; auto. exists items, j. auto.
      * right. rewrite Hfull. repeat split; auto.
    + specialize (Hsrc eq_refl). subst j. simpl in Hq.
      rewrite app_nil_r in Hq. subst q.
      assert (Hq' : items ++ [file] = (items ++ [file]) ++ repeat PyNone 0)
        by (simpl; now rewrite app_nil_r).
      assert (Hitems' : Forall (item_ok was) (items ++ [file]))
        by (apply Forall_app; auto).
      rewrite length_app. simpl.
      destruct (limit_reached (n ea) (i + 1)); simp_ctl.
      * split; [|left; lia].
        repeat split; auto; try lia.
        exists (items ++ [file]), 0%nat.
        repeat split; auto; try lia; try (now rewrite <- Hk).
      * destruct it as [|y l]; simp_ctl.
        -- split; [|left; lia].
           repeat split; auto; try lia.
           exists (items ++ [file]), 0%nat.
           repeat split; auto; try lia; try (now rewrite <- Hk).
        -- split; [|left; lia].
           repeat split; auto.
           exists (items ++ [file]), 0%nat. repeat split; auto; lia.
  - (* line 67, no round left *)
    rewrite app_nil_r. split; [|left; lia].
    repeat split; auto. exists items, j.
    repeat split; auto; try discriminate.
  - (* line 68 *)
    unfold Queue_put. simpl. destruct (Queue_full m q) eqn:Hfull; simp_ctl.
    + rewrite app_nil_r. split.
      * repeat split; auto. exists items, j. auto.
      * right. repeat split; auto.
    + rewrite length_app. simpl. split; [|left; lia].
      repeat split; auto; try lia.
      exists items, (S j). repeat split; auto; try lia; try discriminate.
      rewrite Hq, <- app_assoc. f_equal. apply repeat_snoc.
  - destruct st; try contradiction.
    rewrite app_nil_r. split.
    * repeat split; auto. exists items, j. auto.
    * right. repeat split; auto. discriminate.
Qed.

Lemma waiting_update (l1 l2 : list worker_pc) (pc : worker_pc) :
  length (filter is_waiting (l1 ++ pc :: l2))
  = (length (filter is_waiting l1) + (if is_waiting pc then 1 else 0)
     + length (filter is_waiting l2))%nat.
Proof.
  rewrite filter_app, length_app. simpl. destruct (is_waiting pc); simpl; lia.
Qed.

Lemma running_update (l1 l2 : list worker_pc) (pc : worker_pc) :
  running (l1 ++ pc :: l2)
  = (running l1 + (if is_running pc then 1 else 0) + running l2)%nat.
Proof.
  unfold running. rewrite filter_app, length_app. simpl.
  destruct (is_running pc); simpl; lia.
Qed.

(** One step of a worker: the state stays a good one, and either work gets
    done or nothing changes but the place of the worker in its retry, which
    then, if the worker is running, has seen the queue empty. *)
Lemma work_step_ok (c : control) (w : nat) :
  control_ok ea was c ->
  let c' := control_step ea was m (Work w) c in
  control_ok ea was c' /\
  ((work_left (length was) c' < work_left (length was) c)%nat \/
   (work_left (length was) c' = work_left (length was) c /\
    c_queue c' = c_queue c /\
    c_feeder c' = c_feeder c /\
    map is_running (c_pcs c') = map is_running (c_pcs c) /\
    (waiting_bit c' <= waiting_bit c)%nat /\
    (waiting_bit c' = waiting_bit c ->
     (exists pc, nth_error (c_pcs c) w = Some pc /\ is_running pc = true) ->
     c_queue c = []))).
Proof.
  intros Hok.
  assert (Hsame : control_ok ea was c /\
            ((work_left (length was) c < work_left (length was) c)%nat \/
             (work_left (length was) c = work_left (length was) c /\
              c_queue c = c_queue c /\ c_feeder c = c_feeder c /\
              map is_running (c_pcs c) = map is_running (c_pcs c) /\
              (waiting_bit c <= waiting_bit c)%nat /\
              (waiting_bit c = waiting_bit c ->
               (exists pc, nth_error (c_pcs c) w = Some pc /\
                           is_running pc = true) ->
               nth_error (c_pcs c) w = None \/ nth_error was w = None ->
               c_queue c = [])))).
  { split; [assumption|]. right. repeat split; auto.
    intros _ (pc & Hpc & _) [Hn|Hn]; [congruence|].
    destruct Hok as (Hlen & _).
    apply nth_error_None in Hn.
    assert (Hw : (w < length (c_pcs c))%nat)
      by (apply nth_error_Some; congruence).
    lia. }
  destruct Hok as (Hlen & Hk & Hexit & Hpcs & Hfeed & items & j & Hq & Hitems
                   & Hrun & Hsrc & Hlate).
  unfold control_step.
  destruct (nth_error was w) as [wa|] eqn:Hwa.
  2:{ destruct Hsame as (H1 & [H2|H2]); [lia|].
      split; [assumption|]. right. intuition. }
  destruct (nth_error (c_pcs c) w) as [pc|] eqn:Hpc.
  2:{ destruct Hsame as (H1 & [H2|H2]); [lia|].
      split; [assumption|]. right. intuition. }
  clear Hsame.
  assert (Hin : In wa was) by (now apply nth_error_In with w).
  assert (Hkind : pc = WLoop \/ pc = WGet \/ pc = WExit Graceful).
  { rewrite Forall_forall in Hpcs. apply Hpcs. now apply nth_error_In with w. }
  destruct (update_split (c_pcs c) w pc
              (fst (worker_step wa (quiet_view m (c_queue c)) pc)) Hpc)
    as (l1 & l2 & Hsplit & Hupd).
  rewrite Hupd. clear Hupd.
  destruct c as [q s pcs]. simpl in *. subst pcs.
  apply Forall_app in Hpcs. destruct Hpcs as (Hl1 & Hl2).
  pose proof (Forall_inv_tail Hl2) as Hl2'.
  rewrite length_app in Hlen. simpl in Hlen.
  rewrite running_update in Hrun, Hlate.
  unfold control_ok, work_left, waiting_bit. simpl.
  rewrite !running_update, !length_app, !map_app, !waiting_update. simpl.
  destruct Hkind as [->|[->| ->]]; simpl in *.
  - (* line 87 *)
    rewrite kill_requested_quiet. simpl. split.
    + repeat split; auto.
      * apply Forall_app. split; [assumption|]. constructor; auto.
      * exists items, j. auto.
    + right. repeat split; auto.
      * destruct q; lia.
      * intros He _. destruct q; [reflexivity | lia].
  - (* line 91 *)
    unfold Queue_get. simpl.
    pose proof (queue_head items j Hitems) as Hhead. rewrite <- Hq in Hhead.
    destruct q as [|x q0]; simpl.
    + split.
      * repeat split; auto.
        -- apply Forall_app. split; [assumption|]. constructor; auto.
        -- exists items, j. auto.
      * right. repeat split; auto.
    + destruct Hhead as [(-> & -> & j' & -> & ->)
                        |((Hx & Hfun) & items' & -> & ->)].
      * (* a sentinel: lines 94-96 *)
        assert (Hwa_exit : forall e, exit_func wa <> Some (Raise e)).
        { rewrite Forall_forall in Hexit. now apply Hexit. }
        assert (Hns : in_source s = false).
        { destruct (in_source s); [|reflexivity].
          specialize (Hsrc eq_refl). discriminate. }
        simpl.
        assert (Hstep : exists l,
                   match exit_func wa with
                   | Some (Return _) =>
                       (WExit Graceful,
                        [QGet (Some TIMEOUT) (Some PyNone); CallExit])
                   | Some (Raise e) =>
                       (WExit (Uncaught e),
                        [QGet (Some TIMEOUT) (Some PyNone); CallExit])
                   | None =>
                       (WExit Graceful, [QGet (Some TIMEOUT) (Some PyNone)])
                   end = (WExit Graceful, l) /\ dequeued l = [PyNone]).
        { destruct (exit_func wa) as [[r|e]|]; simpl; eauto.
          now elim (Hwa_exit e). }
        destruct Hstep as (l & -> & Hdq). simpl. rewrite Hdq. simpl.
        split; [|left; lia].
        repeat split; auto; try lia.
        -- apply Forall_app. split; [assumption|]. constructor; auto.
        -- exists [], j'. repeat split; auto; try lia.
           rewrite Hns. discriminate.
      * (* an item: lines 97-98 *)
        assert (Hn : is_None x = false)
          by (destruct x; [now elim Hx | reflexivity ..]).
        rewrite Hn.
        rewrite Forall_forall in Hfun. destruct (Hfun wa Hin) as (r & Hr).
        rewrite Hr. simpl.
        split; [|left; lia].
        repeat split; auto; try lia.
        -- apply Forall_app. split; [assumption|]. constructor; auto.
        -- exists items', j. repeat split; auto.
           ++ now apply Forall_inv_tail in Hitems.
           ++ intros Hlt. specialize (Hlate Hlt). discriminate.
  - split.
    + repeat split; auto.
      * apply Forall_app. split; [assumption|]. constructor; auto.
      * exists items, j. auto.
    + right. repeat split; auto.
      intros _ (pc & Hpc' & Hr). injection Hpc' as <-. discriminate.
Qed.

End FairSteps.

Section FairRounds.

Variable ea : enq_args.
Variable was : list worker_args.
Variable m : Z.

Lemma control_step_progress (act : action) (c : control) :
  control_ok ea was c ->
  let c' := control_step ea was m act c in
  control_ok ea was c' /\
  ((potential m (length was) c' < potential m (length was) c)%nat \/
   (potential m (length was) c' = potential m (length was) c /\
    standing c' = standing c /\
    stuck m act (standing c))).
Proof.
  intros Hok. destruct act as [|w|ev].
  - destruct (feed_step_ok ea was m c Hok) as (Hok' & Hcase).
    cbv zeta in *. set (c' := control_step ea was m Feed c) in *.
    clearbody c'. split; [assumption|].
    destruct Hcase as [Hreal|(Hw & Hq & Hpcs & Hex & Hle & Hfull)].
    + left. apply potential_real; [apply Hok' | assumption].
    + unfold potential, standing, waiting_bit. rewrite Hw, Hq, Hpcs, Hex.
      destruct (Nat.eq_dec (feeder_bit m c') (feeder_bit m c)) as [He|Hne].
      * right. rewrite He. repeat split; auto.
        unfold stuck. auto.
      * left. lia.
  - destruct (work_step_ok ea was m c w Hok) as (Hok' & Hcase).
    cbv zeta in *. set (c' := control_step ea was m (Work w) c) in *.
    clearbody c'. split; [assumption|].
    destruct Hcase as [Hreal|(Hw & Hq & Hfd & Hrs & Hle & Hempty)].
    + left. apply potential_real; [apply Hok' | assumption].
    + unfold potential, standing, feeder_bit. rewrite Hw, Hq, Hfd, Hrs.
      destruct (Nat.eq_dec (waiting_bit c') (waiting_bit c)) as [He|Hne].
      * right. rewrite He. repeat split; auto.
        unfold stuck. intros Hnth. apply Hempty; [assumption|].
        rewrite nth_error_map in Hnth.
        destruct (nth_error (c_pcs c) w) as [pc|]; [|discriminate].
        injection Hnth as Hr. eauto.
      * left. lia.
  - simpl. split; [assumption|]. right. unfold standing. simpl. auto.
Qed.

Lemma control_run_app (s1 s2 : list action) :
  forall c : control,
    control_run ea was m (s1 ++ s2) c
    = control_run ea was m s2 (control_run ea was m s1 c).
Proof. induction s1 as [|act s1 IH]; intros c; simpl; auto. Qed.

(** Over a stretch of schedule [potential] goes down, or every step of it
    has stood still. *)
Lemma control_run_progress (r : list action) :
  forall c : control,
    control_ok ea was c ->
    let c' := control_run ea was m r c in
    control_ok ea was c' /\
    ((potential m (length was) c' < potential m (length was) c)%nat \/
     (potential m (length was) c' = potential m (length was) c /\
      standing c' = standing c /\
      forall act, In act r -> stuck m act (standing c))).
Proof.
  induction r as [|act r IH]; intros c Hok; cbn [control_run].
  - split; [assumption|]. right. repeat split; auto. intros act [].
  - destruct (control_step_progress act c Hok) as (Hok1 & Hcase1).
    destruct (IH _ Hok1) as (Hok2 & Hcase2). cbv zeta in *.
    set (c1 := control_step ea was m act c) in *. clearbody c1.
    set (c2 := control_run ea was m r c1) in *. clearbody c2.
    split; [assumption|].
    destruct Hcase1 as [H1|(Hp1 & Hs1 & Hst1)];
      destruct Hcase2 as [H2|(Hp2 & Hs2 & Hst2)].
    + left. lia.
    + left. lia.
    + left. lia.
    + right. split; [lia|]. split; [congruence|].
      intros act' [<-|Hin]; [assumption|].
      rewrite <- Hs1. now apply Hst2.
Qed.

Lemma Queue_full_nonempty (q : list pyobj) :
  Queue_full m q = true -> q <> [].
Proof.
  intros Hfull ->. rewrite (Queue_full_nil m) in Hfull. discriminate.
Qed.

Lemma running_exists (pcs : list worker_pc) :
  (1 <= running pcs)%nat ->
  exists w, (w < length pcs)%nat /\
            nth_error (map is_running pcs) w = Some true.
Proof.
  induction pcs as [|pc pcs IH]; unfold running in *; simpl; [lia|].
  destruct pc as [| |st]; simpl; intros Hrun.
  - exists 0%nat. split; [lia | reflexivity].
  - exists 0%nat. split; [lia | reflexivity].
  - destruct (IH Hrun) as (w & Hw & Hnth). exists (S w). split; [lia|].
    exact Hnth.
Qed.

(** While something is in the queue a worker is running. *)
Lemma control_ok_running (c : control) :
  control_ok ea was c ->
  (1 <= length was)%nat ->
  c_queue c <> [] ->
  (1 <= running (c_pcs c))%nat.
Proof.
  intros (Hlen & Hk & Hexit & Hpcs & Hfeed & items & j & Hq & Hitems & Hrun
          & Hsrc & Hlate) Hpos Hne.
  destruct (Nat.lt_ge_cases (running (c_pcs c)) (length was)) as [Hlt|Hge];
    [|lia].
  rewrite (Hlate Hlt) in Hq. simpl in Hq.
  destruct j as [|j]; [now elim Hne | lia].
Qed.

Lemma control_ok_final (c : control) :
  control_ok ea was c ->
  potential m (length was) c = 0%nat ->
  e_pc (c_feeder c) = EExit Graceful /\
  c_queue c = [] /\
  c_pcs c = repeat (WExit Graceful) (length was).
Proof.
  intros (Hlen & Hk & Hexit & Hpcs & Hfeed & items & j & Hq & Hitems & Hrun
          & Hsrc & Hlate) Hpot.
  unfold potential, work_left in Hpot.
  assert (Hleft : feeder_left (length was) (c_feeder c) = 0%nat) by nia.
  assert (Hqlen : length (c_queue c) = 0%nat) by nia.
  apply length_zero_iff_nil in Hqlen.
  unfold feeder_left, feeder_ok, sentinels_todo in *.
  destruct (e_pc (c_feeder c)) as [| | | |st]; try lia.
  destruct st; try contradiction.
  split; [reflexivity|]. split; [assumption|].
  rewrite Hqlen in Hq. symmetry in Hq. apply app_eq_nil in Hq.
  destruct Hq as (_ & Hj). destruct j; [|discriminate]. simpl in Hrun.
  rewrite <- Hlen. apply Forall_eq_repeat.
  clear Hlen Hlate. induction (c_pcs c) as [|pc pcs IH]; [constructor|].
  inversion Hpcs as [|? ? Hpc Hpcs']; subst.
  unfold running in *. simpl in Hrun.
  destruct Hpc as [->|[->| ->]]; simpl in Hrun; try discriminate.
  constructor; auto.
Qed.

(** A fair round lowers [potential] as long as it is not 0. *)
Lemma fair_round_progress (r : list action) (c : control) :
  control_ok ea was c ->
  (1 <= length was)%nat ->
  fair_round (length was) r ->
  control_ok ea was (control_run ea was m r c) /\
  (potential m (length was) (control_run ea was m r c)
   < potential m (length was) c \/
   potential m (length was) (control_run ea was m r c) = 0)%nat.
Proof.
  intros Hok Hpos (_ & Hfeed & Hwork).
  destruct (control_run_progress r c Hok) as (Hok' & Hcase).
  split; [assumption|].
  destruct Hcase as [Hlt|(Hpot & Hst & Hstuck)]; [now left|].
  right. rewrite Hpot.
  assert (Hq : c_queue c = []).
  { destruct (c_queue c) as [|x q0] eqn:Eq; [reflexivity|].
    assert (Hne : c_queue c <> []) by (rewrite Eq; discriminate).
    pose proof (control_ok_running c Hok Hpos Hne) as Hrun.
    destruct (running_exists _ Hrun) as (w & Hw & Hnth).
    destruct Hok as (Hlen & _). rewrite Hlen in Hw.
    specialize (Hstuck (Work w) (Hwork w Hw)).
    unfold stuck, standing in Hstuck. rewrite Eq in Hstuck.
    now apply Hstuck. }
  specialize (Hstuck Feed Hfeed). unfold stuck, standing in Hstuck.
  rewrite Hq in Hstuck. rewrite (Queue_full_nil m) in Hstuck.
  unfold potential, work_left, feeder_bit, waiting_bit. rewrite Hq.
  unfold feeder_exited, feeder_left in *.
  destruct (e_pc (c_feeder c));
    try (specialize (Hstuck eq_refl); discriminate).
  simpl. lia.
Qed.

Lemma fair_rounds_run (rounds : list (list action)) :
  forall c : control,
    control_ok ea was c ->
    (1 <= length was)%nat ->
    Forall (fair_round (length was)) rounds ->
    (potential m (length was) c <= length rounds)%nat ->
    control_ok ea was (control_run ea was m (concat rounds) c) /\
    potential m (length was) (control_run ea was m (concat rounds) c) = 0%nat.
Proof.
  induction rounds as [|r rounds IH]; intros c Hok Hpos Hfair Hpot; simpl.
  - split; [assumption | simpl in Hpot; lia].
  - inversion Hfair as [|? ? Hr Hrs]; subst.
    rewrite control_run_app.
    destruct (fair_round_progress r c Hok Hpos Hr) as (Hok1 & Hcase).
    apply IH; auto. simpl in Hpot. lia.
Qed.

Lemma no_cancellation_concat (rounds : list (list action)) :
  Forall (fair_round (length was)) rounds ->
  no_cancellation (concat rounds) = true.
Proof.
  induction rounds as [|r rounds IH]; intros Hfair; [reflexivity|].
  inversion Hfair as [|? ? (Hr & _) Hrs]; subst.
  simpl. unfold no_cancellation in *. rewrite forallb_app, Hr. simpl. auto.
Qed.

Lemma control_init_ok :
  iterator ea <> [] ->
  Forall (returns ea) (iterator ea) ->
  Forall (fun item => item <> PyNone) (filtered ea) ->
  Forall (worker_returns ea) was ->
  length was = Z.to_nat (n_workers ea) ->
  control_ok ea was (control_init ea was).
Proof.
  intros Hne Hret Hitems Hws Hlen.
  unfold control_ok, control_init. simpl.
  split; [apply repeat_length|]. split; [assumption|].
  split.
  { rewrite Forall_forall in *. intros wa Hin. now apply Hws. }
  split.
  { apply Forall_forall. intros pc Hin. apply repeat_spec in Hin. auto. }
  split.
  { unfold feeder_ok. simpl. split; [assumption|].
    unfold source_ok. rewrite Forall_forall in *. intros file Hin.
    split; [now apply Hret|]. intros Hacc.
    assert (Hf : In file (filtered ea)) by (now apply filter_In).
    split; [now apply Hitems|].
    apply Forall_forall. intros wa Hwa. now apply (Hws wa Hwa). }
  exists [], 0%nat. repeat split; auto.
  unfold running, sentinels_todo. simpl. clear.
  induction (length was) as [|k IH]; simpl; [reflexivity|].
  rewrite IH. lia.
Qed.

(** Every schedule made of enough fair rounds takes the pipeline to its
    end: the enqueuer and all the workers have exited gracefully and the
    queue is empty. *)
Lemma fair_schedule_runs (rounds : list (list action)) :
  iterator ea <> [] ->
  Forall (returns ea) (iterator ea) ->
  Forall (fun item => item <> PyNone) (filtered ea) ->
  Forall (worker_returns ea) was ->
  length was = Z.to_nat (n_workers ea) ->
  (1 <= length was)%nat ->
  Forall (fair_round (length was)) rounds ->
  (rounds_bound ea was <= length rounds)%nat ->
  no_cancellation (concat rounds) = true /\
  e_pc (feeder (threadables ea was m (concat rounds))) = EExit Graceful /\
  queue (threadables ea was m (concat rounds)) = [] /\
  map w_pc (workers (threadables ea was m (concat rounds)))
  = repeat (WExit Graceful) (length was).
Proof.
  intros Hne Hret Hitems Hws Hlen Hpos Hfair Hbound.
  pose proof (no_cancellation_concat rounds Hfair) as Hnc.
  split; [assumption|].
  pose proof (control_init_ok Hne Hret Hitems Hws Hlen) as Hok.
  assert (Hpot : (potential m (length was) (control_init ea was)
                  <= length rounds)%nat).
  { unfold rounds_bound in Hbound.
    unfold potential, work_left, feeder_bit, waiting_bit, feeder_left.
    simpl. lia. }
  destruct (fair_rounds_run rounds _ Hok Hpos Hfair Hpot) as (Hok' & Hzero).
  destruct (control_ok_final _ Hok' Hzero) as (Hpc & Hq & Hpcs).
  pose proof (control_run_at ea was m (concat rounds)
                (pipeline_init ea was m) (control_init ea was)
                (pipeline_init_at ea was m) Hnc) as Hat.
  fold (threadables ea was m (concat rounds)) in Hat.
  destruct Hat as (_ & Hq' & _ & Hfd & Hpcs' & _).
  rewrite Hfd, Hq', Hpcs'. auto.
Qed.

End FairRounds.

(** ** Properties of the pipeline *)

(** Scenario A on a queue of size 1, the two threads taking turns: the
    worker has processed 2 then 4 and left by the sentinel, calling
    [exit_func] once. *)
Example scenario_A_pipeline :
  let p := threadables scenario_A [noop] 1
             (concat (repeat [Feed; Work 0] 12)) in
  e_pc (feeder p) = EExit Graceful /\
  queue p = [] /\
  map w_pc (workers p) = [WExit Graceful] /\
  map (fun t => processed (w_log t)) (workers p) = [[PyInt 2; PyInt 4]] /\
  map (fun t => exit_calls (w_log t)) (workers p) = [1%nat].
Proof. vm_compute. repeat split. Qed.

(** C7 as stated fails: with [None] among the accepted elements the worker
    takes the first [None] for the sentinel and leaves the items after it
    in the queue. *)
Lemma none_item_cuts_processing :
  let ea := EnqArgs [PyInt 1; PyNone; PyInt 2] (always true) 1 None None in
  let p := threadables ea [noop] 0
             [Feed; Feed; Feed; Feed; Feed; Feed; Feed; Feed; Feed;
              Work 0; Work 0; Work 0; Work 0] in
  no_cancellation [Feed; Feed; Feed; Feed; Feed; Feed; Feed; Feed; Feed;
                   Work 0; Work 0; Work 0; Work 0] = true /\
  filtered ea = [PyInt 1; PyNone; PyInt 2] /\
  e_pc (feeder p) = EExit Graceful /\
  map w_pc (workers p) = [WExit Graceful] /\
  map (fun t => processed (w_log t)) (workers p) = [[PyInt 1]] /\
  queue p = [PyInt 2; PyNone].
Proof. vm_compute. repeat split. Qed.

(** C7, amended: with one worker, no limit, and no [None] among the
    elements the predicate accepts, the items the worker has processed are
    at any time, under any schedule, a prefix of the accepted elements in
    source order, and all of them once the worker has exited gracefully.
    When moreover the source is not empty, [n_workers] is 1, the predicate
    returns on every element, and [func] and [exit_func] return, every
    schedule without cancellation that is made of enough fair rounds takes
    the worker to that graceful exit. *)
Theorem single_worker_fifo (ea : enq_args) (wa : worker_args) (m : Z) :
  n ea = None ->
  Forall (fun item => item <> PyNone) (filtered ea) ->
  (forall sched, exists t,
      workers (threadables ea [wa] m sched) = [t] /\
      (exists rest, processed (w_log t) ++ rest = filtered ea) /\
      (w_pc t = WExit Graceful -> processed (w_log t) = filtered ea)) /\
  (iterator ea <> [] ->
   n_workers ea = 1 ->
   Forall (returns ea) (iterator ea) ->
   worker_returns ea wa ->
   forall rounds,
     Forall (fair_round 1) rounds ->
     (rounds_bound ea [wa] <= length rounds)%nat ->
     exists t,
       no_cancellation (concat rounds) = true /\
       workers (threadables ea [wa] m (concat rounds)) = [t] /\
       w_pc t = WExit Graceful /\
       processed (w_log t) = filtered ea).
Proof.
  intros Hn Hitems.
  assert (Hsafe : forall sched t,
             workers (threadables ea [wa] m sched) = [t] ->
             (exists rest, processed (w_log t) ++ rest = filtered ea) /\
             (w_pc t = WExit Graceful -> processed (w_log t) = filtered ea)).
  { intros sched t Ht.
    pose proof (single_worker_processed ea _ t
                  (threadables_inv ea [wa] m sched) Ht) as H.
    rewrite Hn in H. simpl in H. auto. }
  split.
  - intros sched. destruct (single_thread ea wa m sched) as (t & Ht).
    exists t. split; [assumption | exact (Hsafe sched t Ht)].
  - intros Hne Hk Hret Hwa rounds Hfair Hbound.
    destruct (fair_schedule_runs ea [wa] m rounds Hne Hret Hitems)
      as (Hnc & _ & _ & Hpcs); auto.
    + now rewrite Hk.
    + destruct (single_thread ea wa m (concat rounds)) as (t & Ht).
      rewrite Ht in Hpcs. simpl in Hpcs. injection Hpcs as Hpc.
      exists t. split; [assumption|].
      split; [assumption|]. split; [assumption|].
      now apply (Hsafe (concat rounds) t Ht).
Qed.

Lemma single_worker_fifo_witness :
  (forall sched, exists t,
      workers (threadables scenario_A [noop] 1 sched) = [t] /\
      (exists rest, processed (w_log t) ++ rest = [PyInt 2; PyInt 4]) /\
      (w_pc t = WExit Graceful -> processed (w_log t) = [PyInt 2; PyInt 4])) /\
  (exists t,
      no_cancellation (concat (repeat [Feed; Work 0] 48)) = true /\
      workers (threadables scenario_A [noop] 1
                 (concat (repeat [Feed; Work 0] 48))) = [t] /\
      w_pc t = WExit Graceful /\
      processed (w_log t) = [PyInt 2; PyInt 4]).
Proof.
  assert (Hitems : Forall (fun item => item <> PyNone) (filtered scenario_A))
    by (repeat constructor; discriminate).
  destruct (single_worker_fifo scenario_A noop 1 eq_refl Hitems)
    as (Hsafe & Hlive).
  split; [exact Hsafe|].
  apply Hlive.
  - discriminate.
  - reflexivity.
  - repeat constructor; eexists; reflexivity.
  - split; [intros item _; eexists; reflexivity | discriminate].
  - apply Forall_forall. intros r Hr. apply repeat_spec in Hr. subst r.
    split; [reflexivity|]. split; [now left|].
    intros w Hw. assert (w = 0%nat) as -> by lia. right. now left.
  - apply Nat.eq_le_incl. reflexivity.
Defined.

(** C6 as stated fails when [func] raises: the source is exhausted without
    cancellation and the enqueuer puts its [n_workers = 1] sentinel, but the
    only worker has left with the exception of [func] and no worker exits
    gracefully; the sentinel stays in the queue. *)
Lemma func_raises_no_graceful_exit :
  let ea := EnqArgs [PyStr "x"] (always true) 1 None None in
  let wa := WorkerArgs is_even (Some (Return PyNone)) None in
  let sched := [Feed; Feed; Feed; Feed; Feed; Work 0; Work 0; Work 0] in
  let p := threadables ea [wa] 0 sched in
  no_cancellation sched = true /\
  e_pc (feeder p) = EExit Graceful /\
  sentinels_put (feeder_log p) = 1%nat /\
  map w_pc (workers p) = [WExit (Uncaught (Exception "TypeError"))] /\
  map (fun t => exit_calls (w_log t)) (workers p) = [0%nat] /\
  queue p = [PyNone].
Proof. vm_compute. repeat split. Qed.

(** On a source that is exhausted from the start the enqueuer ends with
    [StopIteration] without putting any of its [n_workers = 1] sentinels,
    and the worker, nobody cancelling it, is left polling the queue. *)
Lemma empty_source_no_sentinels :
  let ea := EnqArgs [] (always true) 1 None None in
  let sched := [Feed; Work 0; Work 0; Feed; Work 0; Work 0; Feed; Work 0] in
  let p := threadables ea [noop] 0 sched in
  no_cancellation sched = true /\
  Z.to_nat (n_workers ea) = 1%nat /\
  e_pc (feeder p) = EExit (Uncaught StopIteration) /\
  sentinels_put (feeder_log p) = 0%nat /\
  map w_pc (workers p) = [WGet] /\
  map (fun t => exit_calls (w_log t)) (workers p) = [0%nat].
Proof. vm_compute. repeat split. Qed.

(** C6, amended.  Whenever [enqueuer] reaches its graceful exit, that is
    whenever its loop is left by the end of the source or by the limit, it
    has put exactly [n_workers] sentinels (none when [n_workers <= 0]),
    after the items.  A worker that has exited gracefully has dequeued one
    sentinel, last, and has called its [exit_func], if it was given one,
    exactly once; a worker that has exited killed has not called it.  On a
    source that is not empty, with a predicate that returns on every
    element, the enqueuer does reach that exit when nobody sets its kill
    event and the queue has room at each put.  In a pipeline with
    [n_workers >= 1] workers, a source that is not empty, a predicate that
    returns on every element and accepts no [None], and [func] and
    [exit_func] that return, every schedule without cancellation that is
    made of enough fair rounds takes the enqueuer and every one of the
    workers to a graceful exit. *)
Theorem termination_protocol (ea : enq_args) (was : list worker_args) (m : Z) :
  (forall vs,
      e_pc (fst (enqueuer ea vs)) = EExit Graceful ->
      sentinels_put (snd (enqueuer ea vs)) = Z.to_nat (n_workers ea) /\
      enqueued (snd (enqueuer ea vs))
      = limited (n ea) (filtered ea)
        ++ repeat PyNone (Z.to_nat (n_workers ea))) /\
  (forall wa vs,
      (fst (worker wa vs) = WExit Graceful ->
       dequeued (snd (worker wa vs)) = processed (snd (worker wa vs)) ++ [PyNone]
       /\ exit_calls (snd (worker wa vs)) = exit_calls_due wa) /\
      (fst (worker wa vs) = WExit Killed ->
       exit_calls (snd (worker wa vs)) = 0%nat)) /\
  (iterator ea <> [] ->
   Forall (returns ea) (iterator ea) ->
   forall vs,
     Forall (roomy ea) vs ->
     (2 * length (iterator ea) + Z.to_nat (n_workers ea) + 1 < length vs)%nat ->
     e_pc (fst (enqueuer ea vs)) = EExit Graceful) /\
  (iterator ea <> [] ->
   Forall (returns ea) (iterator ea) ->
   Forall (fun item => item <> PyNone) (filtered ea) ->
   Forall (worker_returns ea) was ->
   length was = Z.to_nat (n_workers ea) ->
   1 <= n_workers ea ->
   forall rounds,
     Forall (fair_round (length was)) rounds ->
     (rounds_bound ea was <= length rounds)%nat ->
     no_cancellation (concat rounds) = true /\
     e_pc (feeder (threadables ea was m (concat rounds))) = EExit Graceful /\
     sentinels_put (feeder_log (threadables ea was m (concat rounds)))
     = length was /\
     map w_pc (workers (threadables ea was m (concat rounds)))
     = repeat (WExit Graceful) (length was) /\
     Forall (fun t => exit_calls (w_log t) = exit_calls_due (w_args t))
            (workers (threadables ea was m (concat rounds)))).
Proof.
  split; [|split; [|split]].
  - intros vs Hpc.
    destruct (enqueuer_items_before_sentinels ea vs Hpc) as (He & _ & Hs).
    auto.
  - intros wa vs.
    pose proof (worker_run_inv wa vs WLoop [] (worker_inv_init wa)) as Hinv.
    fold (worker wa vs) in Hinv. simpl in Hinv.
    destruct Hinv as (_ & Hpc).
    split; intros E; rewrite E in Hpc; tauto.
  - intros Hne Hret vs Hvs Hlen. now apply enqueuer_total.
  - intros Hne Hret Hitems Hws Hlen Hk rounds Hfair Hbound.
    destruct (fair_schedule_runs ea was m rounds Hne Hret Hitems Hws Hlen)
      as (Hnc & Hpc & _ & Hpcs); auto; [lia|].
    pose proof (threadables_inv ea was m (concat rounds))
      as (Henq & Hwinv & _).
    split; [assumption|]. split; [assumption|].
    split; [rewrite Hlen; now apply (enq_inv_graceful ea _ _ Henq Hpc)|].
    split; [assumption|].
    assert (Hall : Forall (fun pc => pc = WExit Graceful)
                     (map w_pc (workers (threadables ea was m
                                           (concat rounds))))).
    { rewrite Hpcs. apply Forall_forall. intros pc Hin.
      now apply repeat_spec in Hin. }
    rewrite Forall_map in Hall.
    rewrite Forall_forall in *. intros t Hin.
    destruct (Hwinv t Hin) as (_ & Hpct). rewrite (Hall t Hin) in Hpct.
    tauto.
Qed.

Lemma termination_protocol_witness :
  let ea := EnqArgs (map PyInt [1; 2; 3; 4; 5; 6; 7; 8; 9; 10]) (always true)
                    2 (Some 3) None in
  let sched := concat (repeat [Work 1; Feed; Work 0] 112) in
  no_cancellation sched = true /\
  e_pc (feeder (threadables ea [noop; noop] 1 sched)) = EExit Graceful /\
  sentinels_put (feeder_log (threadables ea [noop; noop] 1 sched)) = 2%nat /\
  map w_pc (workers (threadables ea [noop; noop] 1 sched))
  = [WExit Graceful; WExit Graceful] /\
  Forall (fun t => exit_calls (w_log t) = exit_calls_due (w_args t))
         (workers (threadables ea [noop; noop] 1 sched)).
Proof.
  intros ea sched.
  apply (proj2 (proj2 (proj2 (termination_protocol ea [noop; noop] 1)))).
  - discriminate.
  - repeat constructor; eexists; reflexivity.
  - repeat constructor; discriminate.
  - repeat constructor; try (intros item _; eexists; reflexivity);
      discriminate.
  - reflexivity.
  - simpl. lia.
  - apply Forall_forall. intros r Hr. apply repeat_spec in Hr. subst r.
    split; [reflexivity|]. split; [right; now left|].
    intros w Hw. simpl in Hw.
    assert (w = 0 \/ w = 1)%nat as [-> | ->] by lia;
      simpl; auto.
  - apply Nat.eq_le_incl. reflexivity.
Defined.

(** * Further properties of the code *)

(** ** [enqueuer]: what is put, and what is read *)

Lemma items_put_app (l1 l2 : list event) :
  items_put (l1 ++ l2) = items_put l1 ++ items_put l2.
Proof.
  induction l1 as [|ev l1 IH]; simpl; [reflexivity|].
  destruct ev as [item [t|] [|]| | | |]; simpl; now rewrite ?IH.
Qed.

Lemma sentinels_put_app (l1 l2 : list event) :
  sentinels_put (l1 ++ l2) = (sentinels_put l1 + sentinels_put l2)%nat.
Proof.
  induction l1 as [|ev l1 IH]; simpl; [reflexivity|].
  destruct ev as [item [t|] [|]| | | |]; simpl; now rewrite ?IH.
Qed.

Section EnqueuerShape.

Variable a : enq_args.

Lemma at_element_shape (s : enq_state) (L : list event) (file : pyobj) :
  at_element a s L file ->
  exists before,
    iterator a = before ++ file :: e_iter s /\
    done_puts L = map item_put (filter (accepts a) before) /\
    exists rest, filter (accepts a) before ++ rest = limited (n a) (filtered a).
Proof.
  intros (before & Hit & _ & Hputs & Hi & Hlim).
  exists before. split; [assumption|]. split; [assumption|].
  unfold filtered. rewrite Hit, filter_app.
  destruct (n a) as [m|]; simpl; [|eauto].
  rewrite firstn_app, firstn_all2; [eauto|].
  rewrite Hi in Hlim. simpl in Hlim.
  destruct Hlim as [Hlim|Hlim]; [apply Z.leb_gt in Hlim|]; lia.
Qed.

(** The puts of a run: a prefix of the items, then, once they are all in,
    at most [n_workers] sentinels. *)
Lemma enq_inv_shape (s : enq_state) (L : list event) :
  enq_inv a s L ->
  exists items j,
    done_puts L = map item_put items ++ repeat sentinel_put j /\
    (exists rest, items ++ rest = limited (n a) (filtered a)) /\
    (j <> 0%nat -> items = limited (n a) (filtered a)) /\
    (j <= Z.to_nat (n_workers a))%nat.
Proof.
  assert (Hel : forall file, at_element a s L file ->
            exists items j,
              done_puts L = map item_put items ++ repeat sentinel_put j /\
              (exists rest, items ++ rest = limited (n a) (filtered a)) /\
              (j <> 0%nat -> items = limited (n a) (filtered a)) /\
              (j <= Z.to_nat (n_workers a))%nat).
  { intros file H. destruct (at_element_shape s L file H)
      as (before & _ & Hputs & Hrest).
    exists (filter (accepts a) before), 0%nat. simpl.
    rewrite app_nil_r. repeat split; auto; lia. }
  unfold enq_inv. destruct (e_pc s) as [|file|file|todo|[| |e]].
  - intros (_ & _ & ->). exists [], 0%nat. simpl.
    repeat split; eauto; lia.
  - apply Hel.
  - intros (H & _). now apply Hel with file.
  - intros (Hle & _ & H). eexists _, _. split; [exact H|].
    repeat split; auto; [exists []; apply app_nil_r | lia].
  - intros (file & H & _). now apply Hel with file.
  - intros (_ & H). eexists _, _. split; [exact H|].
    repeat split; auto. exists []. apply app_nil_r.
  - intros [(_ & _ & ->)|(file & H & _)]; [|now apply Hel with file].
    exists [], 0%nat. simpl. repeat split; eauto; lia.
Qed.

End EnqueuerShape.

(** X1: in every run of [enqueuer], whatever the timeouts, the kill event
    and the exceptions, the items put are accepted elements, in source
    order and without repetition: a prefix of the accepted elements (up to
    the limit).  In the queue they come before the sentinels, a sentinel is
    only put once all the items are in, and there are never more than
    [n_workers] sentinels. *)
Theorem enqueuer_puts_accepted_in_order (a : enq_args) (vs : list view) :
  let l := snd (enqueuer a vs) in
  (exists rest, items_put l ++ rest = limited (n a) (filtered a)) /\
  Forall (fun item => accepts a item = true) (items_put l) /\
  enqueued l = items_put l ++ repeat PyNone (sentinels_put l) /\
  (sentinels_put l <> 0%nat -> items_put l = limited (n a) (filtered a)) /\
  (sentinels_put l <= Z.to_nat (n_workers a))%nat.
Proof.
  intros l.
  destruct (enq_inv_shape a _ _ (enqueuer_inv a vs))
    as (items & j & Hputs & (rest & Hrest) & Hall & Hj).
  fold l in Hputs.
  assert (Hi : items_put l = items)
    by (rewrite <- items_put_done_puts, Hputs; apply items_put_shape).
  assert (Hs : sentinels_put l = j)
    by (rewrite <- sentinels_put_done_puts, Hputs; apply sentinels_put_shape).
  assert (He : enqueued l = items ++ repeat PyNone j)
    by (rewrite <- enqueued_done_puts, Hputs; apply enqueued_shape).
  rewrite Hi, Hs, He. repeat split; eauto.
  apply Forall_forall. intros item Hin.
  assert (Hlim : In item (limited (n a) (filtered a)))
    by (rewrite <- Hrest; apply in_or_app; now left).
  assert (Hf : In item (filtered a)).
  { unfold limited in Hlim. destruct (n a); [|assumption].
    rewrite <- (firstn_skipn (Z.to_nat (Z.max z 1)) (filtered a)). apply in_or_app. now left. }
  unfold filtered in Hf. now apply filter_In in Hf.
Qed.

(** X2: whenever [enqueuer] exits killed it had been given a kill event, it
    stands at an element the predicate accepts and has not put it, what it
    has put are the accepted elements before that one, and it has put no
    sentinel: the workers get no stop signal through the queue. *)
Theorem enqueuer_killed_puts_no_sentinel (a : enq_args) (vs : list view) :
  e_pc (fst (enqueuer a vs)) = EExit Killed ->
  kill_event a <> None /\
  sentinels_put (snd (enqueuer a vs)) = 0%nat /\
  exists before file,
    iterator a = before ++ file :: e_iter (fst (enqueuer a vs)) /\
    accepts a file = true /\
    items_put (snd (enqueuer a vs)) = filter (accepts a) before /\
    enqueued (snd (enqueuer a vs)) = filter (accepts a) before.
Proof.
  intros Hpc. pose proof (enqueuer_inv a vs) as Hinv.
  unfold enq_inv in Hinv. rewrite Hpc in Hinv.
  destruct Hinv as (file & Hat & Hacc & Hk).
  destruct (at_element_shape a _ _ file Hat) as (before & Hit & Hputs & _).
  rewrite <- (app_nil_r (map item_put _)) in Hputs.
  change (@nil event) with (repeat sentinel_put 0) in Hputs.
  split; [assumption|]. split.
  - rewrite <- sentinels_put_done_puts, Hputs. apply sentinels_put_shape.
  - exists before, file. split; [assumption|]. split; [assumption|].
    rewrite <- items_put_done_puts, <- enqueued_done_puts, Hputs.
    rewrite items_put_shape, enqueued_shape. simpl.
    now rewrite app_nil_r.
Qed.

Lemma enqueuer_killed_puts_no_sentinel_witness :
  let a := EnqArgs [PyInt 2; PyInt 3; PyInt 4; PyInt 6] is_even 2 None
                   (Some 0%nat) in
  let vs := [quiet; quiet; quiet; quiet; kill_set] in
  kill_event a <> None /\
  sentinels_put (snd (enqueuer a vs)) = 0%nat /\
  exists before file,
    iterator a = before ++ file :: e_iter (fst (enqueuer a vs)) /\
    accepts a file = true /\
    items_put (snd (enqueuer a vs)) = filter (accepts a) before /\
    enqueued (snd (enqueuer a vs)) = filter (accepts a) before.
Proof.
  apply (enqueuer_killed_puts_no_sentinel
           (EnqArgs [PyInt 2; PyInt 3; PyInt 4; PyInt 6] is_even 2 None
                    (Some 0%nat))
           [quiet; quiet; quiet; quiet; kill_set]).
  reflexivity.
Defined.

(** X3: on a source that is not empty, with a predicate that returns on
    every element, room in the queue and no kill, [enqueuer] given the limit
    [n = m] exits gracefully having put exactly [min(max(m, 1), accepted)]
    items: the limit the docstring describes from [m = 1] on, and one item
    for every [m <= 1], zero and the negative numbers included. *)
Theorem enqueuer_limit_count (a : enq_args) (m : Z) (vs : list view) :
  n a = Some m ->
  iterator a <> [] ->
  Forall (returns a) (iterator a) ->
  Forall (roomy a) vs ->
  (2 * length (iterator a) + Z.to_nat (n_workers a) + 1 < length vs)%nat ->
  e_pc (fst (enqueuer a vs)) = EExit Graceful /\
  Z.of_nat (length (items_put (snd (enqueuer a vs))))
  = Z.min (Z.max m 1) (Z.of_nat (length (filtered a))).
Proof.
  intros Hn Hne Hret Hvs Hlen.
  pose proof (enqueuer_total a vs Hne Hret Hvs Hlen) as Hpc.
  split; [assumption|].
  destruct (enqueuer_items_before_sentinels a vs Hpc) as (_ & Hitems & _).
  rewrite Hitems, Hn, limited_length. lia.
Qed.

Lemma enqueuer_limit_count_witness :
  let a := EnqArgs (map PyInt [1; 2; 3; 4; 5; 6]) is_even 2 (Some (-4)) None in
  e_pc (fst (enqueuer a (repeat quiet 16))) = EExit Graceful /\
  Z.of_nat (length (items_put (snd (enqueuer a (repeat quiet 16)))))
  = Z.min (Z.max (-4) 1) (Z.of_nat (length (filtered a))).
Proof.
  apply (enqueuer_limit_count
           (EnqArgs (map PyInt [1; 2; 3; 4; 5; 6]) is_even 2 (Some (-4)) None)
           (-4) (repeat quiet 16)).
  - reflexivity.
  - discriminate.
  - repeat constructor; eexists; reflexivity.
  - repeat constructor.
  - simpl. lia.
Defined.

Section Cursor.

Variable a : enq_args.

Lemma enq_advance_cursor (consumed rest : list pyobj) (file : pyobj) (i : Z)
  (L : list event) :
  iterator a = consumed ++ file :: rest ->
  items_put L = filter (accepts a) (consumed ++ [file]) ->
  i = Z.of_nat (length (items_put L)) ->
  cursor_inv a (enq_advance a rest i) L.
Proof.
  intros Hit Hputs Hi. destruct rest as [|y rest]; unfold cursor_inv; simpl.
  - exists (consumed ++ [file]). rewrite <- app_assoc. auto.
  - exists (consumed ++ [file]). rewrite <- app_assoc. auto.
Qed.

Lemma enq_step_cursor (v : view) (s : enq_state) (L : list event) :
  cursor_inv a s L ->
  cursor_inv a (fst (enq_step a v s)) (L ++ snd (enq_step a v s)).
Proof.
  destruct s as [pc it i]. unfold cursor_inv, enq_step. simpl.
  destruct pc as [|file|file|[|todo]|[| |e]]; simpl.
  - intros (Hit & -> & Hi). subst.
    destruct (iterator a) as [|file it'] eqn:E; simpl; [exact I|].
    exists []. simpl. auto.
  - intros (consumed & Hit & Hputs & Hi).
    destruct (filter_func a file) as [r|e] eqn:Ef; simpl; [|exact I].
    assert (Hacc : accepts a file = truthy r)
      by (unfold accepts; now rewrite Ef).
    destruct (truthy r); simpl.
    + destruct (kill_requested (kill_event a) v); simpl; [exact I|].
      rewrite app_nil_r. split; [assumption|]. exists consumed. auto.
    + rewrite app_nil_r. apply enq_advance_cursor with consumed file; auto.
      now rewrite filter_snoc, Hacc, app_nil_r.
  - intros (Hacc & consumed & Hit & Hputs & Hi).
    unfold Queue_put. destruct (q_full v); simpl.
    + exists consumed. rewrite items_put_app. simpl.
      rewrite app_nil_r. auto.
    + assert (Hputs' : items_put (L ++ [QPut file (Some TIMEOUT) true])
                       = filter (accepts a) (consumed ++ [file])).
      { rewrite items_put_app, filter_snoc, Hacc, Hputs. reflexivity. }
      assert (Hi' : i + 1
                    = Z.of_nat (length (items_put
                                          (L ++ [QPut file (Some TIMEOUT) true])))).
      { rewrite items_put_app, length_app. simpl. lia. }
      destruct (limit_reached (n a) (i + 1)) eqn:El; simpl.
      * exists (consumed ++ [file]). rewrite <- app_assoc.
        repeat split; auto. right. split; [assumption|]. eauto.
      * apply enq_advance_cursor with consumed file; auto.
  - rewrite app_nil_r. auto.
  - unfold Queue_put. destruct (q_full v); simpl.
    + rewrite app_nil_r. auto.
    + rewrite items_put_app. simpl. rewrite app_nil_r. auto.
  - auto.
  - rewrite app_nil_r. auto.
  - auto.
Qed.

Lemma enq_run_cursor (vs : list view) :
  forall (s : enq_state) (L : list event),
    cursor_inv a s L ->
    cursor_inv a (fst (enq_run a vs s)) (L ++ snd (enq_run a vs s)).
Proof.
  induction vs as [|v vs IH]; intros s L Hinv; simpl.
  - now rewrite app_nil_r.
  - pose proof (enq_step_cursor v s L Hinv) as Hstep.
    destruct (enq_step a v s) as [s1 l1]. simpl in Hstep.
    specialize (IH s1 (L ++ l1) Hstep).
    destruct (enq_run a vs s1) as [s2 l2]. simpl in *.
    now rewrite app_assoc.
Qed.

End Cursor.

(** X4: at its graceful exit [enqueuer] has read the iterator up to a
    point and no further: what it has put are the accepted elements among
    those it has read, the counter [i] is their number, and the iterator
    still holds all the elements after them.  It has read the whole source,
    unless the limit was reached, in which case the last element it read is
    the accepted element whose put reached the limit. *)
Theorem enqueuer_leaves_rest_of_iterator (a : enq_args) (vs : list view) :
  e_pc (fst (enqueuer a vs)) = EExit Graceful ->
  exists consumed,
    iterator a = consumed ++ e_iter (fst (enqueuer a vs)) /\
    items_put (snd (enqueuer a vs)) = filter (accepts a) consumed /\
    e_i (fst (enqueuer a vs))
    = Z.of_nat (length (items_put (snd (enqueuer a vs)))) /\
    (e_iter (fst (enqueuer a vs)) = [] \/
     (limit_reached (n a) (e_i (fst (enqueuer a vs))) = true /\
      exists before file,
        consumed = before ++ [file] /\ accepts a file = true)).
Proof.
  intros Hpc.
  pose proof (enq_run_cursor a vs (enq_init a) []) as Hinv.
  fold (enqueuer a vs) in Hinv. simpl in Hinv.
  unfold cursor_inv at 2 in Hinv. rewrite Hpc in Hinv.
  apply Hinv. unfold cursor_inv. simpl. auto.
Qed.

Lemma enqueuer_leaves_rest_of_iterator_witness :
  let a := EnqArgs (map PyInt [1; 2; 3; 4; 5; 6]) is_even 1 (Some 2) None in
  let r := enqueuer a (repeat quiet 9) in
  e_iter (fst r) = [PyInt 5; PyInt 6] /\
  exists consumed,
    iterator a = consumed ++ e_iter (fst r) /\
    items_put (snd r) = filter (accepts a) consumed /\
    e_i (fst r) = Z.of_nat (length (items_put (snd r))) /\
    (e_iter (fst r) = [] \/
     (limit_reached (n a) (e_i (fst r)) = true /\
      exists before file,
        consumed = before ++ [file] /\ accepts a file = true)).
Proof.
  split; [reflexivity|].
  apply (enqueuer_leaves_rest_of_iterator
           (EnqArgs (map PyInt [1; 2; 3; 4; 5; 6]) is_even 1 (Some 2) None)
           (repeat quiet 9)).
  reflexivity.
Defined.

(** ** [enqueuer] and [worker] once the kill event is set *)

Lemma enq_run_cons (a : enq_args) (v : view) (vs : list view)
  (s : enq_state) :
  enq_run a (v :: vs) s
  = (fst (enq_run a vs (fst (enq_step a v s))),
     snd (enq_step a v s) ++ snd (enq_run a vs (fst (enq_step a v s)))).
Proof.
  simpl. destruct (enq_step a v s) as [s1 l1]. simpl.
  now destruct (enq_run a vs s1).
Qed.

Section AfterKill.

Variable a : enq_args.
Variable ev : nat.
Hypothesis Hkill : kill_event a = Some ev.

Lemma enq_run_left_source (vs : list view) :
  forall s : enq_state,
    left_source s ->
    left_source (fst (enq_run a vs s)) /\ items_put (snd (enq_run a vs s)) = [].
Proof.
  induction vs as [|v vs IH]; intros s Hs; [simpl; auto|].
  rewrite enq_run_cons.
  destruct s as [pc it i]. unfold left_source in Hs. simpl in Hs.
  unfold enq_step. simpl.
  destruct pc as [| | |[|todo]|st]; try contradiction; simpl.
  - apply IH. exact I.
  - unfold Queue_put. destruct (q_full v); simpl; apply IH; exact I.
  - apply IH. exact I.
Qed.

(** From the top of the loop, the kill event being set: no item is put, and
    the loop is left within one step per element still to come. *)
Lemma enq_run_killed_loop :
  forall (it : list pyobj) (file : pyobj) (i : Z) (vs : list view),
    Forall (fun v => is_set v ev = true) vs ->
    items_put (snd (enq_run a vs (EnqState (ELoop file) it i))) = [] /\
    ((length it < length vs)%nat ->
     left_source (fst (enq_run a vs (EnqState (ELoop file) it i)))).
Proof.
  assert (Hexit : forall st it i vs,
             items_put (snd (enq_run a vs (EnqState (EExit st) it i))) = [] /\
             left_source (fst (enq_run a vs (EnqState (EExit st) it i)))).
  { intros st it i vs. rewrite enq_run_exit. simpl. split; [reflexivity|exact I]. }
  induction it as [|y it IH]; intros file i vs Hvs;
    (destruct vs as [|v vs]; [simpl; split; [reflexivity | lia]|]);
    inversion Hvs as [|? ? Hv Hvs']; subst;
    rewrite enq_run_cons; unfold enq_step; simpl;
    (destruct (filter_func a file) as [r|e]; simpl;
     [destruct (truthy r); simpl;
      [unfold kill_requested; rewrite Hkill, Hv; simpl|]|]);
    try (destruct (Hexit Killed (@nil pyobj) i vs) as (H1 & H2);
         split; [assumption | intros _; assumption]);
    try (destruct (Hexit Killed (y :: it) i vs) as (H1 & H2);
         split; [assumption | intros _; assumption]);
    try (destruct (Hexit (Uncaught e) (@nil pyobj) i vs) as (H1 & H2);
         split; [assumption | intros _; assumption]);
    try (destruct (Hexit (Uncaught e) (y :: it) i vs) as (H1 & H2);
         split; [assumption | intros _; assumption]).
  - destruct (enq_run_left_source vs
                (EnqState (ESentinels (Z.to_nat (n_workers a))) [] i) I)
      as (H1 & H2). auto.
  - destruct (IH y i vs Hvs') as (H1 & H2).
    split; [assumption|]. intros Hlen. apply H2. lia.
Qed.

Lemma enq_run_killed_advance (it : list pyobj) (i : Z) (vs : list view) :
  Forall (fun v => is_set v ev = true) vs ->
  items_put (snd (enq_run a vs (enq_advance a it i))) = [] /\
  ((length it <= length vs)%nat ->
   left_source (fst (enq_run a vs (enq_advance a it i)))).
Proof.
  intros Hvs. destruct it as [|y it]; simpl.
  - destruct (enq_run_left_source vs
                (EnqState (ESentinels (Z.to_nat (n_workers a))) [] i) I)
      as (H1 & H2). auto.
  - destruct (enq_run_killed_loop it y i vs Hvs) as (H1 & H2).
    split; [assumption|]. intros Hlen. apply H2. lia.
Qed.

End AfterKill.

(** X5: once its kill event is set and stays set, [enqueuer] puts no
    further item, except the one whose put (line 58) was under way when the
    event was set: from any state at most one more item is put, and none
    from a state other than that put.  It leaves its loop within one step
    per element still to come (and three more): the elements the predicate
    rejects are passed over without a look at the event. *)
Theorem enqueuer_after_kill (a : enq_args) (ev : nat) (s : enq_state)
  (vs : list view) :
  kill_event a = Some ev ->
  Forall (fun v => is_set v ev = true) vs ->
  (length (items_put (snd (enq_run a vs s))) <= 1)%nat /\
  (not_putting s -> items_put (snd (enq_run a vs s)) = []) /\
  ((length (e_iter s) + 2 < length vs)%nat ->
   left_source (fst (enq_run a vs s))).
Proof.
  intros Hk Hvs.
  assert (Hmain : (not_putting s ->
                   items_put (snd (enq_run a vs s)) = [] /\
                   ((length (e_iter s) + 1 < length vs)%nat ->
                    left_source (fst (enq_run a vs s)))) /\
                  (length (items_put (snd (enq_run a vs s))) <= 1)%nat /\
                  ((length (e_iter s) + 2 < length vs)%nat ->
                   left_source (fst (enq_run a vs s)))).
  { destruct s as [pc it i]. unfold not_putting. simpl.
    destruct vs as [|v vs];
      [simpl; repeat split; auto; try lia; intros; lia|].
    inversion Hvs as [|? ? Hv Hvs']; subst.
    destruct pc as [|file|file|todo|st].
    - (* line 51 *)
      rewrite enq_run_cons. unfold enq_step. simpl.
      destruct it as [|file it]; simpl.
      + rewrite enq_run_exit. simpl. repeat split; auto.
      + destruct (enq_run_killed_loop a ev Hk it file i vs Hvs') as (H1 & H2).
        rewrite H1. simpl. repeat split; auto; intros; apply H2; lia.
    - destruct (enq_run_killed_loop a ev Hk it file i (v :: vs) Hvs)
        as (H1 & H2).
      rewrite H1. simpl in *. repeat split; auto; intros; apply H2; lia.
    - (* line 58 *)
      split; [contradiction|].
      rewrite enq_run_cons. unfold enq_step. simpl.
      unfold Queue_put. destruct (q_full v); simpl.
      + destruct (enq_run_killed_loop a ev Hk it file i vs Hvs') as (H1 & H2).
        rewrite H1. split; [simpl; lia|]. intros; apply H2; lia.
      + destruct (limit_reached (n a) (i + 1)).
        * destruct (enq_run_left_source a vs
                      (EnqState (ESentinels (Z.to_nat (n_workers a))) it
                                (i + 1)) I) as (H1 & H2).
          rewrite H2. simpl. auto.
        * destruct (enq_run_killed_advance a ev Hk it (i + 1) vs Hvs')
            as (H1 & H2).
          rewrite H1. split; [simpl; lia|]. intros; apply H2; lia.
    - destruct (enq_run_left_source a (v :: vs)
                  (EnqState (ESentinels todo) it i) I) as (H1 & H2).
      rewrite H2. simpl. repeat split; auto.
    - destruct (enq_run_left_source a (v :: vs)
                  (EnqState (EExit st) it i) I) as (H1 & H2).
      rewrite H2. simpl. repeat split; auto. }
  destruct Hmain as (H1 & H2 & H3).
  split; [assumption|]. split; [|assumption].
  intros Hs. now apply H1.
Qed.

Lemma enqueuer_after_kill_witness :
  let a := EnqArgs (map PyInt [2; 3; 5; 4; 6]) is_even 1 None (Some 0%nat) in
  let s := EnqState (EPut (PyInt 2)) (map PyInt [3; 5; 4; 6]) 0 in
  (length (items_put (snd (enq_run a (repeat kill_set 7) s))) <= 1)%nat /\
  left_source (fst (enq_run a (repeat kill_set 7) s)).
Proof.
  pose proof (enqueuer_after_kill
                (EnqArgs (map PyInt [2; 3; 5; 4; 6]) is_even 1 None
                         (Some 0%nat))
                0%nat
                (EnqState (EPut (PyInt 2)) (map PyInt [3; 5; 4; 6]) 0)
                (repeat kill_set 7) eq_refl ltac:(repeat constructor))
    as (H1 & _ & H3).
  split; [exact H1|]. apply H3. simpl. lia.
Defined.

(** ** [worker] alone *)

Lemma task_done_calls_app (l1 l2 : list event) :
  task_done_calls (l1 ++ l2) = (task_done_calls l1 + task_done_calls l2)%nat.
Proof.
  induction l1 as [|ev l1 IH]; simpl; [reflexivity|].
  destruct ev; simpl; now rewrite ?IH.
Qed.

Lemma worker_run_cons (wa : worker_args) (v : view) (vs : list view)
  (pc : worker_pc) :
  worker_run wa (v :: vs) pc
  = (fst (worker_run wa vs (fst (worker_step wa v pc))),
     snd (worker_step wa v pc)
     ++ snd (worker_run wa vs (fst (worker_step wa v pc)))).
Proof.
  simpl. destruct (worker_step wa v pc) as [pc1 l1]. simpl.
  now destruct (worker_run wa vs pc1).
Qed.

(** *** Between the [get] and the [task_done] *)

Lemma fine_run_cons (wa : worker_args) (v : view) (vs : list view)
  (pc : fine_pc) :
  fine_run wa (v :: vs) pc
  = (fst (fine_run wa vs (fst (fine_step wa v pc))),
     snd (fine_step wa v pc)
     ++ snd (fine_run wa vs (fst (fine_step wa v pc)))).
Proof.
  simpl. destruct (fine_step wa v pc) as [pc1 l1]. simpl.
  now destruct (fine_run wa vs pc1).
Qed.

Lemma fine_run_exit (wa : worker_args) (vs : list view) (st : status) :
  fine_run wa vs (FExit st) = (FExit st, []).
Proof.
  induction vs as [|v vs IH]; [reflexivity|].
  rewrite fine_run_cons. simpl. now rewrite IH.
Qed.

(** A step of [worker_step] is what [worker] does between two of its
    control points, when it is not interrupted: one to three steps of
    [fine_step] against the same view, with the same log. *)
Lemma worker_step_refined (wa : worker_args) (v : view) (pc : worker_pc) :
  exists k,
    (1 <= k <= 3)%nat /\
    fine_run wa (repeat v k) (fine_of pc)
    = (fine_of (fst (worker_step wa v pc)), snd (worker_step wa v pc)).
Proof.
  destruct pc as [| |st].
  - exists 1%nat. split; [lia|]. simpl.
    now destruct (kill_requested (w_kill_event wa) v).
  - simpl. unfold Queue_get. destruct (q_head v) as [item|] eqn:Eh.
    + destruct (is_None item) eqn:En.
      * exists 2%nat. split; [lia|]. simpl. unfold Queue_get.
        rewrite Eh. simpl. rewrite En.
        now destruct (exit_func wa) as [[r|e]|].
      * destruct (func wa item) as [r|e] eqn:Ef.
        -- exists 3%nat. split; [lia|]. simpl. unfold Queue_get.
           rewrite Eh. simpl. rewrite En, Ef. reflexivity.
        -- exists 2%nat. split; [lia|]. simpl. unfold Queue_get.
           rewrite Eh. simpl. rewrite En, Ef. reflexivity.
    + exists 1%nat. split; [lia|]. simpl. unfold Queue_get.
      now rewrite Eh.
  - exists 1%nat. split; [lia|]. reflexivity.
Qed.

(** What a step adds to the items taken is what it adds to the calls of
    [task_done] and to the item in hand. *)
Lemma fine_step_account (wa : worker_args) (v : view) (pc : fine_pc) :
  (task_done_calls (snd (fine_step wa v pc))
   + in_hand (fst (fine_step wa v pc))
   = in_hand pc + length (dequeued (snd (fine_step wa v pc))))%nat.
Proof.
  destruct pc as [| |result| |st]; simpl.
  - now destruct (kill_requested (w_kill_event wa) v).
  - unfold Queue_get. now destruct (q_head v).
  - destruct (is_None result).
    + now destruct (exit_func wa) as [[r|e]|].
    + now destruct (func wa result).
  - reflexivity.
  - destruct st; reflexivity.
Qed.

Lemma fine_step_takes (wa : worker_args) (v : view) (pc : fine_pc) :
  dequeued (snd (fine_step wa v pc)) = [] \/
  exists item, q_head v = Some item /\
               dequeued (snd (fine_step wa v pc)) = [item].
Proof.
  destruct pc as [| |result| |st]; simpl; auto.
  - destruct (kill_requested (w_kill_event wa) v); auto.
  - unfold Queue_get. destruct (q_head v) as [item|]; simpl; eauto.
  - destruct (is_None result).
    + destruct (exit_func wa) as [[r|e]|]; auto.
    + destruct (func wa result); auto.
Qed.

(** X6: [worker] calls [task_done] once for each item it has dequeued,
    except for the item it has in hand.  Between the [get] of line 91 and
    the [task_done] of line 98, while [func] runs, that is the item it is
    busy with; once it has left its loop it is the item it stopped on: the
    sentinel (with or without an [exit_func], and also when [exit_func]
    raises) and the item [func] raised on are never acknowledged.  A worker
    at the top of its loop or in its [get], and one that was killed, has
    acknowledged all it took. *)
Theorem worker_acknowledges_all_but_last (wa : worker_args)
  (vs : list view) :
  length (dequeued (snd (worker_fine wa vs)))
  = (task_done_calls (snd (worker_fine wa vs))
     + in_hand (fst (worker_fine wa vs)))%nat.
Proof.
  unfold worker_fine.
  assert (H : forall (vs0 : list view) (pc : fine_pc),
             (length (dequeued (snd (fine_run wa vs0 pc))) + in_hand pc
              = task_done_calls (snd (fine_run wa vs0 pc))
                + in_hand (fst (fine_run wa vs0 pc)))%nat).
  { induction vs0 as [|v vs0 IH]; intros pc; [simpl; lia|].
    rewrite fine_run_cons. cbn [fst snd].
    rewrite dequeued_app, task_done_calls_app, length_app.
    pose proof (fine_step_account wa v pc) as Hstep.
    specialize (IH (fst (fine_step wa v pc))). lia. }
  specialize (H vs FLoop). simpl in H. lia.
Qed.

(** X7: a worker stops at the first [None] it dequeues: what it has
    dequeued is what [func] was called on, followed by that [None] if it
    has met one; [func] is never called on [None], and a worker that has
    dequeued a [None] has left its loop. *)
Theorem worker_stops_at_first_none (wa : worker_args) (vs : list view) :
  let pc := fst (worker wa vs) in
  let L := snd (worker wa vs) in
  ~ In PyNone (processed L) /\
  (dequeued L = processed L \/ dequeued L = processed L ++ [PyNone]) /\
  (In PyNone (dequeued L) ->
   has_exited pc /\ dequeued L = processed L ++ [PyNone]).
Proof.
  intros pc L.
  pose proof (worker_run_inv wa vs WLoop [] (worker_inv_init wa)) as Hinv.
  simpl in Hinv. fold (worker wa vs) in Hinv. fold pc L in Hinv.
  destruct Hinv as (Hproc & Hpc).
  assert (Hnot : ~ In PyNone (processed L)).
  { intros Hin. rewrite Forall_forall in Hproc. now apply (Hproc _ Hin). }
  split; [assumption|].
  destruct pc as [| |[| |e]]; simpl in *.
  - destruct Hpc as (Hd & _). rewrite Hd. split; [now left|]. tauto.
  - destruct Hpc as (Hd & _). rewrite Hd. split; [now left|]. tauto.
  - destruct Hpc as (Hd & _). rewrite Hd. split; [now left|]. tauto.
  - destruct Hpc as (Hd & _). rewrite Hd. split; [now right|]. auto.
  - destruct Hpc as [(Hd & _)|(Hd & _)]; rewrite Hd.
    + split; [now left|]. tauto.
    + split; [now right|]. auto.
Qed.

Section WorkerKilled.

Variable wa : worker_args.
Variable ev : nat.
Hypothesis Hkill : w_kill_event wa = Some ev.

Lemma worker_run_exited (vs : list view) (st : status) :
  worker_run wa vs (WExit st) = (WExit st, []).
Proof. apply worker_run_exit. Qed.

Lemma worker_run_killed_loop (vs : list view) :
  Forall (fun v => is_set v ev = true) vs ->
  vs <> [] ->
  worker_run wa vs WLoop = (WExit Killed, []).
Proof.
  intros Hvs Hne. destruct vs as [|v vs]; [now elim Hne|].
  inversion Hvs as [|? ? Hv _]; subst.
  rewrite worker_run_cons. simpl.
  unfold kill_requested. rewrite Hkill, Hv. simpl.
  now rewrite worker_run_exit.
Qed.

End WorkerKilled.

(** X8: once its kill event is set and stays set, a worker leaves its loop
    at the next test of line 87: from the top of the loop it exits killed
    at once, without a look at the queue; from the [get] of line 91 it
    finishes that call, dequeues at most that one item more (and processes
    it), and has exited after its second step at the latest.  It calls
    [exit_func] only if the item it got there was [None]. *)
Theorem worker_after_kill (wa : worker_args) (ev : nat) (pc : worker_pc)
  (vs : list view) :
  w_kill_event wa = Some ev ->
  Forall (fun v => is_set v ev = true) vs ->
  (length (dequeued (snd (worker_run wa vs pc))) <= 1)%nat /\
  (pc = WLoop -> vs <> [] -> worker_run wa vs pc = (WExit Killed, [])) /\
  ((2 <= length vs)%nat -> has_exited (fst (worker_run wa vs pc))) /\
  (exit_calls (snd (worker_run wa vs pc)) <> 0%nat ->
   dequeued (snd (worker_run wa vs pc)) = [PyNone]).
Proof.
  intros Hk Hvs.
  assert (Hloop : forall vs', Forall (fun v => is_set v ev = true) vs' ->
            vs' <> [] -> worker_run wa vs' WLoop = (WExit Killed, []))
    by (intros vs'; apply worker_run_killed_loop; assumption).
  assert (Hfin : forall (r : worker_pc * list event) (k : nat),
            (length (dequeued (snd r)) <= 1)%nat ->
            pc <> WLoop \/ r = (WExit Killed, []) \/ k = 0%nat ->
            ((2 <= k)%nat -> has_exited (fst r)) ->
            (exit_calls (snd r) <> 0%nat -> dequeued (snd r) = [PyNone]) ->
            (length (dequeued (snd r)) <= 1)%nat /\
            (pc = WLoop -> k <> 0%nat -> r = (WExit Killed, [])) /\
            ((2 <= k)%nat -> has_exited (fst r)) /\
            (exit_calls (snd r) <> 0%nat -> dequeued (snd r) = [PyNone])).
  { intros r k H1 H2 H3 H4. repeat split; auto.
    intros Hpc Hk'. destruct H2 as [H2|[H2|H2]];
      [now elim H2 | assumption | now elim Hk']. }
  assert (Hgoal :
            (length (dequeued (snd (worker_run wa vs pc))) <= 1)%nat /\
            (pc = WLoop -> length vs <> 0%nat ->
             worker_run wa vs pc = (WExit Killed, [])) /\
            ((2 <= length vs)%nat -> has_exited (fst (worker_run wa vs pc))) /\
            (exit_calls (snd (worker_run wa vs pc)) <> 0%nat ->
             dequeued (snd (worker_run wa vs pc)) = [PyNone])).
  { destruct vs as [|v vs].
    { match goal with
            | |- _ /\ (_ -> _ -> ?r = _) /\ _ => apply (Hfin r)
            end; simpl; auto; try lia; try (left; discriminate);
            try (intros H; now elim H). }
    inversion Hvs as [|? ? Hv Hvs']; subst.
    destruct pc as [| |st].
    - rewrite (Hloop (v :: vs) Hvs) by discriminate.
      match goal with
            | |- _ /\ (_ -> _ -> ?r = _) /\ _ => apply (Hfin r)
            end; simpl; auto; try lia; try (left; discriminate);
            try (intros H; now elim H).
    - rewrite worker_run_cons. cbn [worker_step].
      unfold Queue_get.
      destruct (q_head v) as [item|]; cbn [fst snd].
      + destruct (is_None item) eqn:En.
        * destruct item; try discriminate.
          destruct (exit_func wa) as [[r|e]|]; cbn [fst snd];
            rewrite worker_run_exit; match goal with
            | |- _ /\ (_ -> _ -> ?r = _) /\ _ => apply (Hfin r)
            end; simpl; auto; try lia; try (left; discriminate);
            try (intros H; now elim H).
        * destruct (func wa item) as [r|e]; cbn [fst snd].
          -- destruct vs as [|v' vs].
             ++ match goal with
            | |- _ /\ (_ -> _ -> ?r = _) /\ _ => apply (Hfin r)
            end; simpl; auto; try lia; try (left; discriminate);
            try (intros H; now elim H).
             ++ rewrite (Hloop (v' :: vs) Hvs') by discriminate.
                match goal with
            | |- _ /\ (_ -> _ -> ?r = _) /\ _ => apply (Hfin r)
            end; simpl; auto; try lia; try (left; discriminate);
            try (intros H; now elim H).
          -- rewrite worker_run_exit. match goal with
            | |- _ /\ (_ -> _ -> ?r = _) /\ _ => apply (Hfin r)
            end; simpl; auto; try lia; try (left; discriminate);
            try (intros H; now elim H).
      + destruct vs as [|v' vs].
        * match goal with
            | |- _ /\ (_ -> _ -> ?r = _) /\ _ => apply (Hfin r)
            end; simpl; auto; try lia; try (left; discriminate);
            try (intros H; now elim H).
        * rewrite (Hloop (v' :: vs) Hvs') by discriminate.
          match goal with
            | |- _ /\ (_ -> _ -> ?r = _) /\ _ => apply (Hfin r)
            end; simpl; auto; try lia; try (left; discriminate);
            try (intros H; now elim H).
    - rewrite worker_run_exit. match goal with
            | |- _ /\ (_ -> _ -> ?r = _) /\ _ => apply (Hfin r)
            end; simpl; auto; try lia; try (left; discriminate);
            try (intros H; now elim H). }
  destruct Hgoal as (H1 & H2 & H3 & H4).
  repeat split; auto.
  intros Hpc Hne.
  apply H2; [assumption|]. destruct vs; [now elim Hne | discriminate].
Qed.

Lemma worker_after_kill_witness :
  let wa := WorkerArgs (fun _ => Return PyNone) None (Some 0%nat) in
  let v := View (fun _ => true) false (Some (PyInt 7)) in
  (length (dequeued (snd (worker_run wa [v; v; v] WGet))) <= 1)%nat /\
  has_exited (fst (worker_run wa [v; v; v] WGet)).
Proof.
  pose proof (worker_after_kill
                (WorkerArgs (fun _ => Return PyNone) None (Some 0%nat))
                0%nat WGet
                (repeat (View (fun _ => true) false (Some (PyInt 7))) 3)
                eq_refl ltac:(repeat constructor))
    as (H1 & _ & H3 & _).
  split; [exact H1|]. apply H3. simpl. lia.
Defined.

(** ** Several workers on one queue *)

Section Subsequences.

Context {A : Type}.

Lemma subseq_nil_l (g : list A) : subseq [] g.
Proof. induction g; now constructor. Qed.

Lemma subseq_refl (l : list A) : subseq l l.
Proof.
  induction l; [apply subseq_nil | now apply subseq_take].
Qed.

Lemma subseq_app (l1 g1 l2 g2 : list A) :
  subseq l1 g1 -> subseq l2 g2 -> subseq (l1 ++ l2) (g1 ++ g2).
Proof.
  intros H1 H2. induction H1; simpl;
    [assumption | now apply subseq_skip | now apply subseq_take].
Qed.

Lemma subseq_trans (l1 l2 l3 : list A) :
  subseq l1 l2 -> subseq l2 l3 -> subseq l1 l3.
Proof.
  intros H12 H23. revert l1 H12.
  induction H23 as [|x l g H IH|x l g H IH]; intros l1 H12.
  - assumption.
  - constructor. now apply IH.
  - inversion H12; subst.
    + apply subseq_skip. now apply IH.
    + apply subseq_take. now apply IH.
Qed.

Lemma subseq_prefix (l rest : list A) : subseq l (l ++ rest).
Proof.
  rewrite <- (app_nil_r l) at 1.
  apply subseq_app; [apply subseq_refl | apply subseq_nil_l].
Qed.

Lemma subseq_grow (l g more : list A) : subseq l g -> subseq l (g ++ more).
Proof.
  intros H. rewrite <- (app_nil_r l).
  apply subseq_app; [assumption | apply subseq_nil_l].
Qed.

Lemma subseq_firstn (k : nat) (l : list A) : subseq (firstn k l) l.
Proof.
  rewrite <- (firstn_skipn k l) at 2. apply subseq_prefix.
Qed.

Lemma subseq_filter (f : A -> bool) (l : list A) : subseq (filter f l) l.
Proof.
  induction l as [|x l IH]; simpl; [constructor|].
  destruct (f x); [now apply subseq_take | now apply subseq_skip].
Qed.

Lemma subseq_filter_both (f : A -> bool) (l g : list A) :
  subseq l g -> subseq (filter f l) (filter f g).
Proof.
  intros H. induction H as [|x l g H IH|x l g H IH]; simpl.
  - constructor.
  - destruct (f x); [now apply subseq_skip | assumption].
  - destruct (f x); [now apply subseq_take | assumption].
Qed.

Lemma subseq_In (l g : list A) (x : A) : subseq l g -> In x l -> In x g.
Proof.
  intros H. induction H as [|y l g H IH|y l g H IH]; simpl; intros Hin.
  - assumption.
  - right. now apply IH.
  - destruct Hin as [Hin|Hin]; [now left | right; now apply IH].
Qed.

Lemma filter_all (f : A -> bool) (l : list A) :
  Forall (fun x => f x = true) l -> filter f l = l.
Proof.
  induction 1 as [|x l Hx Hl IH]; simpl; [reflexivity|].
  now rewrite Hx, IH.
Qed.

Lemma filter_none (f : A -> bool) (l : list A) :
  Forall (fun x => f x = false) l -> filter f l = [].
Proof.
  induction 1 as [|x l Hx Hl IH]; simpl; [reflexivity|].
  now rewrite Hx.
Qed.

Lemma filter_concat (f : A -> bool) (ls : list (list A)) :
  filter f (concat ls) = concat (map (filter f) ls).
Proof.
  induction ls as [|l ls IH]; simpl; [reflexivity|].
  now rewrite filter_app, IH.
Qed.

Lemma filter_keeps_permutation (f : A -> bool) (l g : list A) :
  Permutation l g -> Permutation (filter f l) (filter f g).
Proof.
  induction 1 as [|x l g H IH|x y l|l g h H1 IH1 H2 IH2]; simpl.
  - constructor.
  - destruct (f x); [now constructor | assumption].
  - destruct (f x), (f y); try apply Permutation_refl. constructor.
  - now apply Permutation_trans with (filter f g).
Qed.

Lemma filter_split_permutation (f : A -> bool) (l : list A) :
  Permutation (filter f l ++ filter (fun x => negb (f x)) l) l.
Proof.
  induction l as [|x l IH]; simpl; [constructor|].
  destruct (f x); simpl.
  - now constructor.
  - apply Permutation_sym, Permutation_cons_app, Permutation_sym, IH.
Qed.

Lemma nth_error_middle (l : list A) (w : nat) (x : A) :
  nth_error l w = Some x ->
  l = firstn w l ++ x :: skipn (S w) l.
Proof.
  revert l. induction w as [|w IH]; intros [|y l] H; try discriminate.
  - simpl in H. injection H as ->. reflexivity.
  - simpl in H. cbn [firstn skipn]. simpl. f_equal. now apply IH.
Qed.

End Subsequences.

Lemma not_None_true (o : pyobj) : not_None o = true <-> o <> PyNone.
Proof.
  unfold not_None. destruct o; simpl; split; intros H;
    try reflexivity; try discriminate; try (now elim H).
Qed.

Lemma items_not_None (l : list pyobj) :
  Forall (fun item => item <> PyNone) l ->
  Forall (fun item => not_None item = true) l.
Proof.
  intros H. eapply Forall_impl; [|exact H].
  intros o Ho. now apply not_None_true.
Qed.

Lemma filter_sentinels (j : nat) : filter not_None (repeat PyNone j) = [].
Proof. induction j; simpl; auto. Qed.

Lemma limited_subseq (m : option Z) (l : list pyobj) : subseq (limited m l) l.
Proof.
  destruct m as [m|]; simpl; [apply subseq_firstn | apply subseq_refl].
Qed.

(** What a worker has processed is what it has dequeued, the [None]
    left out. *)
Lemma processed_of_dequeued (wa : worker_args) (pc : worker_pc)
  (L : list event) :
  worker_inv wa pc L -> filter not_None (dequeued L) = processed L.
Proof.
  intros (Hproc & Hpc).
  assert (Hf : filter not_None (processed L) = processed L)
    by (apply filter_all, items_not_None, Hproc).
  assert (Hd : dequeued L = processed L \/
               dequeued L = processed L ++ [PyNone]).
  { destruct pc as [| |[| |e]]; simpl in Hpc; tauto. }
  destruct Hd as [-> | ->]; [assumption|].
  rewrite filter_app, Hf. simpl. apply app_nil_r.
Qed.

Section History.

Variable ea : enq_args.

Lemma enq_step_puts (v : view) (s : enq_state) :
  enqueued (snd (enq_step ea v s)) = [] \/
  (q_full v = false /\
   exists item, enqueued (snd (enq_step ea v s)) = [item]).
Proof.
  unfold enq_step. destruct (e_pc s) as [|file|file|[|todo]|st]; simpl.
  - destruct (e_iter s); auto.
  - destruct (filter_func ea file) as [r|e]; [|auto].
    destruct (truthy r); [|auto].
    destruct (kill_requested (kill_event ea) v); auto.
  - unfold Queue_put. destruct (q_full v); simpl; [auto|].
    right. eauto.
  - auto.
  - unfold Queue_put. destruct (q_full v); simpl; [auto|].
    right. eauto.
  - auto.
Qed.

Lemma pipeline_step_history (act : action) (p : pipeline) :
  history_inv p -> history_inv (pipeline_step ea act p).
Proof.
  intros (G & Hq & Hperm & Hsub). destruct act as [|w|ev]; unfold pipeline_step.
  - destruct (enq_step ea (view_of p) (feeder p)) as [s' l].
    exists G. unfold handed_out in *. simpl.
    rewrite enqueued_app, Hq, app_assoc. auto.
  - destruct (nth_error (workers p) w) as [t|] eqn:Et;
      [|exists G; auto].
    pose proof (worker_step_takes (w_args t) (view_of p) (w_pc t)) as Htake.
    destruct (worker_step (w_args t) (view_of p) (w_pc t)) as [pc' l].
    simpl in Htake.
    exists (G ++ dequeued l). unfold handed_out in *.
    cbn [workers feeder_log queue].
    pose proof (nth_error_middle _ _ _ Et) as Hws.
    set (l1 := firstn w (workers p)) in *.
    set (l2 := skipn (S w) (workers p)) in *.
    clearbody l1 l2. rewrite Hws in Hperm, Hsub.
    rewrite map_app in *. cbn [map w_log] in *.
    rewrite concat_app in *. cbn [concat] in *.
    apply Forall_app in Hsub. destruct Hsub as (Hs1 & Hs2).
    inversion Hs2 as [|? ? Ht Hs2']; subst.
    split; [|split].
    + rewrite <- app_assoc, (skipn_taken (queue p) (dequeued l) Htake).
      exact Hq.
    + rewrite dequeued_app, <- app_assoc.
      apply Permutation_trans
        with ((concat (map (fun t0 => dequeued (w_log t0)) l1)
               ++ dequeued (w_log t)
               ++ concat (map (fun t0 => dequeued (w_log t0)) l2))
              ++ dequeued l).
      * rewrite <- !app_assoc. apply Permutation_app_head.
        apply Permutation_app_head. apply Permutation_app_comm.
      * now apply Permutation_app_tail.
    + apply Forall_app. split; [|constructor].
      * eapply Forall_impl; [|exact Hs1]. intros d Hd.
        now apply subseq_grow.
      * rewrite dequeued_app.
        apply subseq_app; [assumption | apply subseq_refl].
      * eapply Forall_impl; [|exact Hs2']. intros d Hd.
        now apply subseq_grow.
  - exists G. auto.
Qed.

Lemma pipeline_run_history (sched : list action) :
  forall p : pipeline,
    history_inv p -> history_inv (pipeline_run ea sched p).
Proof.
  induction sched as [|act sched IH]; intros p Hinv; simpl; [assumption|].
  apply IH. now apply pipeline_step_history.
Qed.

Lemma threadables_history (was : list worker_args) (m : Z)
  (sched : list action) :
  history_inv (threadables ea was m sched).
Proof.
  apply pipeline_run_history. exists []. unfold handed_out. simpl.
  rewrite map_map. simpl.
  split; [reflexivity|]. split.
  - induction was; simpl; auto.
  - apply Forall_map, Forall_forall. intros wa _. apply subseq_nil.
Qed.

(** The items handed out, the [None] left out, are the items the workers
    have processed. *)
Lemma handed_out_processed (p : pipeline) :
  Forall (fun t => worker_inv (w_args t) (w_pc t) (w_log t)) (workers p) ->
  filter not_None (concat (handed_out p)) = all_processed p.
Proof.
  unfold handed_out, all_processed. intros Hws.
  rewrite filter_concat, map_map. f_equal.
  apply map_ext_in. intros t Hin. rewrite Forall_forall in Hws.
  now apply processed_of_dequeued with (w_args t) (w_pc t), Hws.
Qed.

(** What a pipeline has reached, in terms of the items of the source. *)
Lemma threadables_items (was : list worker_args) (m : Z)
  (sched : list action) :
  let p := threadables ea was m sched in
  exists G items rest j,
    enqueued (feeder_log p) = G ++ queue p /\
    items ++ rest = limited (n ea) (filtered ea) /\
    G ++ queue p = items ++ repeat PyNone j /\
    sentinels_put (feeder_log p) = j /\
    (j <= Z.to_nat (n_workers ea))%nat /\
    Permutation (concat (handed_out p)) G /\
    Forall (fun d => subseq d G) (handed_out p) /\
    Permutation (all_processed p) (filter not_None G) /\
    Forall (fun t => subseq (processed (w_log t)) (filter not_None G))
           (workers p).
Proof.
  intros p.
  destruct (threadables_inv ea was m sched) as (Henq & Hws & _).
  destruct (threadables_history was m sched) as (G & Hq & Hperm & Hsub).
  fold p in Henq, Hws, Hq, Hperm, Hsub.
  destruct (enq_inv_shape ea _ _ Henq)
    as (items & j & Hputs & (rest & Hrest) & _ & Hj).
  exists G, items, rest, j.
  split; [assumption|]. split; [assumption|]. split.
  { rewrite <- Hq, <- enqueued_done_puts, Hputs. apply enqueued_shape. }
  split.
  { rewrite <- sentinels_put_done_puts, Hputs. apply sentinels_put_shape. }
  split; [assumption|]. split; [assumption|]. split; [assumption|].
  split.
  - rewrite <- (handed_out_processed p Hws).
    now apply filter_keeps_permutation.
  - unfold handed_out in Hsub. rewrite Forall_map in Hsub.
    rewrite Forall_forall in *. intros t Hin.
    rewrite <- (processed_of_dequeued _ _ _ (Hws t Hin)).
    apply subseq_filter_both. now apply Hsub.
Qed.

End History.

(** X9: with any number of workers on the queue and under every schedule,
    kill events included, each worker has processed accepted elements of
    the source in the order the source has them: what a worker has
    processed is the (limited) sequence of accepted elements with some
    elements left out, those that went to other workers or are still to
    come.  No worker processes two items in the opposite order. *)
Theorem workers_process_in_source_order (ea : enq_args)
  (was : list worker_args) (m : Z) (sched : list action) :
  Forall (fun t => subseq (processed (w_log t))
                          (limited (n ea) (filtered ea)))
         (workers (threadables ea was m sched)).
Proof.
  destruct (threadables_items ea was m sched)
    as (G & items & rest & j & _ & Hrest & Hq & _ & _ & _ & _ & _ & Hsub).
  eapply Forall_impl; [|exact Hsub]. intros t Ht. simpl in Ht.
  apply subseq_trans with (filter not_None G); [assumption|].
  apply subseq_trans with (filter not_None items).
  - apply subseq_trans
      with (filter not_None (G ++ queue (threadables ea was m sched))).
    + rewrite filter_app. apply subseq_prefix.
    + rewrite Hq, filter_app, filter_sentinels, app_nil_r.
      apply subseq_refl.
  - apply subseq_trans with items; [apply subseq_filter|].
    rewrite <- Hrest. apply subseq_prefix.
Qed.

(** X10: with any number of workers and under every schedule, no element of
    the source is processed more often than the predicate accepted it (and
    the limit let it through): the items all the workers have processed,
    together with some rest, are a rearrangement of the (limited) sequence
    of accepted elements.  In particular an element that occurs once is
    processed by at most one worker, at most once. *)
Theorem no_item_processed_twice (ea : enq_args) (was : list worker_args)
  (m : Z) (sched : list action) :
  exists rest,
    Permutation (all_processed (threadables ea was m sched) ++ rest)
                (limited (n ea) (filtered ea)).
Proof.
  destruct (threadables_items ea was m sched)
    as (G & items & rest & j & _ & Hrest & Hq & _ & _ & _ & _ & Hperm & _).
  set (p := threadables ea was m sched) in *.
  set (LF := limited (n ea) (filtered ea)) in *.
  exists (filter not_None (queue p) ++ filter not_None rest
          ++ filter (fun o => negb (not_None o)) LF).
  assert (HG : filter not_None G ++ filter not_None (queue p)
               = filter not_None items).
  { rewrite <- filter_app, Hq, filter_app, filter_sentinels.
    apply app_nil_r. }
  apply Permutation_trans
    with (filter not_None LF ++ filter (fun o => negb (not_None o)) LF);
    [|apply filter_split_permutation].
  assert (HLF : filter not_None LF
                = filter not_None G ++ filter not_None (queue p)
                  ++ filter not_None rest).
  { rewrite <- Hrest, filter_app, <- HG. now rewrite app_assoc. }
  rewrite HLF, !app_assoc. apply Permutation_app_tail.
  apply Permutation_app_tail. now apply Permutation_app_tail.
Qed.

(** X11: when the run is complete, every accepted element (up to the
    limit) has been processed exactly once, whatever the number of workers
    and however the items were shared among them: with a non-empty source,
    as many workers as [n_workers] says (at least one), no accepted element
    being [None], a predicate, a [func] and an [exit_func] that do not
    raise, and nobody setting an event, under every schedule of enough
    fair rounds the items processed by all the workers are a rearrangement
    of the (limited) sequence of accepted elements. *)
Theorem fair_run_processes_each_item_once (ea : enq_args)
  (was : list worker_args) (m : Z) (rounds : list (list action)) :
  iterator ea <> [] ->
  Forall (returns ea) (iterator ea) ->
  Forall (fun item => item <> PyNone) (filtered ea) ->
  Forall (worker_returns ea) was ->
  length was = Z.to_nat (n_workers ea) ->
  (1 <= length was)%nat ->
  Forall (fair_round (length was)) rounds ->
  (rounds_bound ea was <= length rounds)%nat ->
  Permutation (all_processed (threadables ea was m (concat rounds)))
              (limited (n ea) (filtered ea)).
Proof.
  intros Hne Hret Hitems Hws Hlen Hpos Hfair Hbound.
  destruct (fair_schedule_runs ea was m rounds Hne Hret Hitems Hws Hlen Hpos
              Hfair Hbound) as (_ & Hpc & Hqe & _).
  destruct (threadables_inv ea was m (concat rounds)) as (Henq & _ & _).
  destruct (enq_inv_graceful ea _ _ Henq Hpc) as (Hall & _ & _).
  destruct (threadables_items ea was m (concat rounds))
    as (G & items & rest & j & Hq & _ & _ & _ & _ & _ & _ & Hperm & _).
  set (p := threadables ea was m (concat rounds)) in *.
  set (LF := limited (n ea) (filtered ea)) in *.
  assert (HLF : Forall (fun item => not_None item = true) LF).
  { apply items_not_None. rewrite Forall_forall in *. intros item Hin.
    apply Hitems. apply subseq_In with LF; [apply limited_subseq|assumption]. }
  rewrite Hqe, app_nil_r, Hall in Hq.
  apply Permutation_trans with (filter not_None G); [assumption|].
  rewrite <- Hq, filter_app, filter_sentinels, app_nil_r.
  rewrite (filter_all _ _ HLF). apply Permutation_refl.
Qed.

Lemma fair_run_processes_each_item_once_witness :
  let ea := EnqArgs (map PyInt [1; 2; 3; 4; 5; 6]) is_even 2 None None in
  let sched := concat (repeat [Work 1; Feed; Work 0] 80) in
  Permutation (all_processed (threadables ea [noop; noop] 1 sched))
              (limited (n ea) (filtered ea)).
Proof.
  intros ea sched.
  apply (fair_run_processes_each_item_once ea [noop; noop] 1).
  - discriminate.
  - repeat constructor; eexists; reflexivity.
  - repeat constructor; discriminate.
  - repeat constructor; try (intros item _; eexists; reflexivity);
      discriminate.
  - reflexivity.
  - simpl. lia.
  - apply Forall_forall. intros r Hr. apply repeat_spec in Hr. subst r.
    split; [reflexivity|]. split; [right; now left|].
    intros w Hw. simpl in Hw.
    assert (w = 0 \/ w = 1)%nat as [-> | ->] by lia;
      simpl; auto.
  - apply Nat.eq_le_incl. reflexivity.
Defined.

Section Sentinels.

Variable ea : enq_args.

Lemma graceful_took_sentinel (ws : list worker_thread) :
  Forall (fun t => worker_inv (w_args t) (w_pc t) (w_log t)) ws ->
  (length (filter exited_gracefully ws)
   <= length (filter is_None
                (concat (map (fun t => dequeued (w_log t)) ws))))%nat.
Proof.
  induction 1 as [|t ws (Hproc & Hpc) Hws IH]; simpl; [lia|].
  rewrite filter_app, length_app. unfold exited_gracefully at 1.
  destruct (w_pc t) as [| |[| |e]]; simpl; try lia.
  destruct Hpc as (Hd & _). rewrite Hd, filter_app, length_app. simpl. lia.
Qed.

End Sentinels.

(** The [None] handed out are sentinels, when no accepted element is
    [None]. *)
Lemma sentinels_handed_out (ea : enq_args) (was : list worker_args)
  (m : Z) (sched : list action) :
  Forall (fun item => item <> PyNone) (filtered ea) ->
  let p := threadables ea was m sched in
  (length (filter is_None (concat (handed_out p)))
   <= sentinels_put (feeder_log p))%nat /\
  (sentinels_put (feeder_log p) <= Z.to_nat (n_workers ea))%nat.
Proof.
  intros Hitems p.
  destruct (threadables_items ea was m sched)
    as (G & items & rest & j & _ & Hrest & Hq & Hj & Hle & Hperm & _).
  fold p in Hq, Hj, Hperm.
  split; [|now rewrite Hj].
  pose proof (Permutation_length
                (filter_keeps_permutation is_None _ _ Hperm)) as Hlen.
  assert (Hnone : filter is_None items = []).
  { apply filter_none. rewrite Forall_forall in *. intros item Hin.
    assert (Hf : In item (filtered ea)).
    { apply subseq_In with (limited (n ea) (filtered ea));
        [apply limited_subseq|].
      rewrite <- Hrest. apply in_or_app. now left. }
    specialize (Hitems item Hf). now destruct item. }
  assert (Hcount : (length (filter is_None G) <= j)%nat).
  { assert (H : length (filter is_None (G ++ queue p)) = j).
    { rewrite Hq, filter_app, Hnone. simpl.
      clear. induction j; simpl; auto. }
    rewrite filter_app, length_app in H. lia. }
  rewrite Hj. lia.
Qed.

(** X12: no more workers exit gracefully than sentinels were put, and
    no more sentinels are put than [n_workers] says: when no accepted
    element is [None], under every schedule and with any number of workers
    on the queue, the workers that have exited gracefully are at most as
    many as the sentinels [enqueuer] has put so far, hence at most
    [n_workers].  Workers in excess of [n_workers] never get a sentinel. *)
Theorem graceful_exits_bounded (ea : enq_args) (was : list worker_args)
  (m : Z) (sched : list action) :
  Forall (fun item => item <> PyNone) (filtered ea) ->
  let p := threadables ea was m sched in
  (length (filter exited_gracefully (workers p))
   <= sentinels_put (feeder_log p))%nat /\
  (sentinels_put (feeder_log p) <= Z.to_nat (n_workers ea))%nat.
Proof.
  intros Hitems p.
  destruct (threadables_inv ea was m sched) as (_ & Hws & _).
  destruct (sentinels_handed_out ea was m sched Hitems) as (Hout & Hle).
  fold p in Hws, Hout, Hle.
  split; [|assumption].
  pose proof (graceful_took_sentinel _ Hws) as Hg.
  fold (handed_out p) in Hg. lia.
Qed.

Lemma graceful_exits_bounded_witness :
  let ea := EnqArgs (map PyInt [1; 2; 3]) (always true) 1 None None in
  let sched := concat (repeat [Feed; Work 0; Work 1; Work 2] 20) in
  let p := threadables ea [noop; noop; noop] 0 sched in
  (length (filter exited_gracefully (workers p)) <= 1)%nat.
Proof.
  intros ea sched p.
  destruct (graceful_exits_bounded ea [noop; noop; noop] 0 sched)
    as (H1 & H2).
  - repeat constructor; discriminate.
  - fold p in H1, H2. change (Z.to_nat (n_workers ea)) with 1%nat in H2.
    exact (Nat.le_trans _ _ _ H1 H2).
Defined.

Section Account.

Variable ea : enq_args.

Lemma fine_pipeline_step_account (act : action) (p : fine_pipeline) :
  length (enqueued (f_feeder_log p))
  = (acknowledged p + items_in_hand p + length (f_queue p))%nat ->
  length (enqueued (f_feeder_log (fine_pipeline_step ea act p)))
  = (acknowledged (fine_pipeline_step ea act p)
     + items_in_hand (fine_pipeline_step ea act p)
     + length (f_queue (fine_pipeline_step ea act p)))%nat.
Proof.
  intros H. destruct act as [|w|ev]; unfold fine_pipeline_step.
  - destruct (enq_step ea (fine_view_of p) (f_feeder p)) as [s' l].
    unfold acknowledged, items_in_hand in *.
    cbn [f_feeder_log f_workers f_queue].
    rewrite enqueued_app, !length_app. lia.
  - destruct (nth_error (f_workers p) w) as [t|] eqn:Et; [|assumption].
    pose proof (fine_step_account (f_args t) (fine_view_of p) (f_pc t))
      as Hacc.
    pose proof (fine_step_takes (f_args t) (fine_view_of p) (f_pc t))
      as Htake.
    destruct (fine_step (f_args t) (fine_view_of p) (f_pc t)) as [pc' l].
    cbn [fst snd] in Hacc, Htake.
    assert (Hq : (length (dequeued l)
                  + length (skipn (length (dequeued l)) (f_queue p))
                  = length (f_queue p))%nat).
    { rewrite <- length_app.
      now rewrite (skipn_taken (f_queue p) (dequeued l) Htake). }
    pose proof (nth_error_middle _ _ _ Et) as Hmid.
    unfold acknowledged, items_in_hand in *.
    cbn [f_feeder_log f_workers f_queue].
    set (l1 := firstn w (f_workers p)) in *.
    set (l2 := skipn (S w) (f_workers p)) in *.
    clearbody l1 l2. rewrite Hmid in H.
    rewrite !map_app, !list_sum_app in *.
    unfold list_sum in *. cbn [map fold_right f_log f_pc] in *.
    rewrite task_done_calls_app. lia.
  - assumption.
Qed.

End Account.

(** X13: the count the queue keeps of its unfinished tasks (one more for
    each [put], one less for each [task_done]) is, with any number of
    workers and at every point of every interleaving of the threads, those
    in which a worker is interrupted while [func] runs included, the number
    of items in the queue plus the number of items the workers have in
    hand: one for each worker that is between its [get] and its
    [task_done], and one for each worker that left its loop at line 96 or
    by an exception.  So it does not come back to zero once a worker has
    taken its sentinel. *)
Theorem unfinished_tasks_account (ea : enq_args) (was : list worker_args)
  (m : Z) (sched : list action) :
  let p := fine_threadables ea was m sched in
  length (enqueued (f_feeder_log p))
  = (acknowledged p + items_in_hand p + length (f_queue p))%nat.
Proof.
  intros p. unfold p, fine_threadables.
  assert (Hrun : forall (s : list action) (p0 : fine_pipeline),
             length (enqueued (f_feeder_log p0))
             = (acknowledged p0 + items_in_hand p0
                + length (f_queue p0))%nat ->
             length (enqueued (f_feeder_log (fine_pipeline_run ea s p0)))
             = (acknowledged (fine_pipeline_run ea s p0)
                + items_in_hand (fine_pipeline_run ea s p0)
                + length (f_queue (fine_pipeline_run ea s p0)))%nat).
  { induction s as [|act s IH]; intros p0 H0; [assumption|].
    cbn [fine_pipeline_run]. apply IH.
    now apply fine_pipeline_step_account. }
  apply Hrun. unfold fine_pipeline_init, acknowledged, items_in_hand.
  cbn [f_feeder_log f_workers f_queue enqueued length].
  rewrite !map_map. cbn [f_log f_pc task_done_calls in_hand].
  clear. induction was as [|wa was IH]; simpl in *; lia.
Qed.

Section Bounded.

Variable ea : enq_args.

Lemma pipeline_step_maxsize (act : action) (p : pipeline) :
  maxsize (pipeline_step ea act p) = maxsize p.
Proof.
  destruct act as [|w|ev]; unfold pipeline_step; [| |reflexivity].
  - now destruct (enq_step ea (view_of p) (feeder p)).
  - destruct (nth_error (workers p) w) as [t|]; [|reflexivity].
    now destruct (worker_step (w_args t) (view_of p) (w_pc t)).
Qed.

Lemma pipeline_step_bounded (act : action) (p : pipeline) :
  0 < maxsize p ->
  Z.of_nat (length (queue p)) <= maxsize p ->
  Z.of_nat (length (queue (pipeline_step ea act p))) <= maxsize p.
Proof.
  intros Hpos Hle. destruct act as [|w|ev]; unfold pipeline_step;
    [| |assumption].
  - pose proof (enq_step_puts ea (view_of p) (feeder p)) as Hput.
    destruct (enq_step ea (view_of p) (feeder p)) as [s' l].
    cbn [queue snd] in *. rewrite length_app.
    destruct Hput as [-> | (Hfull & item & ->)]; simpl; [lia|].
    unfold Queue_full in Hfull.
    apply andb_false_iff in Hfull.
    destruct Hfull as [H|H]; [apply Z.ltb_ge in H | apply Z.leb_gt in H];
      lia.
  - destruct (nth_error (workers p) w) as [t|]; [|assumption].
    destruct (worker_step (w_args t) (view_of p) (w_pc t)) as [pc' l].
    cbn [queue]. rewrite length_skipn. lia.
Qed.

Lemma pipeline_run_bounded (sched : list action) :
  forall p : pipeline,
    0 < maxsize p ->
    Z.of_nat (length (queue p)) <= maxsize p ->
    Z.of_nat (length (queue (pipeline_run ea sched p))) <= maxsize p.
Proof.
  induction sched as [|act sched IH]; intros p Hpos Hle; simpl;
    [assumption|].
  rewrite <- (pipeline_step_maxsize act p).
  apply IH; rewrite pipeline_step_maxsize;
    [assumption | now apply pipeline_step_bounded].
Qed.

End Bounded.

(** X14: around a queue made with a positive [maxsize], [enqueuer] is never
    more than [maxsize] items ahead of the workers: under every schedule
    the queue holds at most [maxsize] items, and the items put are at most
    [maxsize] more than the items the workers have taken. *)
Theorem enqueuer_waits_for_workers (ea : enq_args) (was : list worker_args)
  (m : Z) (sched : list action) :
  0 < m ->
  let p := threadables ea was m sched in
  Z.of_nat (length (queue p)) <= m /\
  Z.of_nat (length (enqueued (feeder_log p)))
  <= Z.of_nat (length (concat (handed_out p))) + m.
Proof.
  intros Hpos p.
  assert (Hq : Z.of_nat (length (queue p)) <= m).
  { apply (pipeline_run_bounded ea sched (pipeline_init ea was m));
      simpl; lia. }
  split; [assumption|].
  destruct (threadables_history ea was m sched) as (G & HG & Hperm & _).
  fold p in HG, Hperm.
  rewrite HG, length_app, (Permutation_length Hperm). lia.
Qed.

Lemma enqueuer_waits_for_workers_witness :
  let ea := EnqArgs (map PyInt [1; 2; 3; 4; 5]) (always true) 1 None None in
  let p := threadables ea [noop] 2 (repeat Feed 12) in
  Z.of_nat (length (queue p)) <= 2.
Proof.
  intros ea p.
  apply (enqueuer_waits_for_workers ea [noop] 2 (repeat Feed 12)). lia.
Defined.

Section Blocked.

Variable ea : enq_args.

Lemma work_step_exited (w : nat) (p : pipeline) :
  no_consumer p -> pipeline_step ea (Work w) p = p.
Proof.
  intros Hno. unfold pipeline_step.
  destruct (nth_error (workers p) w) as [t|] eqn:Et; [|reflexivity].
  assert (Ht : has_exited (w_pc t)).
  { unfold no_consumer in Hno. rewrite Forall_forall in Hno.
    apply Hno. now apply nth_error_In with w. }
  destruct t as [wa pc L]. simpl in Ht.
  destruct pc as [| |st]; try contradiction.
  pose proof (nth_error_middle _ _ _ Et) as Hmid.
  set (l1 := firstn w (workers p)) in *.
  set (l2 := skipn (S w) (workers p)) in *. clearbody l1 l2.
  cbn. rewrite app_nil_r, <- Hmid.
  now destruct p.
Qed.

End Blocked.

(** X15: the put of a sentinel (line 68) cannot be given up: when
    [enqueuer] stands at it with the queue full and every worker has left
    its loop (killed, or stopped by an exception), then whatever is
    scheduled afterwards, and whichever events are set, its own kill event
    included, the enqueuer stays in that call, the queue stays full and
    nothing more is logged: the thread never ends. *)
Theorem sentinel_put_blocks_forever (ea : enq_args) (p : pipeline)
  (todo : nat) (sched : list action) :
  e_pc (feeder p) = ESentinels (S todo) ->
  Queue_full (maxsize p) (queue p) = true ->
  no_consumer p ->
  feeder (pipeline_run ea sched p) = feeder p /\
  feeder_log (pipeline_run ea sched p) = feeder_log p /\
  queue (pipeline_run ea sched p) = queue p /\
  workers (pipeline_run ea sched p) = workers p.
Proof.
  revert p. induction sched as [|act sched IH]; intros p Hpc Hfull Hno;
    [simpl; auto|].
  cbn [pipeline_run].
  assert (Hstep : feeder (pipeline_step ea act p) = feeder p /\
                  feeder_log (pipeline_step ea act p) = feeder_log p /\
                  queue (pipeline_step ea act p) = queue p /\
                  workers (pipeline_step ea act p) = workers p /\
                  maxsize (pipeline_step ea act p) = maxsize p).
  { destruct act as [|w|ev].
    - unfold pipeline_step, enq_step. rewrite Hpc.
      unfold Queue_put, view_of. cbn [q_full]. rewrite Hfull. cbn.
      rewrite !app_nil_r. auto.
    - rewrite (work_step_exited ea w p Hno). auto.
    - cbn. auto. }
  destruct Hstep as (Hf & Hl & Hq & Hw & Hm).
  destruct (IH (pipeline_step ea act p)) as (Hf' & Hl' & Hq' & Hw').
  - now rewrite Hf.
  - now rewrite Hm, Hq.
  - unfold no_consumer. now rewrite Hw.
  - rewrite Hf', Hl', Hq', Hw'. auto.
Qed.

Lemma sentinel_put_blocks_forever_witness :
  let ea := EnqArgs [PyInt 1] (always true) 1 None (Some 0%nat) in
  let wa := WorkerArgs (fun _ => Return PyNone) None (Some 0%nat) in
  let p := threadables ea [wa] 1 [Feed; Feed; Feed; SetEvent 0; Work 0] in
  let sched := [Feed; SetEvent 0; Feed; Work 0; Feed; Feed] in
  e_pc (feeder p) = ESentinels 1 /\
  queue p = [PyInt 1] /\
  feeder (pipeline_run ea sched p) = feeder p /\
  queue (pipeline_run ea sched p) = queue p.
Proof.
  intros ea wa p sched.
  split; [reflexivity|]. split; [reflexivity|].
  destruct (sentinel_put_blocks_forever ea p 0 sched) as (H1 & _ & H3 & _).
  - reflexivity.
  - reflexivity.
  - repeat constructor.
  - split; assumption.
Defined.

(** X16: without a kill event, the put of an item (line 58) is retried
    without end when nobody takes anything from a full queue: when
    [enqueuer] stands at an accepted element with the queue full and every
    worker has left its loop, then whatever is scheduled afterwards it
    stays at that element, between the test of line 53 and the put of
    line 58 that times out, and puts nothing. *)
Theorem put_retries_forever (ea : enq_args) (p : pipeline) (file : pyobj)
  (sched : list action) :
  kill_event ea = None ->
  accepts ea file = true ->
  e_pc (feeder p) = ELoop file \/ e_pc (feeder p) = EPut file ->
  Queue_full (maxsize p) (queue p) = true ->
  no_consumer p ->
  (e_pc (feeder (pipeline_run ea sched p)) = ELoop file \/
   e_pc (feeder (pipeline_run ea sched p)) = EPut file) /\
  e_iter (feeder (pipeline_run ea sched p)) = e_iter (feeder p) /\
  e_i (feeder (pipeline_run ea sched p)) = e_i (feeder p) /\
  enqueued (feeder_log (pipeline_run ea sched p)) = enqueued (feeder_log p) /\
  queue (pipeline_run ea sched p) = queue p.
Proof.
  intros Hk Hacc. revert p.
  induction sched as [|act sched IH]; intros p Hpc Hfull Hno;
    [simpl; auto|].
  cbn [pipeline_run].
  assert (Hstep : (e_pc (feeder (pipeline_step ea act p)) = ELoop file \/
                   e_pc (feeder (pipeline_step ea act p)) = EPut file) /\
                  e_iter (feeder (pipeline_step ea act p))
                  = e_iter (feeder p) /\
                  e_i (feeder (pipeline_step ea act p)) = e_i (feeder p) /\
                  enqueued (feeder_log (pipeline_step ea act p))
                  = enqueued (feeder_log p) /\
                  queue (pipeline_step ea act p) = queue p /\
                  workers (pipeline_step ea act p) = workers p /\
                  maxsize (pipeline_step ea act p) = maxsize p).
  { destruct act as [|w|ev].
    - unfold pipeline_step, enq_step. unfold accepts in Hacc.
      destruct Hpc as [Hpc|Hpc]; rewrite Hpc.
      + destruct (filter_func ea file) as [r|e]; [|discriminate].
        rewrite Hacc, Hk. cbn. rewrite !app_nil_r. auto 10.
      + unfold Queue_put, view_of. cbn [q_full]. rewrite Hfull. cbn.
        rewrite enqueued_app. cbn. rewrite !app_nil_r. auto 10.
    - rewrite (work_step_exited ea w p Hno). auto 10.
    - cbn. auto 10. }
  destruct Hstep as (Hpc' & Hit & Hi & Hl & Hq & Hw & Hm).
  destruct (IH (pipeline_step ea act p)) as (H1 & H2 & H3 & H4 & H5).
  - assumption.
  - now rewrite Hm, Hq.
  - unfold no_consumer. now rewrite Hw.
  - rewrite H2, H3, H4, H5. auto.
Qed.

Lemma put_retries_forever_witness :
  let ea := EnqArgs (map PyInt [1; 2]) (always true) 1 None None in
  let wa := WorkerArgs (fun _ => Return PyNone) None (Some 0%nat) in
  let p := threadables ea [wa] 1
             [Feed; Feed; Feed; SetEvent 0; Work 0; Feed] in
  let sched := repeat Feed 9 in
  (e_pc (feeder (pipeline_run ea sched p)) = ELoop (PyInt 2) \/
   e_pc (feeder (pipeline_run ea sched p)) = EPut (PyInt 2)) /\
  queue (pipeline_run ea sched p) = [PyInt 1].
Proof.
  intros ea wa p sched.
  destruct (put_retries_forever ea p (PyInt 2) sched)
    as (H1 & _ & _ & _ & H5).
  - reflexivity.
  - reflexivity.
  - right. reflexivity.
  - reflexivity.
  - repeat constructor.
  - split; [exact H1 | exact H5].
Defined.

(** ** Console output *)



Lemma clrd_total (g : globals) (fore sty : attributes)
  (reset text color style : string) :
  Fore g = Some fore ->
  Style g = Some sty ->
  sty "RESET_ALL"%string = Some reset ->
  exists out, __clrd g text color style = Ok out.
Proof.
  intros Hf Hs Hr. unfold __clrd. rewrite Hf, Hs, Hr.
  destruct (fore (upper color)); [|eauto].
  destruct (sty (upper style)); eauto.
Qed.

Lemma clrd_unbound (g : globals) (text color style : string) :
  Fore g = None -> __clrd g text color style = Error NameError.
Proof. intros H. unfold __clrd. now rewrite H. Qed.



(** X18: when colorama is not installed (the global [Fore] is not bound),
    every call of [__clrd] raises [NameError], which the fallback of line
    27 does not cover; so no call of [enqueuer] returns: one that has left
    its loop ends with an exception, [NameError] at the [print] of line 55
    or 69 if not one of its own.  At line 69 the work is done: the items
    and all [n_workers] sentinels are in the queue. *)
Theorem enqueuer_without_colorama (g : globals) (a : enq_args)
  (vs : list view) (st : status) :
  Fore g = None ->
  e_pc (fst (enqueuer a vs)) = EExit st ->
  (forall text color style, __clrd g text color style = Error NameError) /\
  (exists e, enqueuer_end g st = Error e) /\
  (st = Killed -> enqueuer_end g st = Error NameError) /\
  (st = Graceful ->
   enqueuer_end g st = Error NameError /\
   enqueued (snd (enqueuer a vs))
   = limited (n a) (filtered a) ++ repeat PyNone (Z.to_nat (n_workers a))).
Proof.
  intros Hg Hst.
  assert (Hc : forall text color style,
             __clrd g text color style = Error NameError)
    by (intros; now apply clrd_unbound).
  split; [exact Hc|].
  assert (Hp : forall what color,
             enqueuer_print g what color = Error NameError)
    by (intros; unfold enqueuer_print; now rewrite Hc).
  split; [|split].
  - destruct st as [| |e]; simpl; rewrite ?Hp; eauto.
  - intros ->. apply Hp.
  - intros ->. split; [apply Hp|].
    now apply (enq_inv_graceful a _ _ (enqueuer_inv a vs)).
Qed.

Lemma enqueuer_without_colorama_witness :
  let a := EnqArgs (map PyInt [1; 2; 3; 4]) is_even 2 None None in
  enqueuer_end no_colorama Graceful = Error NameError /\
  enqueued (snd (enqueuer a (repeat quiet 12)))
  = [PyInt 2; PyInt 4; PyNone; PyNone].
Proof.
  intros a.
  destruct (enqueuer_without_colorama no_colorama a (repeat quiet 12)
              Graceful eq_refl eq_refl) as (_ & _ & _ & H).
  destruct (H eq_refl) as (H1 & H2). split; [exact H1 | exact H2].
Defined.

(** X19: a worker whose [func] has no [__name__] (a [functools.partial],
    an object with [__call__]) never returns: when it has left its loop,
    killed or on a sentinel, the [print] of line 88 or 99 raises, with
    colorama imported [AttributeError] from [func.__name__], which is
    evaluated outside [__clrd].  At line 99 the work is done: [exit_func]
    has been called if there is one. *)
Theorem worker_without_func_name (g : globals) (wa : worker_args)
  (vs : list view) (st : status) :
  fst (worker wa vs) = WExit st ->
  (exists e, worker_end g None st = Error e) /\
  (forall fore sty reset,
     Fore g = Some fore -> Style g = Some sty ->
     sty "RESET_ALL"%string = Some reset ->
     st = Killed \/ st = Graceful ->
     worker_end g None st = Error AttributeError) /\
  (st = Graceful -> exit_calls (snd (worker wa vs)) = exit_calls_due wa).
Proof.
  intros Hst. split; [|split].
  - destruct st as [| |e]; simpl; unfold worker_print;
      try (destruct (__clrd g "Worker" "yellow" "normal")); eauto.
  - intros fore sty reset Hf Hs Hr Hcase.
    destruct (clrd_total g fore sty reset "Worker" "yellow" "normal"
                Hf Hs Hr) as (out & Hout).
    destruct Hcase as [-> | ->]; simpl; unfold worker_print;
      now rewrite Hout.
  - intros ->.
    pose proof (worker_run_inv wa vs WLoop [] (worker_inv_init wa)) as Hinv.
    simpl in Hinv. fold (worker wa vs) in Hinv. rewrite Hst in Hinv.
    now destruct Hinv as (_ & _ & Hexit).
Qed.

Lemma worker_without_func_name_witness :
  let wa := WorkerArgs (fun _ => Return PyNone) (Some (Return PyNone)) None in
  let v := View (fun _ => false) false (Some PyNone) in
  worker_end colorama None Graceful = Error AttributeError /\
  exit_calls (snd (worker wa [v; v])) = 1%nat.
Proof.
  intros wa v.
  destruct (worker_without_func_name colorama wa [v; v] Graceful eq_refl)
    as (_ & H2 & H3).
  split; [|exact (H3 eq_refl)].
  eapply H2; try reflexivity. now right.
Defined.

(** ** The classes *)

Section ThreadCalls.

Variable value : Type.
Variable keyword_only : list string.
Variable is_none : value -> bool.

Lemma dict_get_cons (k k' : string) (x : value) (d : list (string * value)) :
  dict_get k ((k', x) :: d)
  = if String.eqb k' k then Some x else dict_get k d.
Proof.
  unfold dict_get. cbn [find fst snd]. now destruct (String.eqb k' k).
Qed.

Lemma dict_get_pop_other (key k : string) (d : list (string * value)) :
  k <> key -> dict_get k (dict_pop key d) = dict_get k d.
Proof.
  intros Hk. unfold dict_get, dict_pop.
  induction d as [|[k' x] d IH]; simpl; [reflexivity|].
  destruct (String.eqb k' key) eqn:E1; simpl.
  - apply String.eqb_eq in E1. subst k'.
    destruct (String.eqb key k) eqn:E2; [|exact IH].
    apply String.eqb_eq in E2. now elim Hk.
  - destruct (String.eqb k' k); [reflexivity | exact IH].
Qed.

Lemma dict_pop_gone (key : string) (d : list (string * value)) :
  forall kv, In kv (dict_pop key d) -> fst kv <> key.
Proof.
  intros kv Hin. unfold dict_pop in Hin. apply filter_In in Hin.
  destruct Hin as (_ & H). apply negb_true_iff in H.
  now apply String.eqb_neq in H.
Qed.

Lemma dict_pop_In (key : string) (d : list (string * value)) :
  forall kv, In kv (dict_pop key d) -> In kv d.
Proof.
  intros kv Hin. unfold dict_pop in Hin. now apply filter_In in Hin.
Qed.

Lemma existsb_eqb_In (k : string) (l : list string) :
  In k l -> existsb (String.eqb k) l = true.
Proof.
  intros H. apply existsb_exists. exists k.
  split; [assumption | apply String.eqb_refl].
Qed.

(** The call made with [target] and [args] given, after the two [pop]:
    no keyword is given twice. *)
Lemma call_after_pops (target given : value) (args : list value)
  (kwargs : list (string * value)) :
  call_args [("target"%string, target); ("args"%string, given)] args
            (dict_pop "args" (dict_pop "target" kwargs))
  = Ok (Call value args
             ([("target"%string, target); ("args"%string, given)]
              ++ dict_pop "args" (dict_pop "target" kwargs))).
Proof.
  unfold call_args.
  set (kw := dict_pop "args" (dict_pop "target" kwargs)).
  assert (Hno : existsb (fun kv : string * value =>
                           existsb (String.eqb (fst kv))
                                   (map fst [("target"%string, target);
                                             ("args"%string, given)]))
                        kw = false).
  { apply not_true_is_false. intros H. apply existsb_exists in H.
    destruct H as (kv & Hin & Hk). simpl in Hk.
    pose proof (dict_pop_gone "args" _ kv Hin) as Ha.
    pose proof (dict_pop_gone "target" _ kv (dict_pop_In "args" _ kv Hin))
      as Ht.
    rewrite orb_false_r in Hk. apply orb_true_iff in Hk.
    destruct Hk as [Hk|Hk]; apply String.eqb_eq in Hk; congruence. }
  now rewrite Hno.
Qed.

(** Without positional arguments, keywords that all name a parameter are
    bound as they are. *)
Lemma bind_keywords (kws : list (string * value)) :
  Forall (fun kv => In (fst kv) (Thread_parameters ++ keyword_only)) kws ->
  bind_args keyword_only Thread_parameters (Call value [] kws) = Ok kws.
Proof.
  intros Hall. unfold bind_args. cbn [positional keywords length combine].
  assert (H0 : (length Thread_parameters <? 0)%nat = false) by reflexivity.
  rewrite H0.
  assert (H1 : combine Thread_parameters (@nil value) = [])
    by reflexivity.
  rewrite H1. cbn [map existsb app].
  assert (H2 : existsb (fun _ : string * value => false) kws = false)
    by (clear; induction kws; simpl; auto).
  rewrite H2.
  assert (H3 : existsb (fun kv : string * value =>
                          negb (existsb (String.eqb (fst kv))
                                        (Thread_parameters ++ keyword_only)))
                       kws = false).
  { apply not_true_is_false. intros H. apply existsb_exists in H.
    destruct H as (kv & Hin & Hk). rewrite Forall_forall in Hall.
    rewrite (existsb_eqb_In _ _ (Hall kv Hin)) in Hk. discriminate Hk. }
  now rewrite H3.
Qed.

(** A second positional argument lands on [target]: with [target] also
    given by keyword the call is a [TypeError]. *)
Lemma bind_second_positional (target : value) (args : list value)
  (kws : list (string * value)) :
  (2 <= length args)%nat ->
  bind_args keyword_only Thread_parameters
            (Call value args (("target"%string, target) :: kws))
  = Error TypeError.
Proof.
  intros Hlen. destruct args as [|a1 [|a2 args]]; simpl in Hlen; try lia.
  unfold bind_args. cbn [positional keywords].
  destruct (length Thread_parameters <? length (a1 :: a2 :: args))%nat;
    [reflexivity|].
  assert (H : existsb (fun kv : string * value =>
                         existsb (String.eqb (fst kv))
                                 (map fst (combine Thread_parameters
                                                   (a1 :: a2 :: args))))
                      (("target"%string, target) :: kws) = true).
  { apply existsb_exists. exists ("target"%string, target).
    split; [now left|]. apply existsb_eqb_In.
    unfold Thread_parameters. cbn [combine map fst]. right. now left. }
  now rewrite H.
Qed.

(** A single positional argument lands on [group]. *)
Lemma bind_one_positional (g : value) (kws : list (string * value)) :
  Forall (fun kv => In (fst kv) (Thread_parameters ++ keyword_only)) kws ->
  Forall (fun kv => fst kv <> "group"%string) kws ->
  bind_args keyword_only Thread_parameters (Call value [g] kws)
  = Ok (("group"%string, g) :: kws).
Proof.
  intros Hall Hgroup. unfold bind_args. cbn [positional keywords].
  assert (H0 : (length Thread_parameters <? length [g])%nat = false)
    by reflexivity.
  rewrite H0.
  assert (H1 : combine Thread_parameters [g] = [("group"%string, g)])
    by reflexivity.
  rewrite H1. cbn [map fst app].
  assert (H2 : existsb (fun kv : string * value =>
                          existsb (String.eqb (fst kv)) ["group"%string])
                       kws = false).
  { apply not_true_is_false. intros H. apply existsb_exists in H.
    destruct H as (kv & Hin & Hk). cbn [existsb] in Hk.
    rewrite orb_false_r in Hk. apply String.eqb_eq in Hk.
    rewrite Forall_forall in Hgroup. now apply (Hgroup kv Hin). }
  rewrite H2.
  assert (H3 : existsb (fun kv : string * value =>
                          negb (existsb (String.eqb (fst kv))
                                        (Thread_parameters ++ keyword_only)))
                       kws = false).
  { apply not_true_is_false. intros H. apply existsb_exists in H.
    destruct H as (kv & Hin & Hk). rewrite Forall_forall in Hall.
    rewrite (existsb_eqb_In _ _ (Hall kv Hin)) in Hk. discriminate Hk. }
  now rewrite H3.
Qed.

Lemma given_allowed (target given : value) (kwargs : list (string * value)) :
  Forall (fun kv => In (fst kv) (Thread_parameters ++ keyword_only)) kwargs ->
  Forall (fun kv => In (fst kv) (Thread_parameters ++ keyword_only))
         ([("target"%string, target); ("args"%string, given)]
          ++ dict_pop "args" (dict_pop "target" kwargs)).
Proof.
  intros Hall. apply Forall_app. split.
  - apply Forall_cons; [|apply Forall_cons; [|apply Forall_nil]];
      cbn [fst]; apply in_or_app; left;
      unfold Thread_parameters; simpl; auto 10.
  - rewrite Forall_forall in *. intros kv Hin. apply Hall.
    eapply dict_pop_In, dict_pop_In, Hin.
Qed.

Lemma given_lookup (target given : value) (kwargs : list (string * value)) :
  forall k, k <> "target"%string -> k <> "args"%string ->
    dict_get k ([("target"%string, target); ("args"%string, given)]
                ++ dict_pop "args" (dict_pop "target" kwargs))
    = dict_get k kwargs.
Proof.
  intros k Hkt Hka. cbn [app]. rewrite !dict_get_cons.
  destruct (String.eqb "target" k) eqn:E1;
    [apply String.eqb_eq in E1; now elim Hkt|].
  destruct (String.eqb "args" k) eqn:E2;
    [apply String.eqb_eq in E2; now elim Hka|].
  now rewrite !dict_get_pop_other.
Qed.

(** What [Thread.__init__] gets from [__init__], for a [target] and a
    tuple [given], when there is no extra positional argument. *)
Lemma init_binds (target given : value) (kwargs : list (string * value)) :
  Forall (fun kv => In (fst kv) (Thread_parameters ++ keyword_only)) kwargs ->
  (forall g, dict_get "group" kwargs = Some g -> is_none g = true) ->
  exists b,
    Thread_init keyword_only is_none
                (Call value []
                      ([("target"%string, target); ("args"%string, given)]
                       ++ dict_pop "args" (dict_pop "target" kwargs)))
    = Ok b /\
    dict_get "target" b = Some target /\
    dict_get "args" b = Some given /\
    forall k, k <> "target"%string -> k <> "args"%string ->
              dict_get k b = dict_get k kwargs.
Proof.
  intros Hall Hgroup. eexists. split.
  - unfold Thread_init.
    rewrite (bind_keywords _ (given_allowed target given kwargs Hall)).
    rewrite (given_lookup target given kwargs "group")
      by discriminate.
    destruct (dict_get "group" kwargs) as [g|] eqn:Eg; [|reflexivity].
    now rewrite (Hgroup g eq_refl).
  - split; [reflexivity|]. split; [reflexivity|].
    apply given_lookup.
Qed.

(** With one extra positional argument that is not [None]. *)
Lemma init_group (target given g : value) (kwargs : list (string * value)) :
  Forall (fun kv => In (fst kv) (Thread_parameters ++ keyword_only)) kwargs ->
  Forall (fun kv => fst kv <> "group"%string) kwargs ->
  is_none g = false ->
  Thread_init keyword_only is_none
              (Call value [g]
                    ([("target"%string, target); ("args"%string, given)]
                     ++ dict_pop "args" (dict_pop "target" kwargs)))
  = Error AssertionError.
Proof.
  intros Hall Hno Hg. unfold Thread_init.
  rewrite bind_one_positional.
  - rewrite dict_get_cons. cbn. now rewrite Hg.
  - now apply given_allowed.
  - apply Forall_app. split.
    + apply Forall_cons; [|apply Forall_cons; [|apply Forall_nil]];
        discriminate.
    + rewrite Forall_forall in *. intros kv Hin. apply Hno.
      eapply dict_pop_In, dict_pop_In, Hin.
Qed.

End ThreadCalls.

(** X20: the constructors of [Enqueuer] and [Worker] drop a [target] or
    [args] keyword passed by the caller, so that no keyword is given twice.
    Called without extra positional arguments, with keywords that are
    parameters of [Thread.__init__] and a [group] that is [None] if given,
    they bind [target] to [enqueuer] (to [worker]), [args] to the tuple of
    their own arguments in the order of the signature of that function,
    and every other keyword as it came.  Extra positional arguments are of
    no use: a single one lands on [group] and, when it is not [None],
    fails the [assert] of [Thread.__init__]; with two or more the call
    raises [TypeError], the second one landing on [target], which is also
    given by keyword. *)
Theorem thread_target_cannot_be_overridden (value : Type)
  (fn_enqueuer fn_worker : value) (tuple : list value -> value)
  (keyword_only : list string) (is_none : value -> bool)
  (queue iterator filter_func n_workers n kill_event func exit_func : value)
  (args : list value) (kwargs : list (string * value)) :
  let Enqueuer :=
    Enqueuer_init value fn_enqueuer tuple keyword_only is_none queue iterator
                  filter_func n_workers n kill_event in
  let Worker :=
    Worker_init value fn_worker tuple keyword_only is_none queue func
                exit_func kill_event in
  (args = [] ->
   Forall (fun kv => In (fst kv) (Thread_parameters ++ keyword_only)) kwargs ->
   (forall g, dict_get "group" kwargs = Some g -> is_none g = true) ->
   (exists b,
      Enqueuer args kwargs = Ok b /\
      dict_get "target" b = Some fn_enqueuer /\
      dict_get "args" b
      = Some (tuple [queue; iterator; filter_func; n_workers; n;
                     kill_event]) /\
      forall k, k <> "target"%string -> k <> "args"%string ->
                dict_get k b = dict_get k kwargs) /\
   (exists b,
      Worker args kwargs = Ok b /\
      dict_get "target" b = Some fn_worker /\
      dict_get "args" b = Some (tuple [queue; func; exit_func; kill_event]) /\
      forall k, k <> "target"%string -> k <> "args"%string ->
                dict_get k b = dict_get k kwargs)) /\
  (forall g, args = [g] -> is_none g = false ->
   Forall (fun kv => In (fst kv) (Thread_parameters ++ keyword_only)) kwargs ->
   Forall (fun kv => fst kv <> "group"%string) kwargs ->
   Enqueuer args kwargs = Error AssertionError /\
   Worker args kwargs = Error AssertionError) /\
  ((2 <= length args)%nat ->
   Enqueuer args kwargs = Error TypeError /\
   Worker args kwargs = Error TypeError).
Proof.
  intros Enqueuer Worker. unfold Enqueuer, Worker. split; [|split].
  - intros -> Hall Hgroup.
    split; [unfold Enqueuer_init | unfold Worker_init];
      rewrite call_after_pops; now apply init_binds.
  - intros g -> Hg Hall Hno.
    split; [unfold Enqueuer_init | unfold Worker_init];
      rewrite call_after_pops; now apply init_group.
  - intros Hlen.
    split; [unfold Enqueuer_init | unfold Worker_init];
      rewrite call_after_pops; unfold Thread_init; cbn [app];
      now rewrite bind_second_positional.
Qed.

Lemma thread_target_cannot_be_overridden_witness :
  let kwargs := [("name", "feeder"); ("target", "print"); ("daemon", "True")]
                  %string in
  let none := String.eqb "None" in
  (exists b,
     Enqueuer_init string "enqueuer"%string (String.concat ",")
                   ["daemon"%string] none
                   "q"%string "it"%string "f"%string "2"%string
                   "None"%string "None"%string [] kwargs = Ok b /\
     dict_get "target" b = Some "enqueuer"%string /\
     dict_get "name" b = Some "feeder"%string) /\
  Worker_init string "worker"%string (String.concat ",") ["daemon"%string]
              none "q"%string "f"%string "None"%string "None"%string
              ["None"; "print"]%string kwargs
  = Error TypeError.
Proof.
  intros kwargs none.
  destruct (thread_target_cannot_be_overridden string
              "enqueuer"%string "worker"%string
              (String.concat ",") ["daemon"%string] none
              "q"%string "it"%string "f"%string "2"%string
              "None"%string "None"%string "f"%string "None"%string
              [] kwargs)
    as (Hok & _).
  destruct (thread_target_cannot_be_overridden string
              "enqueuer"%string "worker"%string
              (String.concat ",") ["daemon"%string] none
              "q"%string "it"%string "f"%string "2"%string
              "None"%string "None"%string "f"%string "None"%string
              ["None"; "print"]%string kwargs)
    as (_ & _ & Herr).
  split.
  - destruct (Hok eq_refl) as ((b & Hb & Ht & _ & Hk) & _).
    + apply Forall_cons; [|apply Forall_cons; [|apply Forall_cons;
                                                   [|apply Forall_nil]]];
        unfold Thread_parameters; simpl; auto 10.
    + intros g Hg. discriminate Hg.
    + exists b. split; [exact Hb|]. split; [exact Ht|].
      rewrite Hk; [reflexivity | discriminate | discriminate].
  - apply Herr. simpl. lia.
Defined.

(** ** The threads of a pipeline, one at a time *)

Section Replace.

Context {A : Type}.

Lemma nth_error_replace_same (l : list A) (w : nat) (x y : A) :
  nth_error l w = Some x ->
  nth_error (firstn w l ++ y :: skipn (S w) l) w = Some y.
Proof.
  revert l. induction w as [|w IH]; intros [|z l] H; try discriminate.
  - reflexivity.
  - simpl in H. cbn [firstn skipn app nth_error]. now apply IH.
Qed.

Lemma nth_error_replace_other (l : list A) (w w' : nat) (x y : A) :
  nth_error l w' = Some x ->
  w <> w' ->
  nth_error (firstn w' l ++ y :: skipn (S w') l) w = nth_error l w.
Proof.
  revert l w. induction w' as [|w' IH]; intros [|z l] w H Hne;
    try discriminate.
  - destruct w as [|w]; [now elim Hne | reflexivity].
  - simpl in H. cbn [firstn skipn app].
    destruct w as [|w]; [reflexivity|].
    cbn [nth_error]. apply IH; [assumption | lia].
Qed.

End Replace.

Section PipelineThreads.

Variable ea : enq_args.

Lemma pipeline_step_flags (act : action) (p : pipeline) (ev : nat) :
  flags p ev = true -> flags (pipeline_step ea act p) ev = true.
Proof.
  intros H. destruct act as [|w|ev']; unfold pipeline_step.
  - now destruct (enq_step ea (view_of p) (feeder p)).
  - destruct (nth_error (workers p) w) as [t|]; [|assumption].
    now destruct (worker_step (w_args t) (view_of p) (w_pc t)).
  - cbn. now destruct (Nat.eqb ev ev').
Qed.

(** A worker of a pipeline whose kill event is set. *)
Lemma pipeline_run_killed (w ev : nat) (sched : list action) :
  forall (p : pipeline) (t : worker_thread),
    nth_error (workers p) w = Some t ->
    w_kill_event (w_args t) = Some ev ->
    flags p ev = true ->
    exists t',
      nth_error (workers (pipeline_run ea sched p)) w = Some t' /\
      w_args t' = w_args t /\
      ((steps_to_kill (w_pc t) <= steps_of w sched)%nat ->
       has_exited (w_pc t')) /\
      (length (dequeued (w_log t'))
       <= length (dequeued (w_log t)) + gets_to_kill (w_pc t))%nat.
Proof.
  induction sched as [|act sched IH]; intros p t Hnth Hk Hset.
  - exists t. simpl. repeat split; auto; [|lia].
    destruct (w_pc t); unfold steps_of; simpl; intros H; try lia; exact I.
  - cbn [pipeline_run].
    pose proof (pipeline_step_flags act p ev Hset) as Hset'.
    assert (Hsame : nth_error (workers (pipeline_step ea act p)) w = Some t ->
                    steps_of w (act :: sched) = steps_of w sched ->
                    exists t',
                      nth_error (workers (pipeline_run ea sched
                                            (pipeline_step ea act p))) w
                      = Some t' /\
                      w_args t' = w_args t /\
                      ((steps_to_kill (w_pc t) <= steps_of w (act :: sched))%nat ->
                       has_exited (w_pc t')) /\
                      (length (dequeued (w_log t'))
                       <= length (dequeued (w_log t))
                          + gets_to_kill (w_pc t))%nat).
    { intros Hnth' Hsteps. rewrite Hsteps.
      exact (IH _ t Hnth' Hk Hset'). }
    destruct act as [|w'|ev'].
    + apply Hsame; [|reflexivity]. unfold pipeline_step.
      now destruct (enq_step ea (view_of p) (feeder p)).
    + destruct (Nat.eq_dec w' w) as [->|Hne].
      * (* the worker itself takes a step *)
        assert (Hsteps : steps_of w (Work w :: sched)
                         = S (steps_of w sched))
          by (unfold steps_of; simpl; now rewrite Nat.eqb_refl).
        rewrite Hsteps.
        assert (Hstep : exists pc' l,
                   worker_step (w_args t) (view_of p) (w_pc t) = (pc', l) /\
                   (steps_to_kill pc' <= steps_to_kill (w_pc t) - 1)%nat /\
                   (length (dequeued l) + gets_to_kill pc'
                    <= gets_to_kill (w_pc t))%nat).
        { destruct (w_pc t) as [| |st]; simpl.
          - unfold kill_requested. rewrite Hk. cbn [view_of is_set].
            rewrite Hset. eexists _, _. split; [reflexivity|]. simpl. lia.
          - unfold Queue_get. destruct (q_head (view_of p)) as [item|].
            + destruct (is_None item).
              * destruct (exit_func (w_args t)) as [[r|e]|];
                  eexists _, _; (split; [reflexivity|]); simpl; lia.
              * destruct (func (w_args t) item) as [r|e];
                  eexists _, _; (split; [reflexivity|]); simpl; lia.
            + eexists _, _. split; [reflexivity|]. simpl. lia.
          - eexists _, _. split; [reflexivity|]. simpl. lia. }
        destruct Hstep as (pc' & l & Hstep & Hdown & Hgets).
        assert (Hnth' : nth_error (workers (pipeline_step ea (Work w) p)) w
                        = Some (WorkerThread (w_args t) pc' (w_log t ++ l))).
        { unfold pipeline_step. rewrite Hnth, Hstep. cbn [workers].
          now apply nth_error_replace_same with t. }
        destruct (IH _ _ Hnth' Hk Hset') as (t' & H1 & H2 & H3 & H4).
        exists t'. split; [assumption|]. split; [assumption|].
        cbn [w_pc w_log w_args] in *. split.
        -- intros Hle. apply H3. lia.
        -- rewrite dequeued_app, length_app in H4. lia.
      * apply Hsame.
        -- unfold pipeline_step.
           destruct (nth_error (workers p) w') as [t0|] eqn:Et0;
             [|assumption].
           destruct (worker_step (w_args t0) (view_of p) (w_pc t0))
             as [pc0 l0].
           cbn [workers]. rewrite <- Hnth.
           apply nth_error_replace_other with t0; [assumption|].
           intros H. now elim Hne.
        -- unfold steps_of. simpl.
           now rewrite (proj2 (Nat.eqb_neq w' w) Hne).
    + apply Hsame; [assumption | reflexivity].
Qed.

Lemma pipeline_step_feeder (act : action) (p : pipeline) :
  act <> Feed ->
  feeder (pipeline_step ea act p) = feeder p /\
  feeder_log (pipeline_step ea act p) = feeder_log p.
Proof.
  intros Hact. destruct act as [|w|ev]; [now elim Hact | |auto].
  unfold pipeline_step.
  destruct (nth_error (workers p) w) as [t|]; [|auto].
  now destruct (worker_step (w_args t) (view_of p) (w_pc t)).
Qed.

(** Around a queue without bound, the enqueuer of a pipeline runs as it
    does alone against views in which the queue is not full. *)
Lemma pipeline_feeder_unbounded (sched : list action) :
  forall p : pipeline,
    maxsize p <= 0 ->
    exists vs,
      length vs = feeds sched /\
      Forall (fun v => q_full v = false) vs /\
      feeder (pipeline_run ea sched p) = fst (enq_run ea vs (feeder p)) /\
      feeder_log (pipeline_run ea sched p)
      = feeder_log p ++ snd (enq_run ea vs (feeder p)).
Proof.
  induction sched as [|act sched IH]; intros p Hm.
  - exists []. simpl. rewrite app_nil_r. auto.
  - cbn [pipeline_run].
    destruct (IH (pipeline_step ea act p)) as (vs & Hlen & Hvs & Hf & Hl);
      [now rewrite (pipeline_step_maxsize ea act p)|].
    destruct act as [|w|ev].
    + exists (view_of p :: vs). split; [unfold feeds in *; simpl; lia|].
      split.
      * constructor; [|assumption]. unfold view_of, Queue_full. cbn.
        destruct (0 <? maxsize p) eqn:E; [|reflexivity].
        apply Z.ltb_lt in E. lia.
      * rewrite enq_run_cons. cbn [fst snd]. rewrite Hf, Hl.
        unfold pipeline_step.
        destruct (enq_step ea (view_of p) (feeder p)) as [s' l].
        cbn [feeder feeder_log fst snd]. now rewrite app_assoc.
    + exists vs.
      destruct (pipeline_step_feeder (Work w) p ltac:(discriminate))
        as (H1 & H2).
      rewrite Hf, Hl, H1, H2. auto.
    + exists vs.
      destruct (pipeline_step_feeder (SetEvent ev) p ltac:(discriminate))
        as (H1 & H2).
      rewrite Hf, Hl, H1, H2. auto.
Qed.

End PipelineThreads.

(** X21: setting the kill event of a worker stops it, whatever the
    enqueuer and the other workers do and whatever the queue holds: once
    the event is set, under every schedule the worker has left its loop
    after the second step it takes (the first, when it stood at the top of
    its loop), and it takes at most one item more from the queue, the one
    of a [get] that was under way. *)
Theorem kill_event_stops_worker (ea : enq_args) (p : pipeline) (w ev : nat)
  (t : worker_thread) (sched : list action) :
  nth_error (workers p) w = Some t ->
  w_kill_event (w_args t) = Some ev ->
  flags p ev = true ->
  exists t',
    nth_error (workers (pipeline_run ea sched p)) w = Some t' /\
    w_args t' = w_args t /\
    ((2 <= steps_of w sched)%nat -> has_exited (w_pc t')) /\
    (w_pc t = WLoop -> (1 <= steps_of w sched)%nat ->
     has_exited (w_pc t') /\
     (length (dequeued (w_log t')) <= length (dequeued (w_log t)))%nat) /\
    (length (dequeued (w_log t')) <= S (length (dequeued (w_log t))))%nat.
Proof.
  intros Hnth Hk Hset.
  destruct (pipeline_run_killed ea w ev sched p t Hnth Hk Hset)
    as (t' & H1 & H2 & H3 & H4).
  exists t'. split; [assumption|]. split; [assumption|].
  split; [|split].
  - intros Hle. apply H3. destruct (w_pc t); simpl; lia.
  - intros Hpc Hle. rewrite Hpc in *. simpl in *.
    split; [apply H3; lia | lia].
  - destruct (w_pc t); simpl in H4; lia.
Qed.

Lemma kill_event_stops_worker_witness :
  let ea := EnqArgs (map PyInt [1; 2; 3]) (always true) 1 None None in
  let wa := WorkerArgs (fun _ => Return PyNone) None (Some 0%nat) in
  let p := threadables ea [wa] 0
             [Feed; Feed; Feed; Work 0; Work 0; Feed; Feed; SetEvent 0] in
  let sched := [Feed; Work 0; Feed; Work 0] in
  exists t',
    nth_error (workers (pipeline_run ea sched p)) 0 = Some t' /\
    has_exited (w_pc t').
Proof.
  intros ea wa p sched.
  destruct (kill_event_stops_worker ea p 0 0
              (WorkerThread wa WLoop
                 [QGet (Some TIMEOUT) (Some (PyInt 1)); CallFunc (PyInt 1);
                  TaskDone])
              sched eq_refl eq_refl eq_refl)
    as (t' & H1 & _ & H3 & _).
  exists t'. split; [exact H1|]. apply H3.
  unfold steps_of, sched. simpl. lia.
Defined.

(** X22: around a queue without bound ([maxsize <= 0]) and without a kill
    event, [enqueuer] gets to its end whatever the workers do, also when
    there is none or when they have all stopped: on a source that is not
    empty, with a predicate that returns on every element, under every
    schedule that gives it two steps per element, one per sentinel and two
    more, it has exited gracefully, with the items and the [n_workers]
    sentinels in the queue or handed out. *)
Theorem unbounded_queue_enqueuer_finishes (ea : enq_args)
  (was : list worker_args) (m : Z) (sched : list action) :
  m <= 0 ->
  kill_event ea = None ->
  iterator ea <> [] ->
  Forall (returns ea) (iterator ea) ->
  (2 * length (iterator ea) + Z.to_nat (n_workers ea) + 1 < feeds sched)%nat ->
  e_pc (feeder (threadables ea was m sched)) = EExit Graceful /\
  enqueued (feeder_log (threadables ea was m sched))
  = limited (n ea) (filtered ea) ++ repeat PyNone (Z.to_nat (n_workers ea)).
Proof.
  intros Hm Hk Hne Hret Hlen.
  destruct (pipeline_feeder_unbounded ea sched (pipeline_init ea was m) Hm)
    as (vs & Hvs & Hroom & Hf & _).
  fold (threadables ea was m sched) in Hf.
  assert (Hpc : e_pc (feeder (threadables ea was m sched)) = EExit Graceful).
  { rewrite Hf. apply (enqueuer_total ea vs Hne Hret); [|now rewrite Hvs].
    eapply Forall_impl; [|exact Hroom]. intros v Hv.
    split; [assumption|]. unfold kill_requested. now rewrite Hk. }
  split; [assumption|].
  destruct (threadables_inv ea was m sched) as (Henq & _ & _).
  now apply (enq_inv_graceful ea _ _ Henq Hpc).
Qed.

Lemma unbounded_queue_enqueuer_finishes_witness :
  let ea := EnqArgs (map PyInt [1; 2; 3]) (always true) 2 None None in
  e_pc (feeder (threadables ea [] 0 (repeat Feed 10))) = EExit Graceful /\
  enqueued (feeder_log (threadables ea [] 0 (repeat Feed 10)))
  = limited (n ea) (filtered ea) ++ repeat PyNone (Z.to_nat (n_workers ea)).
Proof.
  intros ea.
  apply (unbounded_queue_enqueuer_finishes ea [] 0 (repeat Feed 10)).
  - lia.
  - reflexivity.
  - discriminate.
  - repeat constructor; eexists; reflexivity.
  - unfold feeds. simpl. lia.
Defined.

(** ** Workers whose enqueuer has gone *)

Section Gone.

Variable ea : enq_args.

Lemma pipeline_run_app (s1 s2 : list action) :
  forall p : pipeline,
    pipeline_run ea (s1 ++ s2) p = pipeline_run ea s2 (pipeline_run ea s1 p).
Proof.
  induction s1 as [|act s1 IH]; intros p; simpl; [reflexivity|]. apply IH.
Qed.

Lemma pipeline_run_feeder_exited (sched : list action) (st : status) :
  forall p : pipeline,
    e_pc (feeder p) = EExit st ->
    feeder (pipeline_run ea sched p) = feeder p.
Proof.
  induction sched as [|act sched IH]; intros p Hpc; simpl; [reflexivity|].
  assert (Hstep : feeder (pipeline_step ea act p) = feeder p).
  { destruct act as [|w|ev].
    - unfold pipeline_step, enq_step. rewrite Hpc. reflexivity.
    - now apply pipeline_step_feeder.
    - reflexivity. }
  rewrite IH; [assumption | now rewrite Hstep].
Qed.

(** An enqueuer that was killed, or that an exception ended, has put no
    sentinel. *)
Lemma enq_inv_no_sentinel (s : enq_state) (L : list event) (st : status) :
  enq_inv ea s L ->
  e_pc s = EExit st ->
  st <> Graceful ->
  sentinels_put L = 0%nat.
Proof.
  intros Hinv Hpc Hst. unfold enq_inv in Hinv. rewrite Hpc in Hinv.
  assert (Hel : forall file, at_element ea s L file ->
                             sentinels_put L = 0%nat).
  { intros file Hat.
    destruct (at_element_shape ea _ _ file Hat) as (before & _ & Hputs & _).
    rewrite <- (app_nil_r (map item_put _)) in Hputs.
    change (@nil event) with (repeat sentinel_put 0) in Hputs.
    rewrite <- sentinels_put_done_puts, Hputs.
    apply sentinels_put_shape. }
  destruct st as [| |e].
  - destruct Hinv as (file & Hat & _). now apply Hel with file.
  - now elim Hst.
  - destruct Hinv as [(_ & _ & ->)|(file & Hat & _)];
      [reflexivity | now apply Hel with file].
Qed.

End Gone.

(** X23: when [enqueuer] has ended without reaching its sentinels (killed,
    [StopIteration] on an empty source, an exception of the predicate),
    no worker exits gracefully afterwards: no accepted element being
    [None], whatever is scheduled from then on, the enqueuer has put no
    sentinel and no worker has left its loop at line 96.  The workers go on
    waiting until their kill event is set. *)
Theorem no_graceful_exit_without_sentinels (ea : enq_args)
  (was : list worker_args) (m : Z) (sched sched' : list action)
  (st : status) :
  Forall (fun item => item <> PyNone) (filtered ea) ->
  e_pc (feeder (threadables ea was m sched)) = EExit st ->
  st <> Graceful ->
  e_pc (feeder (threadables ea was m (sched ++ sched'))) = EExit st /\
  sentinels_put (feeder_log (threadables ea was m (sched ++ sched'))) = 0%nat /\
  filter exited_gracefully (workers (threadables ea was m (sched ++ sched')))
  = [].
Proof.
  intros Hitems Hpc Hst.
  assert (Hpc' : e_pc (feeder (threadables ea was m (sched ++ sched')))
                 = EExit st).
  { unfold threadables. rewrite pipeline_run_app.
    fold (threadables ea was m sched).
    now rewrite (pipeline_run_feeder_exited ea sched' st _ Hpc). }
  split; [assumption|].
  destruct (threadables_inv ea was m (sched ++ sched')) as (Henq & Hws & _).
  pose proof (enq_inv_no_sentinel ea _ _ st Henq Hpc' Hst) as Hzero.
  split; [assumption|].
  destruct (sentinels_handed_out ea was m (sched ++ sched') Hitems)
    as (Hout & _).
  pose proof (graceful_took_sentinel _ Hws) as Hg.
  fold (handed_out (threadables ea was m (sched ++ sched'))) in Hg.
  apply length_zero_iff_nil. simpl in Hout. lia.
Qed.

Lemma no_graceful_exit_without_sentinels_witness :
  let ea := EnqArgs [PyInt 2; PyStr "x"; PyInt 4] is_even 1 None None in
  let sched := [Feed; Feed; Feed; Feed] in
  let sched' := concat (repeat [Work 0; Feed] 6) in
  e_pc (feeder (threadables ea [noop] 0 (sched ++ sched')))
  = EExit (Uncaught (Exception "TypeError")) /\
  filter exited_gracefully (workers (threadables ea [noop] 0 (sched ++ sched')))
  = [].
Proof.
  intros ea sched sched'.
  destruct (no_graceful_exit_without_sentinels ea [noop] 0 sched sched'
              (Uncaught (Exception "TypeError")))
    as (H1 & _ & H3).
  - repeat constructor; discriminate.
  - reflexivity.
  - discriminate.
  - split; [exact H1 | exact H3].
Defined.

(** ** The predicate raises *)

Section Raises.

Variable ea : enq_args.

(** The enqueuer of a pipeline that stands at an element on which the
    predicate raises ends with that exception at its next step. *)
Lemma pipeline_run_raises (file : pyobj) (e : pyexn) (sched : list action) :
  forall p : pipeline,
    e_pc (feeder p) = ELoop file ->
    filter_func ea file = Raise e ->
    In Feed sched ->
    e_pc (feeder (pipeline_run ea sched p)) = EExit (Uncaught e).
Proof.
  induction sched as [|act sched IH]; intros p Hpc Hraise Hin;
    [now elim Hin|].
  cbn [pipeline_run]. destruct act as [|w|ev].
  - assert (Hstep : e_pc (feeder (pipeline_step ea Feed p))
                    = EExit (Uncaught e)).
    { unfold pipeline_step, enq_step. rewrite Hpc, Hraise. reflexivity. }
    now rewrite (pipeline_run_feeder_exited ea sched (Uncaught e) _ Hstep).
  - destruct (pipeline_step_feeder ea (Work w) p ltac:(discriminate))
      as (Hf & _).
    destruct Hin as [Hin|Hin]; [discriminate Hin|].
    apply IH; [now rewrite Hf | assumption | assumption].
  - destruct (pipeline_step_feeder ea (SetEvent ev) p ltac:(discriminate))
      as (Hf & _).
    destruct Hin as [Hin|Hin]; [discriminate Hin|].
    apply IH; [now rewrite Hf | assumption | assumption].
Qed.

(** When no [None] has been handed out, no worker has dequeued one, and
    none has left its loop at line 96. *)
Lemma no_sentinel_handed_out (p : pipeline) :
  Forall (fun t => worker_inv (w_args t) (w_pc t) (w_log t)) (workers p) ->
  length (filter is_None (concat (handed_out p))) = 0%nat ->
  Forall (fun t => ~ In PyNone (dequeued (w_log t)) /\
                   w_pc t <> WExit Graceful) (workers p).
Proof.
  intros Hws Hzero. apply length_zero_iff_nil in Hzero.
  rewrite Forall_forall in *. intros t Hin.
  assert (Hnone : ~ In PyNone (dequeued (w_log t))).
  { intros HN.
    assert (H : In PyNone (filter is_None (concat (handed_out p)))).
    { apply filter_In. split; [|reflexivity].
      apply in_concat. exists (dequeued (w_log t)). split; [|assumption].
      unfold handed_out.
      now apply (in_map (fun t0 => dequeued (w_log t0))). }
    rewrite Hzero in H. exact H. }
  split; [assumption|]. intros Hpc.
  destruct (Hws t Hin) as (_ & Hinv). rewrite Hpc in Hinv.
  destruct Hinv as (Hd & _). apply Hnone. rewrite Hd.
  apply in_or_app. right. now left.
Qed.

End Raises.

(** C10 as stated fails: that no sentinel is put does not mean that no
    worker is told to stop through the queue.  With a [None] the predicate
    accepts before the element it raises on, [enqueuer] ends with the
    exception and has put no sentinel, and the worker that dequeues that
    [None] stops as on a sentinel: it calls [exit_func] and exits
    gracefully. *)
Lemma none_item_before_raising_element :
  let ea := EnqArgs [PyNone; PyStr "x"; PyInt 4] not_a_string 1 None None in
  let p := threadables ea [noop] 0 [Feed; Feed; Feed; Feed; Work 0; Work 0] in
  filter_func ea (PyStr "x") = Raise (Exception "TypeError") /\
  e_pc (feeder p) = EExit (Uncaught (Exception "TypeError")) /\
  enqueued (feeder_log p) = [PyNone] /\
  sentinels_put (feeder_log p) = 0%nat /\
  map w_pc (workers p) = [WExit Graceful] /\
  map (fun t => dequeued (w_log t)) (workers p) = [[PyNone]] /\
  map (fun t => exit_calls (w_log t)) (workers p) = [1%nat].
Proof. vm_compute. repeat split. Qed.

(** C10, amended: once the loop stands at an element on which
    [filter_func] raises, the call of line 53, which is outside any [try],
    ends [enqueuer] with that exception, however the run goes on.  What
    has been put by then are the accepted elements strictly before the
    raising one, and no sentinel is ever put.  When moreover no accepted
    element is [None], no worker is told to stop through the queue in that
    run: with any workers on the queue and whatever is scheduled once the
    enqueuer stands at that element, no worker dequeues a [None] and none
    exits gracefully. *)
Theorem enqueuer_filter_raises (a : enq_args) (file : pyobj) (e : pyexn)
  (vs vs' : list view) (v : view) :
  e_pc (fst (enqueuer a vs)) = ELoop file ->
  filter_func a file = Raise e ->
  let r := enqueuer a (vs ++ v :: vs') in
  e_pc (fst r) = EExit (Uncaught e) /\
  snd r = snd (enqueuer a vs) /\
  sentinels_put (snd r) = 0%nat /\
  (exists before,
     iterator a = before ++ file :: e_iter (fst r) /\
     items_put (snd r) = filter (accepts a) before /\
     enqueued (snd r) = filter (accepts a) before) /\
  (Forall (fun item => item <> PyNone) (filtered a) ->
   forall (was : list worker_args) (m : Z) (sched sched' : list action),
     e_pc (feeder (threadables a was m sched)) = ELoop file ->
     In Feed sched' ->
     let p := threadables a was m (sched ++ sched') in
     e_pc (feeder p) = EExit (Uncaught e) /\
     sentinels_put (feeder_log p) = 0%nat /\
     Forall (fun t => ~ In PyNone (dequeued (w_log t)) /\
                      w_pc t <> WExit Graceful) (workers p)).
Proof.
  intros Hpc Hraise r.
  pose proof (enqueuer_inv a vs) as Hinv.
  unfold enq_inv in Hinv. rewrite Hpc in Hinv.
  destruct Hinv as (before & Hit & _ & Hputs & _).
  assert (Hr : r = (EnqState (EExit (Uncaught e)) (e_iter (fst (enqueuer a vs)))
                             (e_i (fst (enqueuer a vs))),
                    snd (enqueuer a vs))).
  { unfold r, enqueuer. rewrite enq_run_app. fold (enqueuer a vs).
    destruct (enqueuer a vs) as [[pc it i] l]. simpl in *. subst pc.
    unfold enq_step. simpl. rewrite Hraise, enq_run_exit. simpl.
    now rewrite app_nil_r. }
  rewrite Hr. cbn [fst snd e_pc e_iter].
  split; [reflexivity|]. split; [reflexivity|]. split; [|split].
  - rewrite <- sentinels_put_done_puts, Hputs.
    rewrite <- (app_nil_r (map item_put _)).
    apply (sentinels_put_shape _ 0).
  - exists before. split; [assumption|].
    rewrite <- items_put_done_puts, <- enqueued_done_puts, Hputs.
    rewrite <- (app_nil_r (map item_put _)).
    split; [apply (items_put_shape _ 0)|].
    rewrite (enqueued_shape _ 0). apply app_nil_r.
  - intros Hitems was m sched sched' Hat Hfeed.
    set (p := threadables a was m (sched ++ sched')).
    assert (Hpc' : e_pc (feeder p) = EExit (Uncaught e)).
    { unfold p, threadables. rewrite pipeline_run_app.
      fold (threadables a was m sched).
      now apply pipeline_run_raises with file. }
    split; [assumption|].
    destruct (threadables_inv a was m (sched ++ sched')) as (Henq & Hws & _).
    fold p in Henq, Hws.
    assert (Hzero : sentinels_put (feeder_log p) = 0%nat).
    { apply (enq_inv_no_sentinel a _ _ (Uncaught e) Henq Hpc').
      discriminate. }
    split; [assumption|].
    destruct (sentinels_handed_out a was m (sched ++ sched') Hitems)
      as (Hout & _).
    fold p in Hout. apply no_sentinel_handed_out; [assumption | lia].
Qed.

Lemma enqueuer_filter_raises_witness :
  let a := EnqArgs [PyInt 2; PyStr "x"; PyInt 4] is_even 1 None None in
  let r := enqueuer a (repeat quiet 3 ++ quiet :: repeat quiet 5) in
  let p := threadables a [noop] 0
             ([Feed; Feed; Feed] ++ [Work 0; Feed; Work 0; Work 0; Work 0]) in
  e_pc (fst r) = EExit (Uncaught (Exception "TypeError")) /\
  snd r = snd (enqueuer a (repeat quiet 3)) /\
  sentinels_put (snd r) = 0%nat /\
  (exists before,
     iterator a = before ++ PyStr "x" :: e_iter (fst r) /\
     items_put (snd r) = filter (accepts a) before /\
     enqueued (snd r) = filter (accepts a) before) /\
  e_pc (feeder p) = EExit (Uncaught (Exception "TypeError")) /\
  sentinels_put (feeder_log p) = 0%nat /\
  Forall (fun t => ~ In PyNone (dequeued (w_log t)) /\
                   w_pc t <> WExit Graceful) (workers p).
Proof.
  intros a r p.
  destruct (enqueuer_filter_raises a (PyStr "x") (Exception "TypeError")
              (repeat quiet 3) (repeat quiet 5) quiet eq_refl eq_refl)
    as (H1 & H2 & H3 & H4 & H5).
  split; [exact H1|]. split; [exact H2|]. split; [exact H3|].
  split; [exact H4|].
  apply (H5 ltac:(repeat constructor; discriminate) [noop] 0
            [Feed; Feed; Feed] [Work 0; Feed; Work 0; Work 0; Work 0]
            eq_refl).
  right. now left.
Defined.
